(** * Ako: the lifting transform (dwt-lift.c) and the tile decoder (decode.c)

    A shallow embedding of [sLift1d], [sLift2d], [DwtTransform] and of the
    tile loop of [AkoDecode], with the properties that the design document
    states about them.

    Conventions.
    - [int16_t] values are integers of [Z] in the range of [int16]; a store
      into an [int16_t] cell is [wrap16].  The operands of an expression are
      promoted to [int], where none of the sums and products of the kernels
      can overflow, so the arithmetic before the store is that of [Z]; the
      division of C truncates toward zero and is [Z.quot].
    - [size_t] indices are naturals.  Products and sums of sizes are taken
      not to overflow; a subtraction that can go below zero is written with
      its wrap-around ([size_sub]).
    - [float] is an interface ([FloatOps]) with the order properties of
      IEEE 754 arithmetic that the proofs use ([FloatLaws]).
    - Behaviour that C leaves undefined (a read outside the input, a
      division by zero, a conversion of an unrepresentable [float]) is the
      [None] of the option monad. *)

From Stdlib Require Import ZArith Lia QArith.
From stdpp Require Import base tactics numbers functions option list list_monad.

Local Open Scope Z_scope.

(** ** Machine integers *)

Definition int16 (z : Z) : Prop := -32768 ≤ z ≤ 32767.

(** The value kept by a store into an [int16_t] cell. *)
Definition wrap16 (z : Z) : Z := (z + 32768) `mod` 65536 - 32768.

(** [a - b] on [size_t] (64 bits). *)
Definition size_sub (a b : nat) : Z := (Z.of_nat a - Z.of_nat b) `mod` 2 ^ 64.

(** ** The [float] interface *)

Class FloatOps (F : Type) := {
  f_of_int : Z → F;            (* conversion of an integer, and literals *)
  f_neg : F → F;
  f_add : F → F → F;
  f_sub : F → F → F;
  f_div : F → F → F;
  f_lt : F → F → bool;         (* [a < b]; [a > b] is [f_lt b a] *)
  f_le : F → F → bool;
  f_pow : F → F → F;           (* powf *)
  f_to_int16 : F → option Z    (* [(int16_t)x], undefined when the
                                  truncated value is not an int16 *)
}.

(** Properties of IEEE 754 arithmetic: the order on the operands that are
    not NaN, the monotony of the correctly rounded operations, and the
    truncation of a conversion to [int16_t]. *)
Class FloatLaws (F : Type) `{FloatOps F} := {
  f_lt_irrefl x : f_lt x x = false;
  f_lt_le x y : f_lt x y = true → f_le x y = true;
  f_lt_ordered x y : f_lt x y = true → f_le x x = true;
  f_le_trans x y z : f_le x y = true → f_le y z = true → f_le x z = true;
  f_lt_le_trans x y z : f_lt x y = true → f_le y z = true → f_lt x z = true;
  f_le_lt_trans x y z : f_le x y = true → f_lt y z = true → f_lt x z = true;
  f_le_total x y :
    f_le x x = true → f_le y y = true → f_lt x y = false → f_le y x = true;
  f_of_int_le a b : a ≤ b → f_le (f_of_int a) (f_of_int b) = true;
  f_of_int_lt a b :
    a < b → - 2 ^ 24 ≤ a → b ≤ 2 ^ 24 →
    f_lt (f_of_int a) (f_of_int b) = true;
  f_div_mono n a b :
    0 < n ≤ 32767 → f_le a b = true →
    f_le (f_div a (f_of_int n)) (f_div b (f_of_int n)) = true;
  f_half x :
    f_le (f_of_int 0) x = true →
    f_le (f_of_int 0) (f_div x (f_of_int 2)) = true
    ∧ f_le (f_div x (f_of_int 2)) x = true;
  f_neg_anti a b : f_le a b = true → f_le (f_neg b) (f_neg a) = true;
  f_zero_le_neg_zero : f_le (f_of_int 0) (f_neg (f_of_int 0)) = true;
  f_to_int16_lower x z :
    f_to_int16 x = Some z → f_lt x (f_of_int 1) = false → 1 ≤ z;
  f_to_int16_int16 x z : f_to_int16 x = Some z → int16 z;
  f_to_int16_defined x :
    f_lt x (f_of_int 1) = false → f_lt x (f_of_int 32768) = true →
    is_Some (f_to_int16 x)
}.

(** ** The 1D lift kernel *)

(** [AKO_WAVELET] is 1, 2 or 3 where [sLift1d] is compiled. *)
Inductive kernel := Haar | CDF53 | DD97.

Global Instance kernel_eq_dec : EqDecision kernel.
Proof. solve_decision. Defined.

(** The samples behind the pointer [in]: [None] outside the object. *)
Definition reader := nat → option Z.

Definition list_reader (l : list Z) : reader := λ i, l !! i.

Section Lift1d.
Context {F : Type} `{FloatOps F}.

(** Lines 60-66 (and 85-91): one highpass coefficient of CDF53. *)
Definition cdf53_highpass (len : nat) (rd : reader) (i : nat) : option Z :=
  if Z.of_nat i <? size_sub len 2 then
    o ← rd (i * 2 + 1)%nat; e ← rd (i * 2)%nat; e1 ← rd (i * 2 + 2)%nat;
    Some (wrap16 (o - (e + e1) `quot` 2))
  else
    o ← rd (i * 2 + 1)%nat; e ← rd (i * 2)%nat;
    Some (wrap16 (o - (e + e) `quot` 2)).

(** Lines 73-81: one highpass coefficient of 97DD. *)
Definition dd97_highpass (len : nat) (rd : reader) (i : nat) : option Z :=
  even_i ← rd (i * 2)%nat;
  even_il1 ← (if (1 <=? i)%nat then rd (i * 2 - 2)%nat else Some even_i);
  even_ip1 ← (if Z.of_nat i <=? size_sub len 2
              then rd (i * 2 + 2)%nat else Some even_i);
  even_ip2 ← (if Z.of_nat i <=? size_sub len 4
              then rd (i * 2 + 4)%nat else Some even_ip1);
  o ← rd (i * 2 + 1)%nat;
  Some (wrap16 (o - (- (even_il1 + even_ip2) + 9 * (even_i + even_ip1))
                       `quot` 16)).

Definition highpass_at (k : kernel) (len : nat) (rd : reader) (i : nat)
  : option Z :=
  match k with
  | Haar =>
      o ← rd (i * 2 + 1)%nat; e ← rd (i * 2)%nat;
      Some (wrap16 (o - (e + o) `quot` 2))
  | CDF53 => cdf53_highpass len rd i
  | DD97 =>
      if (4 <? len)%nat then dd97_highpass len rd i
      else cdf53_highpass len rd i
  end.

(** Lines 98-110: one lowpass coefficient; [hp] is [out + len]. *)
Definition lowpass_at (k : kernel) (rd : reader) (hp : list Z) (i : nat)
  : option Z :=
  match k with
  | Haar =>
      e ← rd (i * 2)%nat; o ← rd (i * 2 + 1)%nat;
      Some (wrap16 ((e + o) `quot` 2))
  | _ =>
      if (0 <? i)%nat then
        e ← rd (i * 2)%nat; h ← hp !! i; h1 ← hp !! (i - 1)%nat;
        Some (wrap16 (e + (h + h1) `quot` 4))
      else
        e ← rd (i * 2)%nat; h ← hp !! i;
        Some (wrap16 (e + (h + h) `quot` 4))
  end.

(** Line 117: the test of the noise gate. *)
Definition noise_gate_hit (q : Z) (g : F) (v : Z) : bool :=
  let value := f_of_int v in
  f_lt (f_div (f_neg g) (f_of_int q)) (f_div value (f_of_int q))
  && f_lt (f_div value (f_of_int q)) (f_div g (f_of_int q)).

(** Lines 116-121: gate, then quantization, of one highpass coefficient. *)
Definition degrade_at (q : Z) (g : F) (v : Z) : option Z :=
  let v' := if noise_gate_hit q g v then 0 else v in
  if q =? 0 then None else Some (wrap16 (v' `quot` q)).

(** [sLift1d]: the three loops in their order; the result is
    [out[0 .. 2 len)], lowpass first. *)
Definition sLift1d (k : kernel) (q : Z) (g : F) (len : nat) (rd : reader)
  : option (list Z) :=
  hp ← mapM (highpass_at k len rd) (seq 0 len);
  lp ← mapM (lowpass_at k rd hp) (seq 0 len);
  hp' ← mapM (degrade_at q g) hp;
  Some (lp ++ hp').

End Lift1d.

(** ** Memory *)

(** The three objects that [DwtTransform] receives: the planes [in], the
    stream [out] and the scratch [aux_memory].  They do not overlap. *)
Inductive region := RIn | ROut | RAux.

Global Instance region_eq_dec : EqDecision region.
Proof. solve_decision. Defined.

Record ptr := Ptr { p_reg : region; p_off : Z }.

Global Instance ptr_eq_dec : EqDecision ptr.
Proof. solve_decision. Defined.

Definition padd (p : ptr) (n : Z) : ptr := Ptr (p_reg p) (p_off p + n).

(** The [int16_t] cells of the three objects. *)
Definition mem := region → Z → Z.

Definition load (m : mem) (p : ptr) : Z := m (p_reg p) (p_off p).

Definition store (m : mem) (p : ptr) (v : Z) : mem :=
  λ r o, if decide (Ptr r o = p) then v else m r o.

Fixpoint store_list (m : mem) (p : ptr) (l : list Z) : mem :=
  match l with
  | [] => m
  | v :: l' => store_list (store m p v) (padd p 1) l'
  end.

(** [for (i = 0; i < n; i++) { *dst = *src; dst += dstep; src += sstep; }] *)
Fixpoint copy_strided (n : nat) (m : mem) (dst : ptr) (dstep : Z)
    (src : ptr) (sstep : Z) : mem :=
  match n with
  | O => m
  | S n' =>
      copy_strided n' (store m dst (load m src))
                   (padd dst dstep) dstep (padd src sstep) sstep
  end.

Definition mem_reader (m : mem) (p : ptr) : reader :=
  λ i, Some (load m (padd p (Z.of_nat i))).

(** The memory, and the cells stored into the output stream so far, in the
    order of the stores.  The stores of the stream are those of
    [s2dToLinearH], of [s2dToLinearV] and of the head of a record; the
    stores of the first lift into [out], which it borrows for its buffer B,
    are not among them. *)
Record state := State { st_mem : mem; st_log : list ptr }.

Definition emit (st : state) (p : ptr) (v : Z) : state :=
  {| st_mem := store (st_mem st) p v; st_log := st_log st ++ [p] |}.

(** [*out = in[o]; out = out + 1] for each offset [o] in turn. *)
Fixpoint emit_seq (offs : list Z) (inp out : ptr) (st : state) : state :=
  match offs with
  | [] => st
  | o :: offs' =>
      emit_seq offs' inp (padd out 1)
               (emit st out (load (st_mem st) (padd inp o)))
  end.

(** The offsets read by the loops of [s2dToLinearH], in their order. *)
Definition linearH_offsets (w h in_pitch : nat) : list Z :=
  r ← seq 0 h; c ← seq 0 w; [Z.of_nat (r * in_pitch + c)].

(** The offsets read by the loops of [s2dToLinearV], in their order. *)
Definition linearV_offsets (w h in_pitch : nat) : list Z :=
  c ← seq 0 w; r ← seq 0 h; [Z.of_nat (c + r * in_pitch)].

Definition s2dToLinearH (w h in_pitch : nat) (inp out : ptr) (st : state)
  : state := emit_seq (linearH_offsets w h in_pitch) inp out st.

Definition s2dToLinearV (w h in_pitch : nat) (inp out : ptr) (st : state)
  : state := emit_seq (linearV_offsets w h in_pitch) inp out st.

(** ** The separable 2D lift step *)

Section Lift2d.
Context {F : Type} `{FloatOps F}.

(** [sLift1d] on memory.  In both calls of [sLift2d] the cells read
    through [in] are not cells written through [out]. *)
Definition sLift1d_mem (k : kernel) (q : Z) (g : F) (len : nat)
    (inp out : ptr) (m : mem) : option mem :=
  r ← sLift1d k q g len (mem_reader m inp); Some (store_list m out r).

Section Body.
Variables (k : kernel) (q : Z) (g : F).
Variables (current_w current_h target_w target_h in_pitch : nat).
Variables (aux a b : ptr).

(** Lines 163-175. *)
Fixpoint lift_rows (rows : nat) (inp out : ptr) (m : mem)
  : option (mem * ptr) :=
  match rows with
  | O => Some (m, out)
  | S rows' =>
      let m := copy_strided current_w m aux 1 inp 1 in
      let m :=
        if size_sub (target_w * 2) current_w =? 0 then m
        else store m (padd aux (Z.of_nat (target_w * 2) - 1))
                   (load m (padd inp (Z.of_nat current_w - 1))) in
      m ← sLift1d_mem k q g target_w aux out m;
      lift_rows rows' (padd inp (Z.of_nat (current_w + in_pitch)))
                (padd out (Z.of_nat (target_w * 2))) m
  end.

(** Lines 182-199. *)
Fixpoint lift_cols (cols : list nat) (m : mem) : option mem :=
  match cols with
  | [] => Some m
  | col :: cols' =>
      let m := copy_strided (target_h * 2) m aux 1
                 (padd b (Z.of_nat col)) (Z.of_nat (target_w * 2)) in
      m ← sLift1d_mem k q g target_h aux
            (padd aux (Z.of_nat (target_h * 2))) m;
      let m := copy_strided (target_h * 2) m
                 (padd a (Z.of_nat col)) (Z.of_nat (target_w * 2))
                 (padd aux (Z.of_nat (target_h * 2))) 1 in
      lift_cols cols' m
  end.

Definition sLift2d (m : mem) : option mem :=
  '(m, out) ← lift_rows current_h a b m;
  let m :=
    if size_sub (target_h * 2) current_h =? 0 then m
    else copy_strided (target_w * 2) m out 1
           (padd out (- Z.of_nat (target_w * 2))) 1 in
  lift_cols (seq 0 (target_w * 2)) m.
End Body.
End Lift2d.

(** ** The pyramid driver *)

(** The two arrays of [struct AkoSettings] that [DwtTransform] reads. *)
Record AkoSettings (F : Type) := {
  quantization : nat → F;
  noise_gate : nat → F
}.
Arguments quantization {F} _ _.
Arguments noise_gate {F} _ _.

(** [(n % 2 == 0) ? (n / 2) : ((n + 1) / 2)] *)
Definition half_up (n : nat) : nat :=
  if (n `mod` 2 =? 0)%nat then (n / 2)%nat else ((n + 1) / 2)%nat.

(** The values of the locals of [DwtTransform] where it returns. *)
Record result := Result {
  r_state : state;
  r_cursor : ptr;          (* output_cursor *)
  r_lift : nat;            (* lift *)
  r_target_w : nat;
  r_target_h : nat
}.

Section Driver.
Context {F : Type} `{FloatOps F}.

(** [TileTotalLength] and [TileTotalLifts] are declared in misc.h; their
    bodies are not part of the sources at hand. *)
Variable TileTotalLength : nat → nat → nat.
Variable TileTotalLifts : nat → nat → nat.

Variable s : AkoSettings F.
Variables tile_w tile_h channels planes_space : nat.

Definition aux_memory : ptr := Ptr RAux 0.
Definition in_ : ptr := Ptr RIn 0.
Definition out_ : ptr := Ptr ROut 0.

(** Lines 244-264, the step: clamp, [lift] halvings, clamp again.
    ([mk3_q] is computed and not used.) *)
Definition quantization_q (ch lift : nat) : F :=
  let user_q := quantization s ch in
  let user_q := if f_lt user_q (f_of_int 1) then f_of_int 1 else user_q in
  let mk1_q := Nat.iter lift (λ x, f_div x (f_of_int 2)) user_q in
  if f_lt mk1_q (f_of_int 1) then f_of_int 1 else mk1_q.

(** Lines 243-265, the gate. *)
Definition quantization_g (ch lift : nat) : F :=
  let total_lifts := TileTotalLifts tile_w tile_h in
  let user_g := noise_gate s ch in
  let user_g := if f_lt user_g (f_of_int 0) then f_of_int 0 else user_g in
  let e := f_sub (f_of_int 1)
             (f_div (f_of_int (Z.of_nat lift))
                    (f_sub (f_of_int (Z.of_nat total_lifts)) (f_of_int 1))) in
  let mk3_g := f_sub (f_pow (f_add user_g (f_of_int 1)) e) (f_of_int 1) in
  if f_lt mk3_g (f_of_int 0) then f_of_int 0 else mk3_g.

(** [in + ((tile_w * tile_h) + planes_space) * ch] *)
Definition plane (ch : nat) : ptr :=
  padd in_ (Z.of_nat ((tile_w * tile_h + planes_space) * ch)).

(** Lines 304-319: the three highpasses, then the head. *)
Definition emit_record (q16 : Z) (target_w target_h : nat) (lp : ptr)
    (output_cursor : ptr) (st : state) : state * ptr :=
  let n := Z.of_nat (target_w * target_h) in
  let output_cursor := padd output_cursor (- (n * 3)) in
  let st := s2dToLinearV target_w target_h (target_w * 2)
              (padd lp (Z.of_nat (target_w * target_h * 2)))
              (padd output_cursor (n * 0)) st in               (* C *)
  let st := s2dToLinearV target_w target_h (target_w * 2)
              (padd lp (Z.of_nat target_w))
              (padd output_cursor (n * 1)) st in               (* B *)
  let st := s2dToLinearV target_w target_h (target_w * 2)
              (padd lp (Z.of_nat (target_w + target_h * (target_w * 2))))
              (padd output_cursor (n * 2)) st in               (* D *)
  let output_cursor := padd output_cursor (- 1) in
  (emit st output_cursor q16, output_cursor).

(** Lines 241-319: the body of the loop over the channels. *)
Definition lift_channel (k : kernel) (lift current_w current_h
    target_w target_h : nat) (ch : nat) (st : state) (output_cursor : ptr)
  : option (state * ptr) :=
  let q := quantization_q ch lift in
  let g := quantization_g ch lift in
  q16 ← f_to_int16 q;
  let lp := plane ch in
  m ← (if (lift =? 0)%nat then
         let buffer_b := padd out_ (Z.of_nat (tile_w * tile_h * ch)) in
         sLift2d k q16 g tile_w tile_h target_w target_h 0
                 aux_memory lp buffer_b (st_mem st)
       else
         sLift2d k q16 g current_w current_h target_w target_h current_w
                 aux_memory lp
                 (padd lp (Z.of_nat (current_w * current_h * 2)))
                 (st_mem st));
  Some (emit_record q16 target_w target_h lp output_cursor
          (State m (st_log st))).

(** [for (size_t ch = channels - 1; ch < channels; ch--)]: the index runs
    from [channels - 1] down to 0 and leaves the loop by wrapping. *)
Definition channels_down : list nat := reverse (seq 0 channels).

Fixpoint lift_channels (k : kernel) (lift current_w current_h
    target_w target_h : nat) (chs : list nat) (st : state)
    (output_cursor : ptr) : option (state * ptr) :=
  match chs with
  | [] => Some (st, output_cursor)
  | ch :: chs' =>
      '(st, output_cursor) ←
        lift_channel k lift current_w current_h target_w target_h ch
                     st output_cursor;
      lift_channels k lift current_w current_h target_w target_h chs'
                    st output_cursor
  end.

(** Lines 230-323, [while (target_w > 2 && target_h > 2)].  The fuel
    bounds the number of turns; it runs out on no tile. *)
Fixpoint lift_levels (fuel : nat) (k : kernel) (lift target_w target_h : nat)
    (st : state) (output_cursor : ptr) : option result :=
  if (2 <? target_w)%nat && (2 <? target_h)%nat then
    match fuel with
    | O => None
    | S fuel' =>
        let current_w := target_w in
        let current_h := target_h in
        let target_w := half_up target_w in
        let target_h := half_up target_h in
        '(st, output_cursor) ←
          lift_channels k lift current_w current_h target_w target_h
                        channels_down st output_cursor;
        lift_levels fuel' k (lift + 1) target_w target_h st output_cursor
    end
  else Some (Result st output_cursor lift target_w target_h).

(** Lines 326-332: one lowpass per channel. *)
Fixpoint emit_lowpasses (target_w target_h : nat) (chs : list nat)
    (st : state) (output_cursor : ptr) : state * ptr :=
  match chs with
  | [] => (st, output_cursor)
  | ch :: chs' =>
      let output_cursor :=
        padd output_cursor (- Z.of_nat (target_w * target_h)) in
      let st := s2dToLinearH target_w target_h (target_w * 2)
                  (plane ch) output_cursor st in
      emit_lowpasses target_w target_h chs' st output_cursor
  end.

(** Lines 207-213, [AKO_WAVELET == 0]: the planes are copied. *)
Fixpoint copy_planes (chs : list nat) (st : state) (out : ptr)
  : state * ptr :=
  match chs with
  | [] => (st, out)
  | ch :: chs' =>
      let st := emit_seq (Z.of_nat <$> seq 0 (tile_w * tile_h))
                  (plane ch) out st in
      copy_planes chs' st (padd out (Z.of_nat (tile_w * tile_h)))
  end.

(** [DwtTransform]; [wavelet] is [None] where [AKO_WAVELET] is 0. *)
Definition DwtTransform (wavelet : option kernel) (m : mem)
  : option result :=
  match wavelet with
  | None =>
      let '(st, out) := copy_planes (seq 0 channels) (State m []) out_ in
      Some (Result st out 0 tile_w tile_h)
  | Some k =>
      let output_cursor :=
        padd out_ (Z.of_nat (TileTotalLength tile_w tile_h * channels)) in
      r ← lift_levels tile_w k 0 tile_w tile_h (State m []) output_cursor;
      let '(st, output_cursor) :=
        emit_lowpasses (r_target_w r) (r_target_h r) channels_down
                       (r_state r) (r_cursor r) in
      Some (Result st output_cursor (r_lift r) (r_target_w r)
              (r_target_h r))
  end.

(** Line 334. *)
Definition cursor_assertion (r : result) : Prop := r_cursor r = out_.

End Driver.

(** ** The tile loop of the decoder *)

(** [sTilesNo] *)
Definition sTilesNo (width height tile_size : nat) : nat :=
  let w := (width / tile_size)%nat in
  let h := (height / tile_size)%nat in
  let w := if (width `mod` tile_size =? 0)%nat then w else (w + 1)%nat in
  let h := if (height `mod` tile_size =? 0)%nat then h else (h + 1)%nat in
  (w * h)%nat.

(** The locals of the loop of [AkoDecode] and the two buffers it fills. *)
Record decoder := Decoder {
  d_col : nat;
  d_row : nat;
  d_blob : nat;                (* bytes of the payload consumed so far *)
  d_tile : list Z;             (* tile_memory, as bytes *)
  d_image : nat → Z            (* image_memory *)
}.

Section Decode.
(** What [FrameRead] (frame.h) returns for the input. *)
Variables width height channels tiles_size : nat.

(** The bytes of the input after the head. *)
Variable payload : nat → Z.

(** The byte that the colour transform gives to the sample of channel
    [ch] at row [r] and column [c] of a tile. *)
Variable pixel_of : list Z → nat → nat → nat → Z.

(** [sizeof(int16_t) * tiles_size * tiles_size * channels] *)
Definition tile_memory_size : nat :=
  (2 * tiles_size * tiles_size * channels)%nat.

(** Modelled from the spec: [FormatToInterlacedU8RGB] (format.h) is not
    part of the sources at hand.  It interleaves the planes of one tile of
    side [tile_size] into the pixel buffer of row length [w] that starts
    at the bytes offset [dst]. *)
Definition FormatToInterlacedU8RGB (tile_size chs w : nat) (tile : list Z)
    (dst : nat) (image : nat → Z) : nat → Z :=
  foldl (λ img '(r, c, ch),
           <[ (dst + (r * w + c) * chs + ch)%nat := pixel_of tile r c ch ]> img)
        image
        (r ← seq 0 tile_size; c ← seq 0 tile_size; ch ← seq 0 chs;
         [(r, c, ch)]).

(** Line 86. *)
Definition tile_is_partial (col row : nat) : bool :=
  (width <? col + tiles_size)%nat || (height <? row + tiles_size)%nat.

(** Lines 86-106: one turn of the loop. *)
Definition decode_tile (d : decoder) : decoder :=
  let d :=
    if tile_is_partial (d_col d) (d_row d) then d
    else
      let tile := payload <$> seq (d_blob d) tile_memory_size in
      {| d_col := d_col d; d_row := d_row d;
         d_blob := (d_blob d + tile_memory_size)%nat;
         d_tile := tile;
         d_image :=
           FormatToInterlacedU8RGB tiles_size channels width tile
             ((width * d_row d + d_col d) * channels)%nat (d_image d) |} in
  let col := (d_col d + tiles_size)%nat in
  if (width <=? col)%nat then
    {| d_col := 0; d_row := (d_row d + tiles_size)%nat;
       d_blob := d_blob d; d_tile := d_tile d; d_image := d_image d |}
  else
    {| d_col := col; d_row := d_row d;
       d_blob := d_blob d; d_tile := d_tile d; d_image := d_image d |}.

(** The state before the loop: both buffers come from [calloc]. *)
Definition decoder_init : decoder :=
  {| d_col := 0; d_row := 0; d_blob := 0;
     d_tile := replicate tile_memory_size 0; d_image := λ _, 0 |}.

(** [AkoDecode], from [FrameRead] to the end of the loop. *)
Definition AkoDecode : decoder :=
  Nat.iter (sTilesNo width height tiles_size) decode_tile decoder_init.

End Decode.

(** ** A model of the [float] interface

    Exact arithmetic on the rationals extended with the two infinities and
    NaN: the operations of IEEE 754 without the rounding, with its rules for
    the special values.  The lemmas that evaluate the code on concrete
    inputs run on it. *)

Inductive xfloat := XNaN | XInf (negative : bool) | XFin (x : Q).

Definition Qltb (a b : Q) : bool := negb (Qle_bool b a).

Definition x_neg (a : xfloat) : xfloat :=
  match a with
  | XNaN => XNaN
  | XInf sg => XInf (negb sg)
  | XFin x => XFin (- x)
  end.

Definition x_add (a b : xfloat) : xfloat :=
  match a, b with
  | XNaN, _ | _, XNaN => XNaN
  | XInf sa, XInf sb => if Bool.eqb sa sb then XInf sa else XNaN
  | XInf sa, XFin _ => XInf sa
  | XFin _, XInf sb => XInf sb
  | XFin x, XFin y => XFin (Qred (x + y))
  end.

Definition x_sub (a b : xfloat) : xfloat := x_add a (x_neg b).

Definition x_div (a b : xfloat) : xfloat :=
  match a, b with
  | XNaN, _ | _, XNaN => XNaN
  | XInf _, XInf _ => XNaN
  | XInf sa, XFin y => XInf (xorb sa (Qltb y 0))
  | XFin _, XInf _ => XFin 0
  | XFin x, XFin y =>
      if Qeq_bool y 0 then
        if Qeq_bool x 0 then XNaN else XInf (Qltb x 0)
      else XFin (Qred (x / y))
  end.

Definition x_lt (a b : xfloat) : bool :=
  match a, b with
  | XNaN, _ | _, XNaN => false
  | XInf sa, XInf sb => sa && negb sb
  | XInf sa, XFin _ => sa
  | XFin _, XInf sb => negb sb
  | XFin x, XFin y => Qltb x y
  end.

Definition x_le (a b : xfloat) : bool :=
  match a, b with
  | XNaN, _ | _, XNaN => false
  | XInf sa, XInf sb => sa || negb sb
  | XInf sa, XFin _ => sa
  | XFin _, XInf sb => negb sb
  | XFin x, XFin y => Qle_bool x y
  end.

(** [powf] where its value is rational: a base of 1, an exponent of 0, an
    integer exponent on a finite base other than 0.  Elsewhere this model
    has no exact value and answers NaN. *)
Definition x_pow (a b : xfloat) : xfloat :=
  match a, b with
  | XFin x, XFin y =>
      if Qeq_bool x 1 || Qeq_bool y 0 then XFin 1
      else if Qeq_bool x 0 then XNaN
      else if (Z.pos (Qden (Qred y)) =? 1)%Z
           then XFin (Qred (Qpower x (Qnum (Qred y))))
           else XNaN
  | XFin x, _ => if Qeq_bool x 1 then XFin 1 else XNaN
  | _, XFin y => if Qeq_bool y 0 then XFin 1 else XNaN
  | _, _ => XNaN
  end.

(** The conversion truncates toward zero. *)
Definition x_to_int16 (a : xfloat) : option Z :=
  match a with
  | XFin x =>
      let t := Qnum x `quot` Z.pos (Qden x) in
      if (-32768 <=? t) && (t <=? 32767) then Some t else None
  | _ => None
  end.

Global Instance xfloat_ops : FloatOps xfloat := {|
  f_of_int z := XFin (inject_Z z);
  f_neg := x_neg;
  f_add := x_add;
  f_sub := x_sub;
  f_div := x_div;
  f_lt := x_lt;
  f_le := x_le;
  f_pow := x_pow;
  f_to_int16 := x_to_int16
|}.

(** Settings with the same step and the same gate on every channel. *)
Definition uniform_settings {F : Type} (q g : F) : AkoSettings F :=
  {| quantization := λ _, q; noise_gate := λ _, g |}.

(** ** The kernels as the comments state them

    Second definitions of the two highpass passes, after the formulas in the
    comments of [sLift1d] and the boundary rules of the design document, to
    compare with the loops above. *)

(** CDF53: [even[i + 1]] is replaced by [even[i]] at the last index, and
    there only. *)
Definition cdf53_highpass_documented (len : nat) (rd : reader) (i : nat)
  : option Z :=
  o ← rd (i * 2 + 1)%nat; e ← rd (i * 2)%nat;
  e1 ← (if (i + 1 <? len)%nat then rd (i * 2 + 2)%nat else Some e);
  Some (wrap16 (o - (e + e1) `quot` 2)).

(** 97DD: an index outside [0 .. len - 1] is replaced by the nearest one
    inside. *)
Definition nearest_even (len : nat) (j : Z) : nat :=
  Z.to_nat (Z.max 0 (Z.min j (Z.of_nat len - 1))).

Definition dd97_highpass_documented (len : nat) (rd : reader) (i : nat)
  : option Z :=
  let even j := rd (nearest_even len j * 2)%nat in
  even_i ← even (Z.of_nat i);
  even_il1 ← even (Z.of_nat i - 1);
  even_ip1 ← even (Z.of_nat i + 1);
  even_ip2 ← even (Z.of_nat i + 2);
  o ← rd (i * 2 + 1)%nat;
  Some (wrap16 (o - (- (even_il1 + even_ip2) + 9 * (even_i + even_ip1))
                       `quot` 16)).

(** The number of coefficients other than 0. *)
Definition nonzero_count (l : list Z) : nat :=
  length (filter (λ z, z ≠ 0) l).

(** ** The layout of the output stream

    The blocks of cells that the driver stores through [output_cursor], in
    the order of the stores, as they follow from the sizes alone. *)

(** The [n] cells from [p] on. *)
Definition ptr_range (p : ptr) (n : nat) : list ptr :=
  (λ i, padd p (Z.of_nat i)) <$> seq 0 n.

(** A block of the stream: the offset of its first cell in [out], and its
    number of cells. *)
Definition block : Type := Z * nat.

Definition block_cells (b : block) : list ptr :=
  ptr_range (Ptr ROut b.1) b.2.

Definition blocks_cells (bs : list block) : list ptr :=
  b ← bs; block_cells b.

(** One record: the quadrants C, B and D of [n] cells each, then the head
    in front of them. *)
Definition record_blocks (n : nat) (c : Z) : list block :=
  let c0 := c - Z.of_nat n * 3 in
  [(c0 + Z.of_nat n * 0, n); (c0 + Z.of_nat n * 1, n);
   (c0 + Z.of_nat n * 2, n); (c0 - 1, 1%nat)].

Fixpoint channels_blocks (n : nat) (count : nat) (c : Z) : list block :=
  match count with
  | O => []
  | S count' =>
      record_blocks n c
      ++ channels_blocks n count' (c - (Z.of_nat n * 3 + 1))
  end.

Fixpoint lowpass_blocks (n : nat) (count : nat) (c : Z) : list block :=
  match count with
  | O => []
  | S count' =>
      (c - Z.of_nat n, n) :: lowpass_blocks n count' (c - Z.of_nat n)
  end.

Fixpoint stream_blocks (fuel channels w h : nat) (c : Z) : list block :=
  if (2 <? w)%nat && (2 <? h)%nat then
    match fuel with
    | O => []
    | S fuel' =>
        let n := (half_up w * half_up h)%nat in
        channels_blocks n channels c
        ++ stream_blocks fuel' channels (half_up w) (half_up h)
             (c - Z.of_nat channels * (Z.of_nat n * 3 + 1))
    end
  else lowpass_blocks (w * h) channels c.

(** The number of coefficients of one channel in the stream: a head and
    three quadrants for each level, and the last lowpass. *)
Fixpoint stream_length (fuel w h : nat) : nat :=
  if (2 <? w)%nat && (2 <? h)%nat then
    match fuel with
    | O => 0
    | S fuel' =>
        (half_up w * half_up h * 3 + 1
         + stream_length fuel' (half_up w) (half_up h))%nat
    end
  else (w * h)%nat.

(** The number of turns of the loop over the levels. *)
Fixpoint stream_levels (fuel w h : nat) : nat :=
  if (2 <? w)%nat && (2 <? h)%nat then
    match fuel with
    | O => 0
    | S fuel' => S (stream_levels fuel' (half_up w) (half_up h))
    end
  else 0.

(** The quadrant of [w] by [h] cells whose first cell is [p], in a block
    of row length [2 w], read column by column. *)
Definition quadrant_by_columns (m : mem) (p : ptr) (w h : nat) : list Z :=
  c ← seq 0 w; r ← seq 0 h; [load m (padd p (Z.of_nat (c + r * (w * 2))))].

(** The three highpass quadrants of the block at [lp]. *)
Definition top_right (m : mem) (lp : ptr) (w h : nat) : list Z :=
  quadrant_by_columns m (padd lp (Z.of_nat w)) w h.
Definition bottom_left (m : mem) (lp : ptr) (w h : nat) : list Z :=
  quadrant_by_columns m (padd lp (Z.of_nat (w * h * 2))) w h.
Definition bottom_right (m : mem) (lp : ptr) (w h : nat) : list Z :=
  quadrant_by_columns m (padd lp (Z.of_nat (w + h * (w * 2)))) w h.


(** The sides of the last lowpass. *)
Fixpoint stream_last (fuel w h : nat) : nat * nat :=
  if (2 <? w)%nat && (2 <? h)%nat then
    match fuel with
    | O => (w, h)
    | S fuel' => stream_last fuel' (half_up w) (half_up h)
    end
  else (w, h).


(** ** Inputs of the concrete runs *)

(** Modelled from the spec: the body of [TileTotalLength] (misc.h) is not
    part of the sources at hand.  The design document gives the stream of
    one channel the length [tile_w * tile_h]. *)
Definition TileTotalLength_spec (tile_w tile_h : nat) : nat :=
  (tile_w * tile_h)%nat.

(** Modelled from the spec: the body of [TileTotalLifts] (misc.h) is not
    part of the sources at hand.  The design document counts the times
    that both sides can be halved and remain above 2. *)
Fixpoint halvings_above_2 (fuel w h : nat) : nat :=
  match fuel with
  | O => 0
  | S fuel' =>
      if (2 <? half_up w)%nat && (2 <? half_up h)%nat
      then S (halvings_above_2 fuel' (half_up w) (half_up h))
      else 0
  end.

Definition TileTotalLifts_spec (tile_w tile_h : nat) : nat :=
  halvings_above_2 tile_w tile_w tile_h.

(** Planes with the sample [o * o mod 23] at the offset [o]. *)
Definition sample_planes : mem :=
  λ r o, match r with RIn => (o * o) `mod` 23 | _ => 0 end.

(** The step 1 and the gate 0 on every channel. *)
Definition lossless_settings : AkoSettings xfloat :=
  uniform_settings (f_of_int 1) (f_of_int 0).


(** ** The grid of the decoder *)

(** The number of tiles along one side, as [sTilesNo] counts them. *)
Definition tiles_across (side tile_size : nat) : nat :=
  if (side `mod` tile_size =? 0)%nat then (side / tile_size)%nat
  else (side / tile_size + 1)%nat.

(** The column and the row of the first pixel of the cell number [i] of
    the grid, in the order of the loop. *)
Definition cell_col (width tile_size i : nat) : nat :=
  (i `mod` tiles_across width tile_size * tile_size)%nat.
Definition cell_row (width tile_size i : nat) : nat :=
  (i / tiles_across width tile_size * tile_size)%nat.

(** The number of the cells before the cell [i] that hold a whole tile. *)
Definition full_before (width height tile_size i : nat) : nat :=
  length (filter (λ j, tile_is_partial width height tile_size
                         (cell_col width tile_size j)
                         (cell_row width tile_size j) = false)
                 (seq 0 i)).

(** The offset in the pixel buffer of the byte of channel [ch] of the
    pixel at row [r] and column [c]. *)
Definition byte_offset (width channels r c ch : nat) : nat :=
  ((r * width + c) * channels + ch)%nat.

(** The decoder after [i] turns of its loop. *)
Definition decoder_after (width height channels tiles_size : nat)
    (payload : nat → Z) (pixel_of : list Z → nat → nat → nat → Z) (i : nat)
  : decoder :=
  Nat.iter i (decode_tile width height channels tiles_size payload pixel_of)
    (decoder_init channels tiles_size).


(** A payload, and a colour transform that writes no 0. *)
Definition sample_payload : nat → Z := λ n, Z.of_nat (n `mod` 251).
Definition sample_pixel_of : list Z → nat → nat → nat → Z :=
  λ tile r c ch, 1 + default 0 (tile !! (2 * (r + c + ch))%nat).


(** What a concrete run shows of the step for one channel: the cursor,
    the record of [w * h * 3 + 1] cells at the cursor, and the top-right,
    bottom-left and bottom-right quadrants of the plane at [lp]. *)
Definition record_view (x : option (state * ptr)) (lp : ptr) (w h : nat)
  : option (ptr * list Z * list Z * list Z * list Z) :=
  '(st, cur) ← x;
  Some (cur, load (st_mem st) <$> ptr_range cur (w * h * 3 + 1),
        top_right (st_mem st) lp w h, bottom_left (st_mem st) lp w h,
        bottom_right (st_mem st) lp w h).

(** What a concrete run shows of the driver: the cursor, the number of
    levels, the sides of the last lowpass and the number of cells stored. *)
Definition driver_view (x : option result)
  : option (ptr * nat * nat * nat * nat) :=
  r ← x;
  Some (r_cursor r, r_lift r, r_target_w r, r_target_h r,
        length (st_log (r_state r))).

(** ** The 2D lift as two passes of the kernel *)

(** The runs of [n] cells at [p] and of [n'] cells at [p'] share no
    cell. *)
Definition apart (p : ptr) (n : nat) (p' : ptr) (n' : nat) : Prop :=
  p_reg p ≠ p_reg p'
  ∨ p_off p + Z.of_nat n ≤ p_off p'
  ∨ p_off p' + Z.of_nat n' ≤ p_off p.

(** The [2 target_w] samples that the row pass hands to the kernel for
    the row at [inp]: the [current_w] samples of the row and, where
    [current_w] is odd, the last of them once more. *)
Definition padded_row (m : mem) (inp : ptr) (current_w target_w : nat)
  : list Z :=
  (λ i, load m (padd inp (Z.of_nat (Nat.min i (current_w - 1)))))
    <$> seq 0 (target_w * 2).

(** The column [col] of the block of [2 target_w] by [2 target_h] cells
    at [p], from its first row to its last. *)
Definition column_of (m : mem) (p : ptr) (col target_w target_h : nat)
  : list Z :=
  (λ i, load m (padd p (Z.of_nat (col + i * (target_w * 2)))))
    <$> seq 0 (target_h * 2).

(** The row [r] of the same block. *)
Definition row_of (m : mem) (p : ptr) (r target_w : nat) : list Z :=
  load m <$> ptr_range (padd p (Z.of_nat (r * (target_w * 2)))) (target_w * 2).

(** Planes, and everything else, filled with the sample 7. *)
Definition flat_planes : mem := λ _ _, 7.

(** The buffer B of the step of the channel [ch] (lines 275 and 283): a
    part of [out] for the first lift, the second half of the block that
    the last lift left in the plane for the others. *)
Definition buffer_b (tile_w tile_h planes_space lift current_w current_h
    ch : nat) : ptr :=
  if (lift =? 0)%nat then padd out_ (Z.of_nat (tile_w * tile_h * ch))
  else padd (plane tile_w tile_h planes_space ch)
            (Z.of_nat (current_w * current_h * 2)).

(** [a / b], rounded up. *)
Definition ceil_div (a b : nat) : nat := ((a + b - 1) / b)%nat.

(** ** A flat tile *)

(** The samples that the lift [lift] reads in the plane of [ch] are all
    [c0]: [w] cells in each of [h] rows, the rows [w] cells apart in the
    tile and [2 w] cells apart in the block that a lift left. *)
Definition flat_input (tile_w tile_h planes_space : nat) (c0 : Z) (m : mem)
    (lift w h ch : nat) : Prop :=
  ∀ r i, (r < h)%nat → (i < w)%nat →
    load m (padd (plane tile_w tile_h planes_space ch)
              (Z.of_nat (r * (w + (if (lift =? 0)%nat then 0 else w)) + i)))
    = c0.

(** The stream of a tile without detail, from the cursor on: the
    lowpasses, [c0] in every cell, then the records of the levels, the
    last level first and the channel 0 first in each, every record the
    head of the channel at the level and three quadrants of zeros. *)
Fixpoint flat_stream (heads : nat → nat → Z) (c0 : Z)
    (fuel channels lift w h : nat) : list Z :=
  if (2 <? w)%nat && (2 <? h)%nat then
    match fuel with
    | O => []
    | S fuel' =>
        flat_stream heads c0 fuel' channels (lift + 1) (half_up w) (half_up h)
        ++ (ch ← seq 0 channels;
            heads ch lift :: replicate (half_up w * half_up h * 3) 0)
    end
  else replicate (channels * (w * h)) c0.

(** * Properties *)

(** ** Machine integers *)

Lemma wrap16_int16 z : int16 (wrap16 z).
Proof.
  unfold int16, wrap16.
  pose proof (Z.mod_pos_bound (z + 32768) 65536). lia.
Qed.

Lemma wrap16_id z : int16 z → wrap16 z = z.
Proof.
  unfold int16, wrap16. intros Hz.
  rewrite Z.mod_small by lia. lia.
Qed.

Lemma wrap16_eq_inv a b c :
  int16 a → int16 b → wrap16 (a + c) = wrap16 (b + c) → a = b.
Proof.
  unfold int16, wrap16. intros Ha Hb Heq.
  pose proof (Z.div_mod (a + c + 32768) 65536).
  pose proof (Z.div_mod (b + c + 32768) 65536).
  lia.
Qed.

Lemma size_sub_small a b : (b ≤ a)%nat → size_sub a b ≤ Z.of_nat a - Z.of_nat b.
Proof.
  intros Hab. unfold size_sub.
  apply Z.mod_le; lia.
Qed.

Lemma size_sub_exact a b :
  (b ≤ a)%nat → Z.of_nat a < 2 ^ 64 →
  size_sub a b = Z.of_nat a - Z.of_nat b.
Proof.
  intros Hab Ha. unfold size_sub. apply Z.mod_small. lia.
Qed.

(** ** Loops as [mapM] over the indices *)

Lemma mapM_seq_lookup {A} (f : nat → option A) n l i :
  mapM f (seq 0 n) = Some l → (i < n)%nat →
  ∃ y, l !! i = Some y ∧ f i = Some y.
Proof.
  intros Hm Hi. apply mapM_Some_1 in Hm.
  destruct (Forall2_lookup_l _ _ _ i i Hm) as (y & Hy & Hf).
  - by apply lookup_seq_lt.
  - eauto.
Qed.

Lemma mapM_seq_length {A} (f : nat → option A) n l :
  mapM f (seq 0 n) = Some l → length l = n.
Proof.
  intros Hm. apply length_mapM in Hm. by rewrite length_seq in Hm.
Qed.

Lemma mapM_seq_is_Some {A} (f : nat → option A) n :
  (∀ i, (i < n)%nat → is_Some (f i)) → is_Some (mapM f (seq 0 n)).
Proof.
  intros Hf. apply mapM_is_Some, Forall_forall.
  intros i Hi. apply elem_of_seq in Hi. apply Hf. lia.
Qed.

Lemma bind_is_Some_all {A B} (mx : option A) (f : A → option B) :
  is_Some mx → (∀ x, is_Some (f x)) → is_Some (mx ≫= f).
Proof. intros [x ->] Hf. apply Hf. Qed.

(** ** The 1D lift kernel *)

Section Lift1dFacts.
Context {F : Type} `{FloatOps F}.

Lemma sLift1d_Some k q g len rd out :
  sLift1d k q g len rd = Some out ↔
  ∃ hp lp hp',
    mapM (highpass_at k len rd) (seq 0 len) = Some hp
    ∧ mapM (lowpass_at k rd hp) (seq 0 len) = Some lp
    ∧ mapM (degrade_at q g) hp = Some hp'
    ∧ out = lp ++ hp'.
Proof.
  unfold sLift1d. split.
  - intros Hs.
    destruct (mapM (highpass_at k len rd) (seq 0 len)) as [hp|] eqn:Hhp;
      [|done].
    simpl in Hs.
    destruct (mapM (lowpass_at k rd hp) (seq 0 len)) as [lp|] eqn:Hlp;
      [|done].
    simpl in Hs.
    destruct (mapM (degrade_at q g) hp) as [hp'|] eqn:Hhp'; [|done].
    simpl in Hs. exists hp, lp, hp'. split_and!; congruence.
  - intros (hp & lp & hp' & -> & Hlp & Hhp' & ->). simpl.
    rewrite Hlp. simpl. by rewrite Hhp'.
Qed.

Lemma degrade_at_Some q g v :
  q ≠ 0 →
  degrade_at q g v
  = Some (wrap16 ((if noise_gate_hit q g v then 0 else v) `quot` q)).
Proof.
  intros Hq. unfold degrade_at.
  destruct (Z.eqb_spec q 0); [done|done].
Qed.

Lemma degrade_all_Some q g hp :
  q ≠ 0 →
  mapM (degrade_at q g) hp
  = Some ((λ v, wrap16 ((if noise_gate_hit q g v then 0 else v) `quot` q))
            <$> hp).
Proof.
  intros Hq. apply mapM_Some_2.
  induction hp as [|v hp IH]; simpl; constructor; auto.
  by apply degrade_at_Some.
Qed.

(** The reads of the highpass loop stay inside [2 len] samples, one
    length apart: at [len = 1] CDF53 compares [0 < len - 2] on [size_t]
    and reads [in[2]]. *)
Lemma highpass_at_is_Some k len rd i :
  (∀ j, (j < 2 * len)%nat → is_Some (rd j)) →
  k = Haar ∨ len ≠ 1%nat → (i < len)%nat →
  is_Some (highpass_at k len rd i).
Proof.
  intros Hrd Hk Hi.
  assert (Hcdf : len ≠ 1%nat → is_Some (cdf53_highpass len rd i)).
  { intros Hlen. unfold cdf53_highpass.
    destruct (Z.ltb_spec (Z.of_nat i) (size_sub len 2)) as [Hlt|Hge].
    - pose proof (size_sub_small len 2).
      repeat (apply bind_is_Some_all; [apply Hrd; lia|intros ?]).
      by eexists.
    - repeat (apply bind_is_Some_all; [apply Hrd; lia|intros ?]).
      by eexists. }
  destruct k; simpl.
  - repeat (apply bind_is_Some_all; [apply Hrd; lia|intros ?]). by eexists.
  - destruct Hk as [|Hk]; [done|]. by apply Hcdf.
  - destruct Hk as [|Hk]; [done|].
    destruct (Nat.ltb_spec 4 len) as [H4|H4]; [|by apply Hcdf].
    unfold dd97_highpass.
    apply bind_is_Some_all; [apply Hrd; lia|intros e].
    apply bind_is_Some_all; [|intros a].
    { destruct (Nat.leb_spec 1 i); [apply Hrd; lia|by eexists]. }
    apply bind_is_Some_all; [|intros b].
    { destruct (Z.leb_spec (Z.of_nat i) (size_sub len 2)); [|by eexists].
      pose proof (size_sub_small len 2). apply Hrd; lia. }
    apply bind_is_Some_all; [|intros c].
    { destruct (Z.leb_spec (Z.of_nat i) (size_sub len 4)); [|by eexists].
      pose proof (size_sub_small len 4). apply Hrd; lia. }
    apply bind_is_Some_all; [apply Hrd; lia|intros o]. by eexists.
Qed.

Lemma lowpass_at_is_Some k len rd hp i :
  (∀ j, (j < 2 * len)%nat → is_Some (rd j)) →
  length hp = len → (i < len)%nat →
  is_Some (lowpass_at k rd hp i).
Proof.
  intros Hrd Hhp Hi.
  destruct (Hrd (i * 2)%nat) as [e He]; [lia|].
  destruct (Hrd (i * 2 + 1)%nat) as [o Ho]; [lia|].
  destruct (lookup_lt_is_Some_2 hp i) as [h Hh]; [lia|].
  destruct (lookup_lt_is_Some_2 hp (i - 1)) as [h1 Hh1]; [lia|].
  destruct k; simpl; rewrite ?He, ?Ho; simpl; try by eexists.
  all: destruct (0 <? i)%nat; rewrite ?Hh, ?Hh1; simpl; by eexists.
Qed.

(** On an input that holds the samples the kernel reads, and with a step
    other than 0, [sLift1d] has a result. *)
Lemma sLift1d_is_Some k q g len rd :
  (∀ j, (j < 2 * len)%nat → is_Some (rd j)) →
  k = Haar ∨ len ≠ 1%nat → q ≠ 0 →
  is_Some (sLift1d k q g len rd).
Proof.
  intros Hrd Hk Hq.
  destruct (mapM_seq_is_Some (highpass_at k len rd) len) as [hp Hhp].
  { intros i Hi. by apply highpass_at_is_Some. }
  destruct (mapM_seq_is_Some (lowpass_at k rd hp) len) as [lp Hlp].
  { intros i Hi. apply lowpass_at_is_Some with (len := len); auto.
    by apply mapM_seq_length in Hhp. }
  eexists. apply sLift1d_Some.
  exists hp, lp. eexists. split_and!; eauto using degrade_all_Some.
Qed.

Lemma list_reader_is_Some (l : list Z) n j :
  length l = n → (j < n)%nat → is_Some (list_reader l j).
Proof. intros <- Hj. by apply lookup_lt_is_Some_2. Qed.

End Lift1dFacts.

(** ** The exact model satisfies the laws *)

Lemma Qltb_lt a b : Qltb a b = true ↔ (a < b)%Q.
Proof.
  unfold Qltb. rewrite negb_true_iff, <- not_true_iff_false, Qle_bool_iff.
  split; [apply Qnot_le_lt|apply Qlt_not_le].
Qed.

Lemma Qltb_ge a b : Qltb a b = false ↔ (b <= a)%Q.
Proof.
  unfold Qltb. rewrite negb_false_iff. apply Qle_bool_iff.
Qed.

Lemma Qltb_inject_Z_0 n : 0 < n → Qltb (inject_Z n) 0 = false.
Proof.
  intros Hn. apply Qltb_ge. change 0%Q with (inject_Z 0).
  rewrite <- Zle_Qle. lia.
Qed.

Lemma Qeq_bool_inject_Z_0 n : 0 < n → Qeq_bool (inject_Z n) 0 = false.
Proof.
  intros Hn. apply not_true_iff_false. intros Heq.
  apply Qeq_bool_iff in Heq. unfold Qeq in Heq. simpl in Heq. lia.
Qed.

Lemma Qdiv_le_compat_pos x y n :
  0 < n → (x <= y)%Q → (Qred (x / inject_Z n) <= Qred (y / inject_Z n))%Q.
Proof.
  intros Hn Hxy. rewrite !Qred_correct. unfold Qdiv.
  apply Qmult_le_compat_r; [done|].
  apply Qinv_le_0_compat. change 0%Q with (inject_Z 0).
  rewrite <- Zle_Qle. lia.
Qed.

Lemma Qhalf_bounds x :
  (0 <= x)%Q → (0 <= Qred (x / inject_Z 2))%Q ∧ (Qred (x / inject_Z 2) <= x)%Q.
Proof.
  intros Hx. rewrite !Qred_correct.
  destruct x as [a b]. unfold Qle, Qdiv, Qmult, Qinv in *. simpl in *.
  rewrite Pos2Z.inj_mul. lia.
Qed.

Lemma Qtrunc_lower x : (1 <= x)%Q → 1 ≤ Qnum x `quot` Z.pos (Qden x).
Proof.
  destruct x as [a b]. unfold Qle. simpl. intros Hx.
  rewrite Z.quot_div_nonneg by lia.
  apply Z.div_le_lower_bound; lia.
Qed.

Lemma Qtrunc_upper x c :
  (x < inject_Z c)%Q → (0 <= x)%Q → Qnum x `quot` Z.pos (Qden x) < c.
Proof.
  destruct x as [a b]. unfold Qlt, Qle. simpl. intros Hx H0.
  rewrite Z.quot_div_nonneg by lia.
  apply Z.div_lt_upper_bound; lia.
Qed.

Global Instance xfloat_laws : FloatLaws xfloat.
Proof.
  split.
  - intros [|[]|x]; simpl; try done. apply Qltb_ge, Qle_refl.
  - intros [|[]|x] [|[]|y]; simpl; try done.
    rewrite Qltb_lt, Qle_bool_iff. apply Qlt_le_weak.
  - intros [|[]|x] [|[]|y]; simpl; try done;
      intros _; apply Qle_bool_iff, Qle_refl.
  - intros [|[]|x] [|[]|y] [|[]|z]; simpl; try done.
    rewrite !Qle_bool_iff. apply Qle_trans.
  - intros [|[]|x] [|[]|y] [|[]|z]; simpl; try done.
    rewrite !Qltb_lt, Qle_bool_iff. apply Qlt_le_trans.
  - intros [|[]|x] [|[]|y] [|[]|z]; simpl; try done.
    rewrite !Qltb_lt, Qle_bool_iff. apply Qle_lt_trans.
  - intros [|[]|x] [|[]|y]; simpl; try done.
    intros _ _. rewrite Qltb_ge, Qle_bool_iff. done.
  - intros a b Hab. simpl. apply Qle_bool_iff. by rewrite <- Zle_Qle.
  - intros a b Hab _ _. simpl. apply Qltb_lt. by rewrite <- Zlt_Qlt.
  - intros n [|sa|x] [|sb|y] [Hn _]; simpl; try done;
      rewrite ?(Qltb_inject_Z_0 n Hn), ?(Qeq_bool_inject_Z_0 n Hn),
        ?xorb_false_r; simpl; try done.
    rewrite !Qle_bool_iff. by apply Qdiv_le_compat_pos.
  - intros [|[]|x]; simpl; try done.
    rewrite !Qle_bool_iff. apply Qhalf_bounds.
  - intros [|[]|x] [|[]|y]; simpl; try done.
    rewrite !Qle_bool_iff. apply Qopp_le_compat.
  - simpl. apply Qle_bool_iff. done.
  - intros [|[]|x] z; simpl; try done.
    intros Hz Hx. apply Qltb_ge in Hx.
    destruct (_ && _); [|done]. injection Hz as <-.
    by apply Qtrunc_lower.
  - intros [|[]|x] z; simpl; try done.
    intros Hz.
    destruct (Z.leb_spec (-32768) (Qnum x `quot` Z.pos (Qden x)));
      destruct (Z.leb_spec (Qnum x `quot` Z.pos (Qden x)) 32767);
      simpl in Hz; try done.
    injection Hz as <-. done.
  - intros [|[]|x]; simpl; try done.
    intros H1 H2. apply Qltb_ge in H1. apply Qltb_lt in H2.
    pose proof (Qtrunc_lower x H1) as Hlo.
    assert (0 <= x)%Q as H0 by (eapply Qle_trans; [|exact H1]; done).
    pose proof (Qtrunc_upper x 32768 H2 H0) as Hhi.
    destruct (Z.leb_spec (-32768) (Qnum x `quot` Z.pos (Qden x)));
      destruct (Z.leb_spec (Qnum x `quot` Z.pos (Qden x)) 32767);
      simpl; try lia. by eexists.
Qed.

(** ** The boundary rules of the highpass passes *)

(** Away from the index [len - 2] the loop of CDF53 computes the documented
    highpass (on [len >= 2]: at [len = 1] the bound [len - 2] wraps). *)
Lemma cdf53_highpass_agrees len rd i :
  (2 ≤ len)%nat → Z.of_nat len < 2 ^ 64 → (i < len)%nat → (i + 2)%nat ≠ len →
  cdf53_highpass len rd i = cdf53_highpass_documented len rd i.
Proof.
  intros Hlen2 Hlen Hi Hne.
  unfold cdf53_highpass, cdf53_highpass_documented.
  destruct (decide (i + 1 = len)%nat) as [Hlast|Hin].
  - destruct (Nat.ltb_spec (i + 1) len); [lia|].
    destruct (Z.ltb_spec (Z.of_nat i) (size_sub len 2)) as [Hlt|]; [|done].
    rewrite size_sub_exact in Hlt by lia. lia.
  - destruct (Nat.ltb_spec (i + 1) len); [|lia].
    rewrite size_sub_exact by lia.
    destruct (Z.ltb_spec (Z.of_nat i) (Z.of_nat len - Z.of_nat 2)); [done|lia].
Qed.

(** Away from the index [len - 3] the loop of 97DD computes the documented
    highpass. *)
Lemma dd97_highpass_agrees len rd i :
  (4 < len)%nat → Z.of_nat len < 2 ^ 64 → (i < len)%nat →
  (i + 3)%nat ≠ len →
  dd97_highpass len rd i = dd97_highpass_documented len rd i.
Proof.
  intros Hlen4 Hlen Hi Hne.
  unfold dd97_highpass, dd97_highpass_documented.
  rewrite !size_sub_exact by lia.
  assert (nearest_even len (Z.of_nat i) = i) as -> by (unfold nearest_even; lia).
  destruct (rd (i * 2)%nat) as [e|] eqn:He; [|done]. cbn [mbind option_bind].
  assert ((if (1 <=? i)%nat then rd (i * 2 - 2)%nat else Some e)
          = rd (nearest_even len (Z.of_nat i - 1) * 2)%nat) as ->.
  { unfold nearest_even. destruct (Nat.leb_spec 1 i).
    - f_equal. lia.
    - replace (Z.to_nat _) with 0%nat by lia.
      by replace i with 0%nat in He by lia. }
  destruct (rd (nearest_even len (Z.of_nat i - 1) * 2)%nat) as [a|]; [|done].
  cbn [mbind option_bind].
  assert ((if Z.of_nat i <=? Z.of_nat len - Z.of_nat 2
           then rd (i * 2 + 2)%nat else Some e)
          = rd (nearest_even len (Z.of_nat i + 1) * 2)%nat) as ->.
  { unfold nearest_even.
    destruct (Z.leb_spec (Z.of_nat i) (Z.of_nat len - Z.of_nat 2)).
    - f_equal. lia.
    - replace (Z.to_nat _) with i by lia. done. }
  destruct (rd (nearest_even len (Z.of_nat i + 1) * 2)%nat) as [b|] eqn:Hb;
    [|done].
  cbn [mbind option_bind].
  assert ((if Z.of_nat i <=? Z.of_nat len - Z.of_nat 4
           then rd (i * 2 + 4)%nat else Some b)
          = rd (nearest_even len (Z.of_nat i + 2) * 2)%nat) as ->; [|done].
  unfold nearest_even in *.
  destruct (Z.leb_spec (Z.of_nat i) (Z.of_nat len - Z.of_nat 4)).
  - f_equal. lia.
  - rewrite <- Hb. f_equal. lia.
Qed.

(** C5 (first half refuted by the code): at [len = 2] the index 0 is not the
    last one and [even[1] = 10] is inside the input, yet the loop of CDF53
    puts [even[0]] in its place: the highpass is [0 - (0 + 0) / 2 = 0] where
    the documented rule gives [0 - (0 + 10) / 2 = -5].  The lowpass makes
    its substitution at the index 0 only. *)
Theorem cdf53_duplicates_before_last_index :
  highpass_at CDF53 2 (list_reader [0; 0; 10; 0]) 0 = Some 0
  ∧ cdf53_highpass_documented 2 (list_reader [0; 0; 10; 0]) 0 = Some (-5)
  ∧ sLift1d CDF53 1 (f_of_int 0 : xfloat) 2 (list_reader [0; 0; 10; 0])
    = Some [0; 8; 0; -10].
Proof. by vm_compute. Qed.

(** C6 (refuted by the code): at [len = 5] and [i = 2] the four indices 1,
    2, 3 and 4 are inside the input, yet the loop of 97DD tests
    [i <= len - 4] and takes [even[3]] for [even[i + 2] = even[4]]: on the
    even samples 0, 0, 0, 0, 16 the highpass is 0 where the documented
    formula gives [0 - (-(0 + 16) + 0) / 16 = 1]. *)
Theorem dd97_drops_last_in_range_neighbour :
  highpass_at DD97 5 (list_reader [0; 0; 0; 0; 0; 0; 0; 0; 16; 0]) 2 = Some 0
  ∧ dd97_highpass_documented 5
      (list_reader [0; 0; 0; 0; 0; 0; 0; 0; 16; 0]) 2 = Some 1.
Proof. by vm_compute. Qed.

(** ** The fallback of 97DD *)

(** C7: on [len <= 4] the 97DD kernel returns what the CDF53 kernel returns,
    for every step and gate, and it has a result wherever the input holds
    the samples read. *)
Theorem dd97_fallback_is_cdf53 {F : Type} `{FloatOps F}
    (q : Z) (g : F) (len : nat) (rd : reader) :
  (len ≤ 4)%nat →
  sLift1d DD97 q g len rd = sLift1d CDF53 q g len rd
  ∧ ((∀ j, (j < 2 * len)%nat → is_Some (rd j)) → len ≠ 1%nat → q ≠ 0 →
     is_Some (sLift1d DD97 q g len rd)).
Proof.
  intros Hlen. split.
  - unfold sLift1d.
    assert (Hhp : ∀ i, highpass_at DD97 len rd i = highpass_at CDF53 len rd i).
    { intros i. simpl. destruct (Nat.ltb_spec 4 len); [lia|done]. }
    rewrite (mapM_ext _ _ _ Hhp). done.
  - intros Hrd Hne Hq. apply sLift1d_is_Some; auto.
Qed.

Lemma dd97_fallback_is_cdf53_witness :
  sLift1d DD97 3 (f_of_int 2 : xfloat) 2 (list_reader [5; 9; -4; 7])
  = sLift1d CDF53 3 (f_of_int 2 : xfloat) 2 (list_reader [5; 9; -4; 7])
  ∧ ((∀ j, (j < 2 * 2)%nat → is_Some (list_reader [5; 9; -4; 7] j)) →
     2%nat ≠ 1%nat → 3 ≠ 0 →
     is_Some (sLift1d DD97 3 (f_of_int 2 : xfloat) 2
                (list_reader [5; 9; -4; 7]))).
Proof. apply dd97_fallback_is_cdf53. lia. Defined.

(** ** The noise gate *)

Section NoiseGate.
Context {F : Type} `{FloatLaws F}.

Lemma noise_gate_hit_mono q g1 g2 v :
  0 < q ≤ 32767 → f_le g1 g2 = true →
  noise_gate_hit q g1 v = true → noise_gate_hit q g2 v = true.
Proof.
  intros Hq Hg. unfold noise_gate_hit.
  rewrite !andb_true_iff. intros [Hlo Hhi]. split.
  - eapply f_le_lt_trans; [|exact Hlo].
    by apply f_div_mono, f_neg_anti.
  - eapply f_lt_le_trans; [exact Hhi|]. by apply f_div_mono.
Qed.

(** With a gate of 0 no coefficient lies strictly between [-0 / q] and
    [0 / q]. *)
Lemma noise_gate_zero q v :
  0 < q ≤ 32767 → noise_gate_hit q (f_of_int 0) v = false.
Proof.
  intros Hq. apply not_true_iff_false. unfold noise_gate_hit.
  rewrite andb_true_iff. intros [Hlo Hhi].
  pose proof (f_div_mono q _ _ Hq f_zero_le_neg_zero) as Hz.
  pose proof (f_lt_le_trans _ _ _ Hhi Hz) as Hhi'.
  pose proof (f_le_lt_trans _ _ _ (f_lt_le _ _ Hhi') Hlo) as Hrefl.
  by rewrite f_lt_irrefl in Hrefl.
Qed.

Lemma nonzero_count_fmap_le (d1 d2 : Z → Z) (l : list Z) :
  (∀ v, d2 v ≠ 0 → d1 v ≠ 0) →
  (nonzero_count (d2 <$> l) ≤ nonzero_count (d1 <$> l))%nat.
Proof.
  intros Hd. unfold nonzero_count.
  induction l as [|v l IH]; [done|].
  rewrite !fmap_cons, !filter_cons.
  destruct (decide (d2 v ≠ 0)) as [H2|H2].
  - destruct (decide (d1 v ≠ 0)) as [H1|H1]; [simpl; lia|].
    by apply Hd in H2.
  - destruct (decide (d1 v ≠ 0)); simpl; lia.
Qed.

(** C8: for a step [q >= 1] (an [int16_t]) and one input, a larger gate
    leaves at most as many highpass coefficients other than 0 in
    [out[len .. 2 len)]. *)
Theorem noise_gate_monotone (k : kernel) (q : Z) (g1 g2 : F) (len : nat)
    (rd : reader) (out1 : list Z) :
  1 ≤ q ≤ 32767 → f_le g1 g2 = true →
  sLift1d k q g1 len rd = Some out1 →
  ∃ out2,
    sLift1d k q g2 len rd = Some out2
    ∧ (nonzero_count (drop len out2) ≤ nonzero_count (drop len out1))%nat.
Proof.
  intros Hq Hg Hout1.
  apply sLift1d_Some in Hout1 as (hp & lp & hp1 & Hhp & Hlp & Hd1 & ->).
  rewrite degrade_all_Some in Hd1 by lia. injection Hd1 as <-.
  eexists. split.
  - apply sLift1d_Some. exists hp, lp. eexists.
    split_and!; [done|done|apply degrade_all_Some; lia|done].
  - pose proof (mapM_seq_length _ _ _ Hlp) as Hlen.
    rewrite <- Hlen, !drop_app_length.
    apply nonzero_count_fmap_le. intros v.
    destruct (noise_gate_hit q g2 v) eqn:H2.
    + rewrite Z.quot_0_l by lia. by intros [].
    + destruct (noise_gate_hit q g1 v) eqn:H1; [|done].
      rewrite (noise_gate_hit_mono q g1 g2 v) in H2; [done|lia|done..].
Qed.

End NoiseGate.

Lemma noise_gate_monotone_witness :
  ∃ out2,
    sLift1d CDF53 2 (f_of_int 4 : xfloat) 4
      (list_reader [5; 9; -4; 7; 12; 3; 0; 40]) = Some out2
    ∧ (nonzero_count (drop 4 out2)
       ≤ nonzero_count (drop 4 [9; -1; 11; 7; 4; 1; -4; 20]%Z))%nat.
Proof.
  apply (noise_gate_monotone CDF53 2 (f_of_int 1 : xfloat) (f_of_int 4)).
  - lia.
  - reflexivity.
  - reflexivity.
Defined.

(** ** What the output of the kernel determines *)

Lemma highpass_at_int16 k len rd i y :
  highpass_at k len rd i = Some y → int16 y.
Proof.
  unfold highpass_at, cdf53_highpass, dd97_highpass.
  intros Hy. repeat case_match; simplify_option_eq; apply wrap16_int16.
Qed.

Lemma highpass_int16 k len rd hp :
  mapM (highpass_at k len rd) (seq 0 len) = Some hp → Forall int16 hp.
Proof.
  intros Hm. apply mapM_Some_1 in Hm.
  induction Hm as [|i y l hp' Hy _ IH]; constructor; [|done].
  by eapply highpass_at_int16.
Qed.

Lemma wrap16_eq_inv_sub a b c :
  int16 a → int16 b → wrap16 (a - c) = wrap16 (b - c) → a = b.
Proof.
  intros Ha Hb Heq. apply (wrap16_eq_inv a b (- c)); [done..|].
  by rewrite !Z.add_opp_r.
Qed.

(** The lowpass of CDF53 and 97DD determines the even samples. *)
Lemma lowpass_at_even k rd1 rd2 hp i y e1 e2 :
  k ≠ Haar →
  lowpass_at k rd1 hp i = Some y → lowpass_at k rd2 hp i = Some y →
  rd1 (i * 2)%nat = Some e1 → rd2 (i * 2)%nat = Some e2 →
  int16 e1 → int16 e2 → e1 = e2.
Proof.
  intros Hk H1 H2 He1 He2 Hi1 Hi2.
  destruct k; [done|..]; simpl in H1, H2;
    rewrite He1 in H1; rewrite He2 in H2;
    destruct (0 <? i)%nat; simplify_option_eq;
    eapply wrap16_eq_inv; eauto.
Qed.

(** On the same even samples, the highpass of CDF53 and 97DD determines
    the odd samples. *)
Lemma highpass_at_odd k len rd1 rd2 i y o1 o2 :
  k ≠ Haar →
  (∀ n, rd1 (n * 2)%nat = rd2 (n * 2)%nat) →
  highpass_at k len rd1 i = Some y → highpass_at k len rd2 i = Some y →
  rd1 (i * 2 + 1)%nat = Some o1 → rd2 (i * 2 + 1)%nat = Some o2 →
  int16 o1 → int16 o2 → o1 = o2.
Proof.
  intros Hk Hev H1 H2 Ho1 Ho2 Hi1 Hi2.
  unfold highpass_at, cdf53_highpass, dd97_highpass in H1, H2.
  replace (i * 2 + 2)%nat with ((i + 1) * 2)%nat in H1, H2 by lia.
  replace (i * 2 + 4)%nat with ((i + 2) * 2)%nat in H1, H2 by lia.
  replace (i * 2 - 2)%nat with ((i - 1) * 2)%nat in H1, H2 by lia.
  rewrite !Hev, Ho1 in H1. rewrite Ho2 in H2.
  destruct k; [done|..]; repeat case_match; simplify_option_eq;
    eapply wrap16_eq_inv_sub; eauto.
Qed.

(** The two outputs of Haar determine the odd samples. *)
Lemma haar_odd rd1 rd2 len hp i y z o1 o2 e1 e2 :
  highpass_at Haar len rd1 i = Some y → highpass_at Haar len rd2 i = Some y →
  lowpass_at Haar rd1 hp i = Some z → lowpass_at Haar rd2 hp i = Some z →
  rd1 (i * 2 + 1)%nat = Some o1 → rd2 (i * 2 + 1)%nat = Some o2 →
  rd1 (i * 2)%nat = Some e1 → rd2 (i * 2)%nat = Some e2 →
  int16 o1 → int16 o2 → int16 e1 → int16 e2 → o1 = o2.
Proof.
  simpl. intros H1 H2 L1 L2 Ho1 Ho2 He1 He2 Hio1 Hio2 Hie1 Hie2.
  rewrite Ho1, He1 in H1, L1. rewrite Ho2, He2 in H2, L2.
  simplify_option_eq.
  assert (Hq : ∀ e o, int16 e → int16 o → int16 ((e + o) `quot` 2)).
  { unfold int16. intros e o He Ho.
    pose proof (Z.quot_rem' (e + o) 2).
    pose proof (Z.rem_bound_abs (e + o) 2). lia. }
  rewrite !wrap16_id in L1 by auto.
  rewrite L1 in H1. eapply wrap16_eq_inv_sub; eauto.
Qed.

Section Information.
Context {F : Type} `{FloatLaws F}.

(** With [q = 1] and [g = 0] the degrade stage changes no coefficient. *)
Lemma degrade_identity hp :
  Forall int16 hp → mapM (degrade_at 1 (f_of_int 0)) hp = Some hp.
Proof.
  intros Hhp. rewrite degrade_all_Some by lia. f_equal.
  induction Hhp as [|v hp Hv _ IH]; [done|].
  rewrite fmap_cons, IH. f_equal.
  rewrite noise_gate_zero by lia.
  rewrite Z.quot_1_r. by apply wrap16_id.
Qed.

Lemma sLift1d_lossless_Some k len rd out :
  sLift1d k 1 (f_of_int 0) len rd = Some out →
  ∃ hp lp,
    mapM (highpass_at k len rd) (seq 0 len) = Some hp
    ∧ mapM (lowpass_at k rd hp) (seq 0 len) = Some lp
    ∧ length hp = len ∧ length lp = len
    ∧ out = lp ++ hp.
Proof.
  intros Hout.
  apply sLift1d_Some in Hout as (hp & lp & hp' & Hhp & Hlp & Hd & ->).
  rewrite degrade_identity in Hd by eauto using highpass_int16.
  injection Hd as <-. exists hp, lp.
  split_and!; eauto using mapM_seq_length.
Qed.

(** C2, as the code has it: with [q = 1] and [g = 0] the kernels CDF53 and
    97DD send two different inputs of [2 len] samples to two different
    outputs, and have an output on every length other than 1; the output
    of Haar determines the odd samples, and not the even ones. *)
Theorem lift_preserves_information (k : kernel) (len : nat)
    (l1 l2 : list Z) :
  length l1 = (2 * len)%nat → length l2 = (2 * len)%nat →
  Forall int16 l1 → Forall int16 l2 →
  (k = Haar ∨ len ≠ 1%nat →
   is_Some (sLift1d k 1 (f_of_int 0) len (list_reader l1)))
  ∧ (∀ out,
       sLift1d k 1 (f_of_int 0) len (list_reader l1) = Some out →
       sLift1d k 1 (f_of_int 0) len (list_reader l2) = Some out →
       (∀ i, l1 !! (i * 2 + 1)%nat = l2 !! (i * 2 + 1)%nat)
       ∧ (k ≠ Haar → l1 = l2)).
Proof.
  intros Hlen1 Hlen2 Hint1 Hint2. split.
  { intros Hk. apply sLift1d_is_Some; [|done|lia].
    intros j Hj. by apply list_reader_is_Some with (n := (2 * len)%nat). }
  intros out Hout1 Hout2.
  apply sLift1d_lossless_Some in Hout1
    as (hp & lp & Hhp1 & Hlp1 & Hlhp & Hllp & ->).
  apply sLift1d_lossless_Some in Hout2
    as (hp2 & lp2 & Hhp2 & Hlp2 & Hlhp2 & Hllp2 & Heq).
  apply app_inj_1 in Heq as [<- <-]; [|lia].
  assert (Hsome : ∀ (l : list Z) j, length l = (2 * len)%nat →
                    Forall int16 l → (j < 2 * len)%nat →
                    ∃ v, l !! j = Some v ∧ int16 v).
  { intros l j Hl Hint Hj.
    destruct (lookup_lt_is_Some_2 l j) as [v Hv]; [lia|].
    exists v. split; [done|]. by eapply Forall_lookup_1. }
  assert (Hnone : ∀ (l : list Z) j, length l = (2 * len)%nat →
                    (2 * len ≤ j)%nat → l !! j = None).
  { intros l j Hl Hj. apply lookup_ge_None_2. lia. }
  assert (Hodd : ∀ i, l1 !! (i * 2 + 1)%nat = l2 !! (i * 2 + 1)%nat
                      ∧ (k ≠ Haar → l1 !! (i * 2)%nat = l2 !! (i * 2)%nat)).
  { assert (Heven : k ≠ Haar → ∀ n, l1 !! (n * 2)%nat = l2 !! (n * 2)%nat).
    { intros Hk n. destruct (decide (n < len)%nat) as [Hn|Hn].
      - destruct (Hsome l1 (n * 2)%nat) as (e1 & He1 & Hi1); [done..|lia|].
        destruct (Hsome l2 (n * 2)%nat) as (e2 & He2 & Hi2); [done..|lia|].
        destruct (mapM_seq_lookup _ _ _ n Hlp1 Hn) as (y & Hy & Hl1).
        destruct (mapM_seq_lookup _ _ _ n Hlp2 Hn) as (y' & Hy' & Hl2).
        assert (y' = y) as -> by congruence.
        rewrite He1, He2. f_equal.
        eapply (lowpass_at_even k (list_reader l1) (list_reader l2)); eauto.
      - rewrite !Hnone by (done || lia). done. }
    intros i. split; [|by auto].
    destruct (decide (i < len)%nat) as [Hi|Hi];
      [|rewrite !Hnone by (done || lia); done].
    destruct (Hsome l1 (i * 2 + 1)%nat) as (o1 & Ho1 & Hio1); [done..|lia|].
    destruct (Hsome l2 (i * 2 + 1)%nat) as (o2 & Ho2 & Hio2); [done..|lia|].
    destruct (mapM_seq_lookup _ _ _ i Hhp1 Hi) as (y & Hy & Hh1).
    destruct (mapM_seq_lookup _ _ _ i Hhp2 Hi) as (y' & Hy' & Hh2).
    assert (y' = y) as -> by congruence.
    rewrite Ho1, Ho2. f_equal.
    destruct (decide (k = Haar)) as [->|Hk].
    - destruct (Hsome l1 (i * 2)%nat) as (e1 & He1 & Hie1); [done..|lia|].
      destruct (Hsome l2 (i * 2)%nat) as (e2 & He2 & Hie2); [done..|lia|].
      destruct (mapM_seq_lookup _ _ _ i Hlp1 Hi) as (z & Hz & Hl1).
      destruct (mapM_seq_lookup _ _ _ i Hlp2 Hi) as (z' & Hz' & Hl2).
      assert (z' = z) as -> by congruence.
      eapply (haar_odd (list_reader l1) (list_reader l2)); eauto.
    - eapply (highpass_at_odd k len (list_reader l1) (list_reader l2));
        eauto. }
  split; [intros i; apply Hodd|].
  intros Hk. apply list_eq. intros j.
  destruct (Nat.Even_or_Odd j) as [[n ->]|[n ->]].
  - replace (2 * n)%nat with (n * 2)%nat by lia. by apply Hodd.
  - replace (2 * n + 1)%nat with (n * 2 + 1)%nat by lia. apply Hodd.
Qed.

End Information.

(** C2, as it is stated, fails on Haar: the inputs [{0, 0}] and [{1, 0}]
    have the same lowpass [(e + o) / 2 = 0] and the same highpass
    [o - (e + o) / 2 = 0]. *)
Lemma haar_lift_not_injective :
  sLift1d Haar 1 (f_of_int 0 : xfloat) 1 (list_reader [0; 0]) = Some [0; 0]
  ∧ sLift1d Haar 1 (f_of_int 0 : xfloat) 1 (list_reader [1; 0]) = Some [0; 0]
  ∧ [0; 0] ≠ [1; 0].
Proof. split_and!; [by vm_compute..|done]. Qed.

Lemma lift_preserves_information_witness :
  (CDF53 = Haar ∨ 2%nat ≠ 1%nat →
   is_Some (sLift1d CDF53 1 (f_of_int 0 : xfloat) 2
              (list_reader [5; 9; -4; 7])))
  ∧ (∀ out,
       sLift1d CDF53 1 (f_of_int 0 : xfloat) 2 (list_reader [5; 9; -4; 7])
       = Some out →
       sLift1d CDF53 1 (f_of_int 0 : xfloat) 2 (list_reader [5; 9; -4; 7])
       = Some out →
       (∀ i, [5; 9; -4; 7] !! (i * 2 + 1)%nat
             = [5; 9; -4; 7] !! (i * 2 + 1)%nat)
       ∧ (CDF53 ≠ Haar → [5; 9; -4; 7] = [5; 9; -4; 7])).
Proof.
  apply lift_preserves_information; try reflexivity.
  - repeat constructor; unfold int16; lia.
  - repeat constructor; unfold int16; lia.
Defined.

(** ** Pointers and cells *)

Lemma padd_0 p : padd p 0 = p.
Proof. destruct p as [r o]. unfold padd. simpl. f_equal. lia. Qed.

Lemma padd_padd p a b : padd (padd p a) b = padd p (a + b).
Proof. unfold padd. simpl. f_equal. lia. Qed.

Lemma load_store_eq m p v : load (store m p v) p = v.
Proof.
  unfold load, store. destruct p as [r o]. simpl.
  by rewrite decide_True.
Qed.

Lemma load_store_ne m p p' v : p' ≠ p → load (store m p v) p' = load m p'.
Proof.
  intros Hne. unfold load, store. destruct p' as [r o]. simpl.
  by rewrite decide_False.
Qed.

Lemma ptr_range_S p n : ptr_range p (S n) = p :: ptr_range (padd p 1) n.
Proof.
  unfold ptr_range. simpl. rewrite padd_0. f_equal.
  rewrite <- fmap_S_seq, <- list_fmap_compose.
  apply list_fmap_ext. intros _ i _. simpl.
  rewrite padd_padd. f_equal. lia.
Qed.

Lemma ptr_range_length p n : length (ptr_range p n) = n.
Proof. unfold ptr_range. by rewrite length_fmap, length_seq. Qed.

Lemma ptr_range_app p a b :
  ptr_range p (a + b) = ptr_range p a ++ ptr_range (padd p (Z.of_nat a)) b.
Proof.
  revert p. induction a as [|a IH]; intros p.
  - simpl. by rewrite padd_0.
  - replace (S a + b)%nat with (S (a + b)) by lia.
    rewrite !ptr_range_S, IH, padd_padd.
    replace (1 + Z.of_nat a) with (Z.of_nat (S a)) by lia. done.
Qed.

Lemma elem_of_ptr_range p q n :
  p ∈ ptr_range q n ↔
  p_reg p = p_reg q ∧ p_off q ≤ p_off p < p_off q + Z.of_nat n.
Proof.
  unfold ptr_range. rewrite list_elem_of_fmap. split.
  - intros (i & -> & Hi). apply elem_of_seq in Hi. unfold padd. simpl.
    split; [done|lia].
  - intros (Hr & Ho). exists (Z.to_nat (p_off p - p_off q)). split.
    + destruct p as [r o]. unfold padd. simpl in *. subst r. f_equal. lia.
    + apply elem_of_seq. lia.
Qed.

Lemma ptr_range_NoDup p n : NoDup (ptr_range p n).
Proof.
  unfold ptr_range. apply NoDup_fmap_2_strong; [|apply NoDup_seq].
  intros i j _ _ Heq. injection Heq. lia.
Qed.

(** ** The stores of the emission *)

Lemma emit_seq_log offs inp out st :
  st_log (emit_seq offs inp out st)
  = st_log st ++ ptr_range out (length offs).
Proof.
  revert out st. induction offs as [|o offs IH]; intros out st.
  - simpl. by rewrite app_nil_r.
  - simpl emit_seq. rewrite IH. simpl length. rewrite ptr_range_S.
    simpl. by rewrite <- app_assoc.
Qed.

Lemma emit_seq_frame offs inp out st p :
  p ∉ ptr_range out (length offs) →
  load (st_mem (emit_seq offs inp out st)) p = load (st_mem st) p.
Proof.
  revert out st. induction offs as [|o offs IH]; intros out st Hp; [done|].
  simpl length in Hp. rewrite ptr_range_S in Hp.
  apply not_elem_of_cons in Hp as [Hne Hp].
  simpl emit_seq. rewrite IH by done. simpl.
  by apply load_store_ne.
Qed.

Lemma emit_seq_content offs inp out st :
  p_reg inp ≠ p_reg out →
  load (st_mem (emit_seq offs inp out st)) <$> ptr_range out (length offs)
  = (λ o, load (st_mem st) (padd inp o)) <$> offs.
Proof.
  intros Hreg. revert out st Hreg.
  induction offs as [|o offs IH]; intros out st Hreg; [done|].
  simpl length. rewrite ptr_range_S. rewrite !fmap_cons. f_equal.
  - simpl emit_seq. rewrite emit_seq_frame.
    + simpl. apply load_store_eq.
    + rewrite elem_of_ptr_range. unfold padd. simpl. lia.
  - simpl emit_seq. rewrite IH by done.
    apply list_fmap_ext. intros _ o' _. simpl.
    apply load_store_ne. intros Heq. apply Hreg.
    by rewrite <- Heq.
Qed.

Lemma bind_length_const {A B} (f : A → list B) (l : list A) (k : nat) :
  (∀ x, length (f x) = k) → length (l ≫= f) = (length l * k)%nat.
Proof.
  intros Hf. induction l as [|x l IH]; [done|].
  rewrite bind_cons, length_app, Hf, IH. simpl. lia.
Qed.

Lemma linearV_offsets_length w h in_pitch :
  length (linearV_offsets w h in_pitch) = (w * h)%nat.
Proof.
  unfold linearV_offsets.
  rewrite (bind_length_const _ _ h), length_seq; [done|].
  intros c. rewrite (bind_length_const _ _ 1%nat), length_seq; [lia|done].
Qed.

Lemma linearH_offsets_length w h in_pitch :
  length (linearH_offsets w h in_pitch) = (w * h)%nat.
Proof.
  unfold linearH_offsets.
  rewrite (bind_length_const _ _ w), length_seq; [lia|].
  intros c. rewrite (bind_length_const _ _ 1%nat), length_seq; [lia|done].
Qed.

(** ** The layout of the stream covers its span once *)

Lemma blocks_cells_app bs1 bs2 :
  blocks_cells (bs1 ++ bs2) = blocks_cells bs1 ++ blocks_cells bs2.
Proof. unfold blocks_cells. apply bind_app. Qed.

Lemma blocks_cells_cons b bs :
  blocks_cells (b :: bs) = block_cells b ++ blocks_cells bs.
Proof. unfold blocks_cells. apply bind_cons. Qed.

(** Two lists of cells that differ in the writing of their offsets. *)
Ltac same_cells_eq :=
  repeat match goal with
         | |- _ :: _ = _ :: _ => f_equal
         | |- _ ++ _ = _ ++ _ => f_equal
         | |- ptr_range _ ?k = ptr_range _ ?k => f_equal
         | |- Ptr ?r _ = Ptr ?r _ => f_equal; lia
         end.

Ltac same_cells :=
  match goal with |- ?l ≡ₚ ?r => cut (l = r); [by intros ->|] end;
  same_cells_eq.

(** Two runs of cells that meet, one stored after the other. *)
Lemma ptr_range_join (l1 l2 : list ptr) (lo mid : Z) (a b : nat) :
  l1 ≡ₚ ptr_range (Ptr ROut mid) a →
  l2 ≡ₚ ptr_range (Ptr ROut lo) b →
  mid = lo + Z.of_nat b →
  l1 ++ l2 ≡ₚ ptr_range (Ptr ROut lo) (b + a).
Proof.
  intros H1 H2 ->. rewrite ptr_range_app, H1, H2.
  unfold padd. simpl. apply Permutation_app_comm.
Qed.

Lemma record_blocks_cells n c :
  blocks_cells (record_blocks n c)
  ≡ₚ ptr_range (Ptr ROut (c - (Z.of_nat n * 3 + 1))) (n * 3 + 1).
Proof.
  unfold record_blocks.
  rewrite !blocks_cells_cons. unfold blocks_cells, block_cells. simpl.
  replace (n * 3 + 1)%nat with (1 + (n + (n + n)))%nat by lia.
  rewrite !ptr_range_app. unfold ptr_range at 4. unfold padd. simpl.
  rewrite !app_assoc, (Permutation_app_comm _ [_]). simpl.
  rewrite <- !app_assoc.
  same_cells.
Qed.

Lemma channels_blocks_cells n count c :
  blocks_cells (channels_blocks n count c)
  ≡ₚ ptr_range (Ptr ROut (c - Z.of_nat count * (Z.of_nat n * 3 + 1)))
               (count * (n * 3 + 1)).
Proof.
  revert c. induction count as [|count IH]; intros c; [done|].
  cbn [channels_blocks]. rewrite blocks_cells_app.
  replace (S count * (n * 3 + 1))%nat
    with (count * (n * 3 + 1) + (n * 3 + 1))%nat by lia.
  eapply ptr_range_join; [apply record_blocks_cells| |lia].
  rewrite IH. same_cells.
Qed.

Lemma lowpass_blocks_cells n count c :
  blocks_cells (lowpass_blocks n count c)
  ≡ₚ ptr_range (Ptr ROut (c - Z.of_nat count * Z.of_nat n)) (count * n).
Proof.
  revert c. induction count as [|count IH]; intros c; [done|].
  cbn [lowpass_blocks]. rewrite blocks_cells_cons.
  replace (S count * n)%nat with (count * n + n)%nat by lia.
  eapply ptr_range_join; [unfold block_cells; simpl; reflexivity| |lia].
  rewrite IH. same_cells.
Qed.

Lemma stream_blocks_cells fuel channels w h c :
  blocks_cells (stream_blocks fuel channels w h c)
  ≡ₚ ptr_range
       (Ptr ROut (c - Z.of_nat channels * Z.of_nat (stream_length fuel w h)))
       (channels * stream_length fuel w h).
Proof.
  revert w h c. induction fuel as [|fuel IH]; intros w h c;
    cbn [stream_blocks stream_length];
    destruct ((2 <? w)%nat && (2 <? h)%nat).
  - rewrite Nat.mul_0_r. done.
  - apply lowpass_blocks_cells.
  - rewrite blocks_cells_app.
    set (n := (half_up w * half_up h)%nat).
    set (sl := stream_length fuel (half_up w) (half_up h)).
    replace (channels * (n * 3 + 1 + sl))%nat
      with (channels * sl + channels * (n * 3 + 1))%nat by lia.
    eapply ptr_range_join; [apply channels_blocks_cells| |lia].
    rewrite IH. fold sl. same_cells.
  - apply lowpass_blocks_cells.
Qed.

(** Every level adds a head, and an odd side is rounded up: the stream of
    a tile with both sides above 2 is longer than the tile. *)
Lemma half_up_double n : (n ≤ 2 * half_up n)%nat.
Proof.
  unfold half_up. destruct (Nat.eqb_spec (n `mod` 2) 0) as [Hm|Hm].
  - pose proof (Nat.div_mod n 2). lia.
  - pose proof (Nat.div_mod (n + 1) 2).
    pose proof (Nat.mod_upper_bound (n + 1) 2). lia.
Qed.

Lemma half_up_lt n : (2 < n)%nat → (half_up n < n)%nat ∧ (2 ≤ half_up n)%nat.
Proof.
  intros Hn. unfold half_up. destruct (Nat.eqb_spec (n `mod` 2) 0) as [Hm|Hm].
  - pose proof (Nat.div_mod n 2). lia.
  - pose proof (Nat.div_mod (n + 1) 2).
    pose proof (Nat.mod_upper_bound (n + 1) 2). lia.
Qed.

Lemma stream_length_lower fuel w h :
  (w ≤ fuel)%nat → (w * h ≤ stream_length fuel w h)%nat.
Proof.
  revert w h. induction fuel as [|fuel IH]; intros w h Hf;
    simpl; destruct (Nat.ltb_spec 2 w), (Nat.ltb_spec 2 h); simpl; try lia.
  pose proof (half_up_lt w). pose proof (half_up_double w).
  pose proof (half_up_double h).
  specialize (IH (half_up w) (half_up h)). nia.
Qed.

Lemma stream_length_exceeds fuel w h :
  (2 < w)%nat → (2 < h)%nat → (w ≤ fuel)%nat →
  (w * h < stream_length fuel w h)%nat.
Proof.
  intros Hw Hh Hf. destruct fuel as [|fuel]; [lia|]. simpl.
  destruct (Nat.ltb_spec 2 w), (Nat.ltb_spec 2 h); simpl; try lia.
  pose proof (half_up_lt w). pose proof (half_up_double w).
  pose proof (half_up_double h).
  pose proof (stream_length_lower fuel (half_up w) (half_up h)). nia.
Qed.

(** ** The quantization step that the driver passes on *)

Section StepFacts.
Context {F : Type} `{FloatLaws F}.
Variable s : AkoSettings F.

(** After the second clamp the step is not below 1 (it is NaN where the
    user value is). *)
Lemma quantization_q_not_below_1 ch lift :
  f_lt (quantization_q s ch lift) (f_of_int 1) = false.
Proof.
  unfold quantization_q.
  match goal with |- context [if ?b then _ else _] => destruct b eqn:Hb end;
    [apply f_lt_irrefl|done].
Qed.

Lemma halvings_bounded (x : F) (n : nat) :
  f_le (f_of_int 0) x = true → f_lt x (f_of_int 32768) = true →
  f_le (f_of_int 0) (Nat.iter n (λ y, f_div y (f_of_int 2)) x) = true
  ∧ f_lt (Nat.iter n (λ y, f_div y (f_of_int 2)) x) (f_of_int 32768) = true.
Proof.
  intros Hx0 Hlim. induction n as [|n [IH0 IHlim]]; [done|].
  simpl. destruct (f_half _ IH0) as [Hh0 Hhle]. split; [done|].
  by eapply f_le_lt_trans.
Qed.

Lemma quantization_q_below_limit ch lift :
  f_lt (quantization s ch) (f_of_int 32768) = true →
  f_lt (quantization_q s ch lift) (f_of_int 32768) = true.
Proof.
  intros Hlim. unfold quantization_q.
  assert (H1 : f_lt (f_of_int 1) (f_of_int 32768) = true)
    by (apply f_of_int_lt; lia).
  match goal with |- context [if ?b then _ else _] => destruct b eqn:Hb end;
    [done|].
  apply halvings_bounded.
  - destruct (f_lt (quantization s ch) (f_of_int 1)) eqn:Hu.
    + apply f_of_int_le. lia.
    + apply f_le_trans with (f_of_int 1); [apply f_of_int_le; lia|].
      apply f_le_total; [|apply f_of_int_le; lia|done].
      by eapply f_lt_ordered.
  - by destruct (f_lt (quantization s ch) (f_of_int 1)).
Qed.

Lemma quantization_q_converts ch lift :
  f_lt (quantization s ch) (f_of_int 32768) = true →
  ∃ q16, f_to_int16 (quantization_q s ch lift) = Some q16 ∧ 1 ≤ q16 ≤ 32767.
Proof.
  intros Hlim.
  destruct (f_to_int16_defined (quantization_q s ch lift)) as [q16 Hq].
  - apply quantization_q_not_below_1.
  - by apply quantization_q_below_limit.
  - exists q16. split; [done|].
    pose proof (f_to_int16_lower _ _ Hq (quantization_q_not_below_1 ch lift)).
    pose proof (f_to_int16_int16 _ _ Hq) as Hr. unfold int16 in Hr. lia.
Qed.

End StepFacts.

(** ** The results of the lift steps on memory *)

Section Lift2dFacts.
Context {F : Type} `{FloatOps F}.

Lemma sLift1d_mem_is_Some k q (g : F) len inp out m :
  len ≠ 1%nat → q ≠ 0 → is_Some (sLift1d_mem k q g len inp out m).
Proof.
  intros Hlen Hq. unfold sLift1d_mem.
  destruct (sLift1d_is_Some k q g len (mem_reader m inp)) as [r ->];
    [by eexists|by right|done|by eexists].
Qed.

Lemma lift_rows_is_Some k q (g : F) cw tw pitch aux rows inp out m :
  tw ≠ 1%nat → q ≠ 0 →
  is_Some (lift_rows k q g cw tw pitch aux rows inp out m).
Proof.
  intros Htw Hq. revert inp out m.
  induction rows as [|rows IH]; intros inp out m; [by eexists|].
  cbn [lift_rows].
  match goal with |- context [sLift1d_mem k q g tw aux out ?m'] =>
    destruct (sLift1d_mem_is_Some k q g tw aux out m' Htw Hq) as [m1 ->]
  end.
  apply IH.
Qed.

Lemma lift_cols_is_Some k q (g : F) tw th aux a b cols m :
  th ≠ 1%nat → q ≠ 0 →
  is_Some (lift_cols k q g tw th aux a b cols m).
Proof.
  intros Hth Hq. revert m.
  induction cols as [|col cols IH]; intros m; [by eexists|].
  cbn [lift_cols].
  match goal with |- context [sLift1d_mem k q g th aux ?o ?m'] =>
    destruct (sLift1d_mem_is_Some k q g th aux o m' Hth Hq) as [m1 ->]
  end.
  apply IH.
Qed.

Lemma sLift2d_is_Some k q (g : F) cw ch tw th pitch aux a b m :
  tw ≠ 1%nat → th ≠ 1%nat → q ≠ 0 →
  is_Some (sLift2d k q g cw ch tw th pitch aux a b m).
Proof.
  intros Htw Hth Hq. unfold sLift2d.
  destruct (lift_rows_is_Some k q g cw tw pitch aux ch a b m Htw Hq)
    as [[m1 out] ->].
  apply lift_cols_is_Some; done.
Qed.

End Lift2dFacts.

(** ** The pyramid driver *)

Lemma emit_record_log q16 tw th lp c st :
  ∃ st',
    emit_record q16 tw th lp (Ptr ROut c) st
    = (st', Ptr ROut (c - (Z.of_nat (tw * th) * 3 + 1)))
    ∧ st_log st' = st_log st ++ blocks_cells (record_blocks (tw * th) c).
Proof.
  unfold emit_record. eexists. split.
  - f_equal. unfold padd. simpl. f_equal. lia.
  - unfold s2dToLinearV. cbn [emit st_log].
    rewrite !emit_seq_log, !linearV_offsets_length.
    unfold blocks_cells, block_cells, record_blocks, padd.
    cbn [mbind list_bind fst snd p_reg p_off mret].
    rewrite <- !app_assoc. simpl. same_cells_eq.
    unfold padd. simpl. f_equal. lia.
Qed.

Lemma emit_lowpasses_log tile_w tile_h planes_space tw th chs st c :
  ∃ st',
    emit_lowpasses tile_w tile_h planes_space tw th chs st (Ptr ROut c)
    = (st', Ptr ROut (c - Z.of_nat (length chs) * Z.of_nat (tw * th)))
    ∧ st_log st'
      = st_log st ++ blocks_cells (lowpass_blocks (tw * th) (length chs) c).
Proof.
  revert st c. induction chs as [|ch chs IH]; intros st c.
  - simpl. eexists. split; [f_equal; f_equal; lia|by rewrite app_nil_r].
  - cbn [emit_lowpasses length lowpass_blocks].
    unfold padd. cbn [p_reg p_off].
    edestruct IH as (st' & -> & Hl). exists st'. split.
    + f_equal. f_equal. lia.
    + rewrite Hl.
      unfold s2dToLinearH. rewrite emit_seq_log, linearH_offsets_length.
      rewrite blocks_cells_cons, <- app_assoc. unfold block_cells.
      cbn [fst snd].
      replace (c + - Z.of_nat (tw * th)) with (c - Z.of_nat (tw * th))
        by lia.
      done.
Qed.

(** ** The cells of one record *)

Lemma fmap_bind_list {A B C} (f : B → C) (g : A → list B) (l : list A) :
  f <$> (l ≫= g) = l ≫= (λ x, f <$> g x).
Proof.
  induction l as [|x l IH]; [done|].
  by rewrite !bind_cons, fmap_app, IH.
Qed.

Lemma quadrant_as_offsets m p w h :
  quadrant_by_columns m p w h
  = (λ o, load m (padd p o)) <$> linearV_offsets w h (w * 2).
Proof.
  unfold quadrant_by_columns, linearV_offsets.
  rewrite fmap_bind_list. apply list_bind_ext; [|done].
  intros c. by rewrite fmap_bind_list.
Qed.

Lemma quadrant_frame m m' p w h :
  (∀ q, p_reg q = p_reg p → load m' q = load m q) →
  quadrant_by_columns m' p w h = quadrant_by_columns m p w h.
Proof.
  intros Hm. unfold quadrant_by_columns.
  apply list_bind_ext; [|done]. intros c.
  apply list_bind_ext; [|done]. intros r.
  by rewrite Hm.
Qed.

Lemma fmap_load_frame (m m' : mem) (ps : list ptr) :
  (∀ p, p ∈ ps → load m' p = load m p) → load m' <$> ps = load m <$> ps.
Proof.
  intros Hm. apply list_fmap_ext. intros i p Hp. apply Hm.
  by eapply list_elem_of_lookup_2.
Qed.

(** One quadrant goes to the stream column by column, and the stores
    change the cells of its destination only. *)
Lemma s2dToLinearV_spec w h inp o st :
  p_reg inp ≠ ROut →
  load (st_mem (s2dToLinearV w h (w * 2) inp (Ptr ROut o) st))
    <$> ptr_range (Ptr ROut o) (w * h)
  = quadrant_by_columns (st_mem st) inp w h
  ∧ (∀ p, p ∉ ptr_range (Ptr ROut o) (w * h) →
          load (st_mem (s2dToLinearV w h (w * 2) inp (Ptr ROut o) st)) p
          = load (st_mem st) p).
Proof.
  intros Hreg. unfold s2dToLinearV. split.
  - rewrite quadrant_as_offsets.
    rewrite <- (emit_seq_content _ inp (Ptr ROut o)) by done.
    by rewrite linearV_offsets_length.
  - intros p Hp. apply emit_seq_frame.
    by rewrite linearV_offsets_length.
Qed.

Lemma not_elem_of_ptr_range_region p q n :
  p_reg p ≠ p_reg q → p ∉ ptr_range q n.
Proof. rewrite elem_of_ptr_range. by intros Hne [Heq _]. Qed.

(** The stores of lines 304-319: the record is the head, then the
    bottom-left quadrant, then the top-right one, then the bottom-right
    one, each column by column; no cell outside [out] changes. *)
Lemma emit_record_content q16 tw th lp c st :
  p_reg lp ≠ ROut →
  let r := emit_record q16 tw th lp (Ptr ROut c) st in
  load (st_mem r.1) <$> ptr_range r.2 (tw * th * 3 + 1)
  = q16 :: bottom_left (st_mem r.1) lp tw th
        ++ top_right (st_mem r.1) lp tw th
        ++ bottom_right (st_mem r.1) lp tw th
  ∧ (∀ p, p_reg p ≠ ROut → load (st_mem r.1) p = load (st_mem st) p).
Proof.
  intros Hreg. unfold emit_record. cbn zeta. cbn [fst snd].
  unfold padd at 1 2 3 4 5 6 7 8 9. cbn [p_reg p_off].
  set (n := Z.of_nat (tw * th)).
  set (c0 := c + - (n * 3)).
  set (inC := padd lp (Z.of_nat (tw * th * 2))).
  set (inB := padd lp (Z.of_nat tw)).
  set (inD := padd lp (Z.of_nat (tw + th * (tw * 2)))).
  set (st1 := s2dToLinearV tw th (tw * 2) inC (Ptr ROut (c0 + n * 0)) st).
  set (st2 := s2dToLinearV tw th (tw * 2) inB (Ptr ROut (c0 + n * 1)) st1).
  set (st3 := s2dToLinearV tw th (tw * 2) inD (Ptr ROut (c0 + n * 2)) st2).
  destruct (s2dToLinearV_spec tw th inC (c0 + n * 0) st) as [C1 F1]; [done|].
  destruct (s2dToLinearV_spec tw th inB (c0 + n * 1) st1) as [C2 F2]; [done|].
  destruct (s2dToLinearV_spec tw th inD (c0 + n * 2) st2) as [C3 F3]; [done|].
  fold st1 in C1, F1. fold st2 in C2, F2. fold st3 in C3, F3.
  cbn [emit st_mem].
  set (head := Ptr ROut (c0 + -1)).
  assert (Fr : ∀ p, p_reg p ≠ ROut →
            load (store (st_mem st3) head q16) p = load (st_mem st) p).
  { intros p Hp. rewrite load_store_ne by (intros ->; done).
    rewrite F3, F2, F1; [done|by apply not_elem_of_ptr_range_region..]. }
  split; [|exact Fr].
  assert (Fq : ∀ m' inp, p_reg inp = p_reg lp →
            (∀ p, p_reg p ≠ ROut → load m' p = load (st_mem st) p) →
            quadrant_by_columns m' inp tw th
            = quadrant_by_columns (st_mem st) inp tw th).
  { intros m' inp Hinp Hm'. apply quadrant_frame.
    intros q Hq. apply Hm'. congruence. }
  unfold bottom_left, top_right, bottom_right. fold inC inB inD.
  rewrite !(Fq (store (st_mem st3) head q16)) by done.
  replace (tw * th * 3 + 1)%nat
    with (S (tw * th + (tw * th + tw * th)))%nat by lia.
  rewrite ptr_range_S, fmap_cons, !ptr_range_app, !fmap_app.
  unfold head, padd. cbn [p_reg p_off]. fold head.
  f_equal; [apply load_store_eq|].
  f_equal; [|f_equal].
  - rewrite <- C1.
    match goal with |- _ <$> ptr_range (Ptr ROut ?o) _ = _ =>
      replace o with (c0 + n * 0) by (unfold c0, n; lia) end.
    apply fmap_load_frame. intros p Hp.
    apply elem_of_ptr_range in Hp as [Hr Ho]. cbn [p_reg p_off] in Hr, Ho.
    rewrite load_store_ne by (intros ->; cbn [p_off] in Ho; lia).
    rewrite F3, F2; [done|rewrite elem_of_ptr_range; cbn [p_reg p_off];
                          fold n; lia..].
  - rewrite <- (Fq (st_mem st1) inB); [|done|].
    2: { intros p Hp. apply F1. by apply not_elem_of_ptr_range_region. }
    rewrite <- C2.
    match goal with |- _ <$> ptr_range (Ptr ROut ?o) _ = _ =>
      replace o with (c0 + n * 1) by (unfold c0, n; lia) end.
    apply fmap_load_frame. intros p Hp.
    apply elem_of_ptr_range in Hp as [Hr Ho]. cbn [p_reg p_off] in Hr, Ho.
    rewrite load_store_ne by (intros ->; cbn [p_off] in Ho; lia).
    rewrite F3; [done|rewrite elem_of_ptr_range; cbn [p_reg p_off];
                      fold n; lia].
  - rewrite <- (Fq (st_mem st2) inD); [|done|].
    2: { intros p Hp. rewrite F2, F1;
           [done|by apply not_elem_of_ptr_range_region..]. }
    rewrite <- C3.
    match goal with |- _ <$> ptr_range (Ptr ROut ?o) _ = _ =>
      replace o with (c0 + n * 2) by (unfold c0, n; lia) end.
    apply fmap_load_frame. intros p Hp.
    apply elem_of_ptr_range in Hp as [Hr Ho]. cbn [p_reg p_off] in Hr, Ho.
    rewrite load_store_ne by (intros ->; cbn [p_off] in Ho; lia).
    done.
Qed.

Section DriverFacts.
Context {F : Type} `{FloatLaws F}.
Variables TileTotalLength TileTotalLifts : nat → nat → nat.
Variable s : AkoSettings F.
Variables tile_w tile_h channels planes_space : nat.

(** Every step of the settings is a number below 32768. *)
Hypothesis steps_in_range :
  ∀ ch, f_lt (quantization s ch) (f_of_int 32768) = true.

Lemma lift_channel_log k lift cw chh tw th ch st c :
  tw ≠ 1%nat → th ≠ 1%nat →
  ∃ st',
    lift_channel TileTotalLifts s tile_w tile_h planes_space
      k lift cw chh tw th ch st (Ptr ROut c)
    = Some (st', Ptr ROut (c - (Z.of_nat (tw * th) * 3 + 1)))
    ∧ st_log st' = st_log st ++ blocks_cells (record_blocks (tw * th) c).
Proof.
  intros Htw Hth. unfold lift_channel.
  destruct (quantization_q_converts s ch lift (steps_in_range ch))
    as (q16 & -> & Hq16).
  cbn [mbind option_bind].
  assert (Hq : q16 ≠ 0) by lia.
  match goal with |- context [if ?b then ?x else ?y] =>
    assert (is_Some (if b then x else y)) as [m ->]
      by (destruct b; apply sLift2d_is_Some; done)
  end.
  cbn [mbind option_bind].
  match goal with |- context [emit_record ?qa ?wa ?ha ?pa _ ?sa] =>
    destruct (emit_record_log qa wa ha pa c sa) as (st' & -> & Hl)
  end.
  exists st'. split; [done|]. by rewrite Hl.
Qed.

Lemma lift_channels_log k lift cw chh tw th chs st c :
  tw ≠ 1%nat → th ≠ 1%nat →
  ∃ st',
    lift_channels TileTotalLifts s tile_w tile_h planes_space
      k lift cw chh tw th chs st (Ptr ROut c)
    = Some (st', Ptr ROut (c - Z.of_nat (length chs)
                               * (Z.of_nat (tw * th) * 3 + 1)))
    ∧ st_log st'
      = st_log st ++ blocks_cells (channels_blocks (tw * th) (length chs) c).
Proof.
  intros Htw Hth. revert st c.
  induction chs as [|ch chs IH]; intros st c.
  - simpl. eexists. split; [do 3 f_equal; lia|by rewrite app_nil_r].
  - cbn [lift_channels length channels_blocks].
    destruct (lift_channel_log k lift cw chh tw th ch st c Htw Hth)
      as (st1 & -> & Hl1).
    cbn [mbind option_bind].
    destruct (IH st1 (c - (Z.of_nat (tw * th) * 3 + 1)))
      as (st2 & -> & Hl2).
    exists st2. split; [do 3 f_equal; lia|].
    by rewrite Hl2, Hl1, blocks_cells_app, app_assoc.
Qed.

Lemma channels_down_length : length (channels_down channels) = channels.
Proof. unfold channels_down. by rewrite length_reverse, length_seq. Qed.

Lemma lift_levels_log fuel k lift w h st c :
  (w ≤ fuel)%nat →
  ∃ r st',
    lift_levels TileTotalLifts s tile_w tile_h channels planes_space
      fuel k lift w h st (Ptr ROut c) = Some r
    ∧ emit_lowpasses tile_w tile_h planes_space (r_target_w r) (r_target_h r)
        (channels_down channels) (r_state r) (r_cursor r)
      = (st', Ptr ROut (c - Z.of_nat channels
                            * Z.of_nat (stream_length fuel w h)))
    ∧ st_log st'
      = st_log st ++ blocks_cells (stream_blocks fuel channels w h c)
    ∧ r_lift r = (lift + stream_levels fuel w h)%nat
    ∧ (r_target_w r, r_target_h r) = stream_last fuel w h.
Proof.
  assert (Hbase : ∀ lift w h st c,
            ((2 <? w)%nat && (2 <? h)%nat = false) →
            ∃ r st',
              Some (Result st (Ptr ROut c) lift w h) = Some r
              ∧ emit_lowpasses tile_w tile_h planes_space (r_target_w r)
                  (r_target_h r) (channels_down channels) (r_state r)
                  (r_cursor r)
                = (st', Ptr ROut (c - Z.of_nat channels
                                      * Z.of_nat (w * h)))
              ∧ st_log st'
                = st_log st ++ blocks_cells (lowpass_blocks (w * h) channels c)
              ∧ r_lift r = (lift + 0)%nat
              ∧ (r_target_w r, r_target_h r) = (w, h)).
  { intros lift' w' h' st0 c0 _.
    exists (Result st0 (Ptr ROut c0) lift' w' h').
    cbn [r_target_w r_target_h r_state r_cursor r_lift].
    destruct (emit_lowpasses_log tile_w tile_h planes_space w' h'
                (channels_down channels) st0 c0) as (st' & Hl & Hlog).
    rewrite channels_down_length in Hl, Hlog.
    exists st'. split_and!; [done|done|done|lia|done]. }
  revert lift w h st c. induction fuel as [|fuel IH]; intros lift w h st c Hf;
    cbn [lift_levels stream_length stream_blocks stream_levels stream_last];
    destruct ((2 <? w)%nat && (2 <? h)%nat) eqn:Hc;
    try (by apply Hbase).
  - apply andb_true_iff in Hc as [Hw%Nat.ltb_lt _]. lia.
  - apply andb_true_iff in Hc as [Hw%Nat.ltb_lt Hh%Nat.ltb_lt].
    destruct (half_up_lt w Hw) as [Hwlt Hw2].
    destruct (half_up_lt h Hh) as [Hhlt Hh2].
    destruct (lift_channels_log k lift w h (half_up w) (half_up h)
                (channels_down channels) st c) as (st1 & -> & Hl1);
      [lia..|].
    cbn [mbind option_bind]. rewrite channels_down_length in Hl1 |- *.
    destruct (IH (lift + 1)%nat (half_up w) (half_up h) st1
                (c - Z.of_nat channels
                     * (Z.of_nat (half_up w * half_up h) * 3 + 1)))
      as (r & st' & -> & Hlow & Hlog & Hlift & Hlast); [lia|].
    exists r, st'. split_and!; [done| | |lia|done].
    + rewrite Hlow. do 2 f_equal. lia.
    + by rewrite Hlog, Hl1, blocks_cells_app, app_assoc.
Qed.

(** The stores of [DwtTransform] through [output_cursor], and where the
    cursor ends. *)
Lemma DwtTransform_log k m :
  ∃ r,
    DwtTransform TileTotalLength TileTotalLifts s tile_w tile_h channels
      planes_space (Some k) m = Some r
    ∧ r_cursor r
      = Ptr ROut (Z.of_nat (TileTotalLength tile_w tile_h * channels)
                  - Z.of_nat channels
                    * Z.of_nat (stream_length tile_w tile_w tile_h))
    ∧ st_log (r_state r)
      = blocks_cells
          (stream_blocks tile_w channels tile_w tile_h
             (Z.of_nat (TileTotalLength tile_w tile_h * channels)))
    ∧ r_lift r = stream_levels tile_w tile_w tile_h
    ∧ (r_target_w r, r_target_h r) = stream_last tile_w tile_w tile_h.
Proof.
  unfold DwtTransform, out_, padd. cbn [p_reg p_off].
  destruct (lift_levels_log tile_w k 0 tile_w tile_h (State m [])
              (0 + Z.of_nat (TileTotalLength tile_w tile_h * channels)))
    as (r & st' & -> & Hlow & Hlog & Hlift & Hlast); [done|].
  cbn [mbind option_bind]. rewrite Hlow.
  eexists. split; [done|]. cbn [r_cursor r_state r_lift r_target_w r_target_h].
  rewrite Z.add_0_l in Hlog |- *. by rewrite Hlog.
Qed.


(** C1, as the code has it: on a tile with both sides above 2 the driver
    stores, for each channel, a head and three quadrants per level and the
    last lowpass, [stream_length] coefficients, which is more than
    [tile_w * tile_h]; the cells stored are the cells of the span that the
    cursor travels, each of them once; the cursor, which starts
    [TileTotalLength tile_w tile_h * channels] cells after [out], ends at
    [out] exactly when [TileTotalLength] is that number. *)
Theorem dwt_stream_accounting (k : kernel) (m : mem) :
  (2 < tile_w)%nat → (2 < tile_h)%nat → (1 ≤ channels)%nat →
  ∃ r,
    DwtTransform TileTotalLength TileTotalLifts s tile_w tile_h channels
      planes_space (Some k) m = Some r
    ∧ let n := (channels * stream_length tile_w tile_w tile_h)%nat in
      let start := Z.of_nat (TileTotalLength tile_w tile_h * channels) in
      length (st_log (r_state r)) = n
      ∧ NoDup (st_log (r_state r))
      ∧ (∀ p, p ∈ st_log (r_state r) ↔
              p_reg p = ROut ∧ start - Z.of_nat n ≤ p_off p < start)
      ∧ r_cursor r = padd out_ (start - Z.of_nat n)
      ∧ (tile_w * tile_h * channels < n)%nat
      ∧ (cursor_assertion r ↔
         TileTotalLength tile_w tile_h = stream_length tile_w tile_w tile_h).
Proof.
  intros Hw Hh Hch.
  destruct (DwtTransform_log k m) as (r & Hr & Hcur & Hlog & _ & _).
  exists r. split; [done|]. cbn zeta.
  pose proof (stream_blocks_cells tile_w channels tile_w tile_h
                (Z.of_nat (TileTotalLength tile_w tile_h * channels)))
    as Hperm.
  rewrite <- Hlog in Hperm.
  pose proof (stream_length_exceeds tile_w tile_w tile_h Hw Hh (le_n _))
    as Hlong.
  set (sl := stream_length tile_w tile_w tile_h) in *.
  split_and!.
  - by rewrite Hperm, ptr_range_length.
  - rewrite Hperm. apply ptr_range_NoDup.
  - intros p. rewrite Hperm, elem_of_ptr_range. simpl. split.
    + intros [Hreg Hoff]. split; [done|]. lia.
    + intros [Hreg Hoff]. split; [done|]. lia.
  - rewrite Hcur. unfold out_, padd. simpl. f_equal. lia.
  - nia.
  - unfold cursor_assertion. rewrite Hcur. unfold out_. split.
    + intros Heq. injection Heq as Heq. nia.
    + intros ->. f_equal. lia.
Qed.


(** C4, as the code has it: the step of the driver for one level and one
    channel stores, in front of what the stream holds, the step [q] that it
    passed to the lift, then the bottom-left quadrant (LH), then the
    top-right one (HL), then the bottom-right one (HH) of the plane, each
    column by column. *)
Theorem driver_record_layout (k : kernel) (lift cw chh tw th ch : nat)
    (st : state) (c : Z) :
  tw ≠ 1%nat → th ≠ 1%nat →
  let lp := plane tile_w tile_h planes_space ch in
  let cur := Ptr ROut (c - (Z.of_nat (tw * th) * 3 + 1)) in
  ∃ q16 st',
    f_to_int16 (quantization_q s ch lift) = Some q16
    ∧ lift_channel TileTotalLifts s tile_w tile_h planes_space
        k lift cw chh tw th ch st (Ptr ROut c) = Some (st', cur)
    ∧ load (st_mem st') <$> ptr_range cur (tw * th * 3 + 1)
      = q16 :: bottom_left (st_mem st') lp tw th
            ++ top_right (st_mem st') lp tw th
            ++ bottom_right (st_mem st') lp tw th.
Proof.
  intros Htw Hth lp cur. unfold lift_channel.
  destruct (quantization_q_converts s ch lift (steps_in_range ch))
    as (q16 & Hq & Hq16).
  exists q16. rewrite Hq. cbn [mbind option_bind].
  assert (Hq0 : q16 ≠ 0) by lia.
  match goal with |- context [if ?b then ?x else ?y] =>
    assert (is_Some (if b then x else y)) as [m ->]
      by (destruct b; apply sLift2d_is_Some; done)
  end.
  cbn [mbind option_bind]. fold lp.
  destruct (emit_record_log q16 tw th lp c (State m (st_log st)))
    as (st' & Hrec & _).
  destruct (emit_record_content q16 tw th lp c (State m (st_log st)))
    as [Hcontent _]; [done|].
  rewrite Hrec in Hcontent |- *. exists st'. done.
Qed.

End DriverFacts.

(** ** The driver on concrete tiles *)

(** C4, as it is stated, fails: on the plane of [sample_planes] with Haar
    the top-right quadrant after the lift is [-3, -1, -1, 1] and the
    bottom-left one is [5, -4, 1, 4]; the record is the head 1, then the
    bottom-left quadrant, then the top-right one. *)
Lemma record_order_is_not_HL_LH_HH :
  record_view
    (lift_channel TileTotalLifts_spec lossless_settings 4 4 0
       Haar 0 4 4 2 2 0 (State sample_planes []) (Ptr ROut 17))
    (plane 4 4 0 0) 2 2
  = Some (Ptr ROut 4, [1; 5; -4; 1; 4; -3; -1; -1; 1; -4; 2; -4; 2],
          [-3; -1; -1; 1], [5; -4; 1; 4], [-4; 2; -4; 2])
  ∧ [1; 5; -4; 1; 4; -3; -1; -1; 1; -4; 2; -4; 2]
    ≠ 1 :: [-3; -1; -1; 1] ++ [5; -4; 1; 4] ++ [-4; 2; -4; 2].
Proof. split; [by vm_compute|done]. Qed.

Lemma driver_record_layout_witness :
  let lp := plane 4 4 0 0 in
  let cur := Ptr ROut (17 - (Z.of_nat (2 * 2) * 3 + 1)) in
  ∃ q16 st',
    f_to_int16
      (quantization_q lossless_settings
         0 0) = Some q16
    ∧ lift_channel TileTotalLifts_spec
        lossless_settings 4 4 0
        Haar 0 4 4 2 2 0 (State sample_planes []) (Ptr ROut 17)
      = Some (st', cur)
    ∧ load (st_mem st') <$> ptr_range cur (2 * 2 * 3 + 1)
      = q16 :: bottom_left (st_mem st') lp 2 2
            ++ top_right (st_mem st') lp 2 2
            ++ bottom_right (st_mem st') lp 2 2.
Proof.
  apply (driver_record_layout TileTotalLifts_spec
           lossless_settings 4 4 0).
  - intros ch. reflexivity.
  - lia.
  - lia.
Defined.

(** C1, as it is stated, fails: on a tile of 4 by 4 samples with 2
    channels the driver stores 2 * (1 + 3 * 4 + 4) = 34 coefficients, not
    4 * 4 * 2 = 32, and with an output of 32 cells the cursor ends 2 cells
    in front of [out]. *)
Lemma dwt_stream_is_longer_than_tile :
  driver_view
    (DwtTransform TileTotalLength_spec TileTotalLifts_spec lossless_settings
       4 4 2 9 (Some CDF53) sample_planes)
  = Some (Ptr ROut (-2), 1%nat, 2%nat, 2%nat, 34%nat)
  ∧ 34%nat ≠ (4 * 4 * 2)%nat
  ∧ Ptr ROut (-2) ≠ out_.
Proof. split_and!; [by vm_compute|done|done]. Qed.

Lemma dwt_stream_accounting_witness :
  ∃ r,
    DwtTransform TileTotalLength_spec TileTotalLifts_spec lossless_settings
      4 4 2 9 (Some CDF53) sample_planes = Some r
    ∧ let n := (2 * stream_length 4 4 4)%nat in
      let start := Z.of_nat (TileTotalLength_spec 4 4 * 2) in
      length (st_log (r_state r)) = n
      ∧ NoDup (st_log (r_state r))
      ∧ (∀ p, p ∈ st_log (r_state r) ↔
              p_reg p = ROut ∧ start - Z.of_nat n ≤ p_off p < start)
      ∧ r_cursor r = padd out_ (start - Z.of_nat n)
      ∧ (4 * 4 * 2 < n)%nat
      ∧ (cursor_assertion r ↔ TileTotalLength_spec 4 4 = stream_length 4 4 4).
Proof.
  apply dwt_stream_accounting.
  - intros ch. reflexivity.
  - lia.
  - lia.
  - lia.
Defined.

(** C3, as the code has it: on a tile of 5 by 5 samples with one channel
    the loop over the levels takes two turns (5 -> 3 -> 2); the driver
    stores the record of level 0 (three quadrants of 3 by 3 and the head)
    at the end of the stream, the record of level 1 (three quadrants of 2
    by 2 and the head) in front of it, and the lowpass of 2 by 2 in front
    of both: 28 + 13 + 4 = 45 coefficients. *)
Theorem dwt_5x5_stream {F : Type} `{FloatLaws F}
    (TileTotalLength TileTotalLifts : nat → nat → nat) (s : AkoSettings F)
    (planes_space : nat) (k : kernel) (m : mem) :
  (∀ ch, f_lt (quantization s ch) (f_of_int 32768) = true) →
  let L := Z.of_nat (TileTotalLength 5%nat 5%nat * 1) in
  ∃ r,
    DwtTransform TileTotalLength TileTotalLifts s 5 5 1 planes_space
      (Some k) m = Some r
    ∧ r_lift r = 2%nat ∧ r_target_w r = 2%nat ∧ r_target_h r = 2%nat
    ∧ st_log (r_state r)
      = blocks_cells [(L - 27, 9%nat); (L - 18, 9%nat); (L - 9, 9%nat);
                      (L - 28, 1%nat);
                      (L - 40, 4%nat); (L - 36, 4%nat); (L - 32, 4%nat);
                      (L - 41, 1%nat);
                      (L - 45, 4%nat)]
    ∧ length (st_log (r_state r)) = 45%nat
    ∧ r_cursor r = Ptr ROut (L - 45).
Proof.
  intros Hs L.
  destruct (DwtTransform_log TileTotalLength TileTotalLifts s 5 5 1
              planes_space Hs k m) as (r & Hr & Hcur & Hlog & Hlift & Hlast).
  fold L in Hcur, Hlog. exists r.
  assert (Hblocks :
    stream_blocks 5 1 5 5 L
    = [(L - 27, 9%nat); (L - 18, 9%nat); (L - 9, 9%nat); (L - 28, 1%nat);
       (L - 40, 4%nat); (L - 36, 4%nat); (L - 32, 4%nat); (L - 41, 1%nat);
       (L - 45, 4%nat)]).
  { cbn [stream_blocks channels_blocks lowpass_blocks record_blocks app
         Nat.ltb Nat.leb andb].
    change (half_up 5) with 3%nat. change (half_up 3) with 2%nat.
    cbn [stream_blocks channels_blocks lowpass_blocks record_blocks app
         Nat.ltb Nat.leb andb].
    repeat (f_equal; try lia). }
  rewrite Hblocks in Hlog.
  injection Hlast as Hw Hh.
  split; [exact Hr|]. split; [exact Hlift|].
  split; [exact Hw|]. split; [exact Hh|]. split; [exact Hlog|]. split.
  - rewrite Hlog. reflexivity.
  - rewrite Hcur. reflexivity.
Qed.

Lemma dwt_5x5_stream_witness :
  let L := Z.of_nat (TileTotalLength_spec 5 5 * 1)%nat in
  ∃ r,
    DwtTransform TileTotalLength_spec TileTotalLifts_spec lossless_settings
      5 5 1 11 (Some DD97) sample_planes = Some r
    ∧ r_lift r = 2%nat ∧ r_target_w r = 2%nat ∧ r_target_h r = 2%nat
    ∧ st_log (r_state r)
      = blocks_cells [(L - 27, 9%nat); (L - 18, 9%nat); (L - 9, 9%nat);
                      (L - 28, 1%nat);
                      (L - 40, 4%nat); (L - 36, 4%nat); (L - 32, 4%nat);
                      (L - 41, 1%nat);
                      (L - 45, 4%nat)]
    ∧ length (st_log (r_state r)) = 45%nat
    ∧ r_cursor r = Ptr ROut (L - 45).
Proof.
  apply dwt_5x5_stream.
  intros ch. reflexivity.
Defined.

(** C3, as it is stated, fails: on a tile of 5 by 5 samples with one
    channel the driver ends with [lift = 2], not 1, and stores 45
    coefficients, not 25. *)
Lemma dwt_5x5_is_not_one_level :
  driver_view
    (DwtTransform TileTotalLength_spec TileTotalLifts_spec lossless_settings
       5 5 1 11 (Some Haar) sample_planes)
  = Some (Ptr ROut (-20), 2%nat, 2%nat, 2%nat, 45%nat)
  ∧ 2%nat ≠ 1%nat
  ∧ 45%nat ≠ 25%nat.
Proof. split_and!; [by vm_compute|done|done]. Qed.

(** ** The step passed to the kernel *)

(** C10, as it is stated, fails: no clamp bounds the step from above or
    turns NaN away.  With the user step 65536 or NaN the [float] that the
    driver converts is 65536 or NaN, its conversion to [int16_t] is
    undefined, and so is the call. *)
Lemma quantization_step_conversion_undefined :
  quantization_q (uniform_settings (f_of_int 65536 : xfloat) (f_of_int 0)) 0 0
  = XFin (inject_Z 65536)
  ∧ f_to_int16
      (quantization_q (uniform_settings (f_of_int 65536 : xfloat)
                         (f_of_int 0)) 0 0) = None
  ∧ quantization_q (uniform_settings XNaN (f_of_int 0)) 0 0 = XNaN
  ∧ f_to_int16 (quantization_q (uniform_settings XNaN (f_of_int 0)) 0 0)
    = None
  ∧ DwtTransform TileTotalLength_spec TileTotalLifts_spec
      (uniform_settings (f_of_int 65536 : xfloat) (f_of_int 0))
      4 4 1 9 (Some Haar) sample_planes = None.
Proof. split_and!; by vm_compute. Qed.

(** ** The tile loop of the decoder *)

Lemma mixed_radix_inj (a b a' b' n : nat) :
  (b < n)%nat → (b' < n)%nat → (a * n + b = a' * n + b')%nat →
  a = a' ∧ b = b'.
Proof.
  intros Hb Hb' Heq.
  assert (a = a') as ->; [|lia].
  destruct (Nat.lt_trichotomy a a') as [Hlt|[->|Hlt]]; [|done|]; nia.
Qed.

Lemma byte_offset_inj w chs r c ch r' c' ch' :
  (c < w)%nat → (c' < w)%nat → (ch < chs)%nat → (ch' < chs)%nat →
  byte_offset w chs r c ch = byte_offset w chs r' c' ch' →
  r = r' ∧ c = c' ∧ ch = ch'.
Proof.
  unfold byte_offset. intros Hc Hc' Hch Hch' Heq.
  apply mixed_radix_inj in Heq as [Heq ->]; [|done..].
  apply mixed_radix_inj in Heq as [-> ->]; done.
Qed.

Lemma elem_of_tile_samples (tile_size chs r c ch : nat) :
  (r, c, ch) ∈ (r ← seq 0 tile_size; c ← seq 0 tile_size;
                ch ← seq 0 chs; [(r, c, ch)])
  ↔ (r < tile_size)%nat ∧ (c < tile_size)%nat ∧ (ch < chs)%nat.
Proof.
  rewrite list_elem_of_bind. split.
  - intros (r' & Hin & Hr). apply elem_of_seq in Hr.
    apply list_elem_of_bind in Hin as (c' & Hin & Hc).
    apply elem_of_seq in Hc.
    apply list_elem_of_bind in Hin as (ch' & Hin & Hch).
    apply elem_of_seq in Hch.
    apply list_elem_of_singleton in Hin. injection Hin as -> -> ->. lia.
  - intros (Hr & Hc & Hch). exists r. split; [|apply elem_of_seq; lia].
    apply list_elem_of_bind. exists c. split; [|apply elem_of_seq; lia].
    apply list_elem_of_bind. exists ch. split; [|apply elem_of_seq; lia].
    by apply list_elem_of_singleton.
Qed.

(** The colour transform of a tile changes no byte outside the tile. *)
Lemma FormatToInterlacedU8RGB_frame pixel_of tile_size chs w tile dst image a :
  (∀ r c ch, (r < tile_size)%nat → (c < tile_size)%nat → (ch < chs)%nat →
             (dst + (r * w + c) * chs + ch)%nat ≠ a) →
  FormatToInterlacedU8RGB pixel_of tile_size chs w tile dst image a = image a.
Proof.
  intros Hne. unfold FormatToInterlacedU8RGB.
  assert (Hl : ∀ r c ch,
            (r, c, ch) ∈ (r ← seq 0 tile_size; c ← seq 0 tile_size;
                          ch ← seq 0 chs; [(r, c, ch)]) →
            (dst + (r * w + c) * chs + ch)%nat ≠ a).
  { intros r c ch Hin. apply elem_of_tile_samples in Hin. apply Hne; lia. }
  clear Hne. revert image Hl.
  generalize (r ← seq 0 tile_size; c ← seq 0 tile_size;
              ch ← seq 0 chs; [(r, c, ch)]).
  intros l. induction l as [|[[r c] ch] l IH]; intros image Hl; [done|].
  simpl. rewrite IH.
  - apply fn_lookup_insert_ne. apply Hl. left.
  - intros r' c' ch' Hin. apply Hl. by right.
Qed.

(** The colour transform gives every byte of the tile its sample. *)
Lemma FormatToInterlacedU8RGB_content pixel_of tile_size chs w tile dst image
    r c ch :
  (tile_size ≤ w)%nat →
  (r < tile_size)%nat → (c < tile_size)%nat → (ch < chs)%nat →
  FormatToInterlacedU8RGB pixel_of tile_size chs w tile dst image
    (dst + (r * w + c) * chs + ch)%nat
  = pixel_of tile r c ch.
Proof.
  intros Hw Hr Hc Hch. unfold FormatToInterlacedU8RGB.
  assert (Hin : (r, c, ch) ∈ (r ← seq 0 tile_size; c ← seq 0 tile_size;
                              ch ← seq 0 chs; [(r, c, ch)]))
    by (apply elem_of_tile_samples; lia).
  assert (Hinj : ∀ r' c' ch',
            (r', c', ch') ∈ (r ← seq 0 tile_size; c ← seq 0 tile_size;
                             ch ← seq 0 chs; [(r, c, ch)]) →
            (dst + (r' * w + c') * chs + ch')%nat
            = (dst + (r * w + c) * chs + ch)%nat →
            (r', c', ch') = (r, c, ch)).
  { intros r' c' ch' Hin' Heq. apply elem_of_tile_samples in Hin'.
    assert (byte_offset w chs r' c' ch' = byte_offset w chs r c ch) as Hb
      by (unfold byte_offset; lia).
    apply byte_offset_inj in Hb as (-> & -> & ->); [done|lia..]. }
  revert image Hin Hinj.
  generalize (r ← seq 0 tile_size; c ← seq 0 tile_size;
              ch ← seq 0 chs; [(r, c, ch)]).
  intros l. induction l as [|[[r' c'] ch'] l IH]; intros image Hin Hinj.
  - by apply not_elem_of_nil in Hin.
  - cbn [foldl]. destruct (decide ((r, c, ch) ∈ l)) as [Hl|Hl].
    + apply IH; [done|]. intros r2 c2 ch2 Hin2. apply Hinj. by right.
    + apply elem_of_cons in Hin as [Heq|Hin]; [|done].
      injection Heq as <- <- <-.
      assert (Hframe : ∀ (l' : list (nat * nat * nat)) (img : nat → Z),
                (∀ r2 c2 ch2, (r2, c2, ch2) ∈ l' →
                   (dst + (r2 * w + c2) * chs + ch2)%nat
                   ≠ (dst + (r * w + c) * chs + ch)%nat) →
                foldl (λ (img : nat → Z) '(r, c, ch),
                         <[(dst + (r * w + c) * chs + ch)%nat
                           := pixel_of tile r c ch]> img) img l'
                  (dst + (r * w + c) * chs + ch)%nat
                = img (dst + (r * w + c) * chs + ch)%nat).
      { intros l'. induction l' as [|[[r2 c2] ch2] l' IH']; intros img Hne;
          [done|].
        cbn [foldl]. rewrite IH'.
        - apply fn_lookup_insert_ne. apply Hne. left.
        - intros r3 c3 ch3 Hin3. apply Hne. by right. }
      rewrite Hframe; [apply fn_lookup_insert|].
      intros r2 c2 ch2 Hin2 Heq. apply Hl.
      rewrite <- (Hinj r2 c2 ch2); [done|by right|done].
Qed.

Lemma tiles_across_spec side tile_size x :
  (0 < tile_size)%nat →
  (side ≤ (x + 1) * tile_size)%nat ↔ (tiles_across side tile_size ≤ x + 1)%nat.
Proof.
  intros Hts. unfold tiles_across.
  pose proof (Nat.div_mod_eq side tile_size) as Hdm.
  pose proof (Nat.mod_upper_bound side tile_size ltac:(lia)) as Hmod.
  set (a := (side / tile_size)%nat) in *.
  set (b := (side `mod` tile_size)%nat) in *.
  destruct (Nat.eqb_spec b 0) as [Hb|Hb]; split; intros Hle; nia.
Qed.

Lemma next_cell gw i :
  (0 < gw)%nat →
  if decide (i `mod` gw + 1 = gw)%nat
  then (S i `mod` gw = 0 ∧ S i / gw = i / gw + 1)%nat
  else (S i `mod` gw = i `mod` gw + 1 ∧ S i / gw = i / gw)%nat.
Proof.
  intros Hgw.
  pose proof (Nat.div_mod_eq i gw) as Hdm.
  pose proof (Nat.mod_upper_bound i gw ltac:(lia)) as Hmod.
  destruct (decide (i `mod` gw + 1 = gw)%nat) as [Hlast|Hin].
  - assert (S i = gw * (i / gw + 1) + 0)%nat as Heq by nia.
    split.
    + symmetry. eapply Nat.mod_unique; [|exact Heq]. lia.
    + symmetry. eapply Nat.div_unique; [|exact Heq]. lia.
  - assert (S i = gw * (i / gw) + (i `mod` gw + 1))%nat as Heq by nia.
    split.
    + symmetry. eapply Nat.mod_unique; [|exact Heq]. lia.
    + symmetry. eapply Nat.div_unique; [|exact Heq]. lia.
Qed.

Section DecodeFacts.
Variables width height channels tiles_size : nat.
Variable payload : nat → Z.
Variable pixel_of : list Z → nat → nat → nat → Z.

Hypothesis tiles_size_pos : (0 < tiles_size)%nat.

Lemma sTilesNo_grid :
  sTilesNo width height tiles_size
  = (tiles_across width tiles_size * tiles_across height tiles_size)%nat.
Proof.
  unfold sTilesNo, tiles_across.
  by destruct (_ =? 0)%nat, (_ =? 0)%nat.
Qed.

Lemma tiles_across_pos i :
  (i < sTilesNo width height tiles_size)%nat →
  (0 < tiles_across width tiles_size)%nat.
Proof. rewrite sTilesNo_grid. nia. Qed.

Lemma full_before_S i :
  full_before width height tiles_size (S i)
  = (full_before width height tiles_size i
     + if tile_is_partial width height tiles_size
            (cell_col width tiles_size i) (cell_row width tiles_size i)
       then 0 else 1)%nat.
Proof.
  unfold full_before. rewrite seq_S, filter_app, length_app. simpl.
  rewrite filter_cons, filter_nil.
  destruct (tile_is_partial _ _ _ _ _); simpl; lia.
Qed.

Lemma decoder_after_S i :
  decoder_after width height channels tiles_size payload pixel_of (S i)
  = decode_tile width height channels tiles_size payload pixel_of
      (decoder_after width height channels tiles_size payload pixel_of i).
Proof. done. Qed.

(** Where the loop stands after [i] turns, and what it has consumed. *)
Lemma decoder_after_position i :
  (i ≤ sTilesNo width height tiles_size)%nat →
  let d := decoder_after width height channels tiles_size payload pixel_of i in
  d_col d = cell_col width tiles_size i
  ∧ d_row d = cell_row width tiles_size i
  ∧ d_blob d
    = (tile_memory_size channels tiles_size
       * full_before width height tiles_size i)%nat.
Proof.
  induction i as [|i IH]; intros Hi d.
  - unfold d, decoder_after, cell_col, cell_row, full_before. simpl.
    rewrite Nat.Div0.mod_0_l, Nat.Div0.div_0_l. simpl. lia.
  - destruct IH as (Hcol & Hrow & Hblob); [lia|].
    pose proof (tiles_across_pos i ltac:(lia)) as Hgw.
    unfold d. rewrite decoder_after_S.
    set (d0 := decoder_after width height channels tiles_size payload
                 pixel_of i) in *.
    rewrite full_before_S. unfold decode_tile.
    rewrite Hcol, Hrow.
    pose proof (next_cell (tiles_across width tiles_size) i Hgw) as Hnext.
    pose proof (tiles_across_spec width tiles_size
                  (i `mod` tiles_across width tiles_size) tiles_size_pos)
      as Hside.
    assert (Hwrap :
      (width <=? cell_col width tiles_size i + tiles_size)%nat
      = bool_decide (i `mod` tiles_across width tiles_size + 1
                     = tiles_across width tiles_size)%nat).
    { pose proof (Nat.mod_upper_bound i (tiles_across width tiles_size)
                    ltac:(lia)) as Hmod.
      unfold cell_col.
      destruct (Nat.leb_spec width
                  (i `mod` tiles_across width tiles_size * tiles_size
                   + tiles_size)) as [Hle|Hgt].
      - symmetry. apply bool_decide_eq_true. apply Nat.le_antisymm; [lia|].
        apply Hside. lia.
      - symmetry. apply bool_decide_eq_false. intros Heq.
        assert (width ≤ (i `mod` tiles_across width tiles_size + 1)
                        * tiles_size)%nat by (apply Hside; lia).
        lia. }
    destruct (tile_is_partial width height tiles_size
                (cell_col width tiles_size i) (cell_row width tiles_size i));
      cbn [d_col d_row d_blob d_tile d_image]; rewrite ?Hcol, ?Hrow, Hwrap;
      destruct (decide (i `mod` tiles_across width tiles_size + 1
                        = tiles_across width tiles_size)%nat) as [Hl|Hl];
      [rewrite bool_decide_eq_true_2 by done
      |rewrite bool_decide_eq_false_2 by done
      |rewrite bool_decide_eq_true_2 by done
      |rewrite bool_decide_eq_false_2 by done];
      cbn [d_col d_row d_blob d_tile d_image];
      unfold cell_col, cell_row in *;
      destruct Hnext as [Hm Hd]; rewrite Hm, Hd, ?Hblob; lia.
Qed.

Lemma decode_tile_image d :
  d_image (decode_tile width height channels tiles_size payload pixel_of d)
  = if tile_is_partial width height tiles_size (d_col d) (d_row d)
    then d_image d
    else FormatToInterlacedU8RGB pixel_of tiles_size channels width
           (payload <$> seq (d_blob d) (tile_memory_size channels tiles_size))
           ((width * d_row d + d_col d) * channels)%nat (d_image d).
Proof.
  unfold decode_tile.
  destruct (tile_is_partial width height tiles_size (d_col d) (d_row d));
    cbn [d_col d_row d_image]; by destruct (_ <=? _)%nat.
Qed.

Lemma cell_origin x c :
  (c < tiles_size)%nat →
  ((x * tiles_size + c) / tiles_size * tiles_size = x * tiles_size)%nat.
Proof.
  intros Hc. rewrite Nat.div_add_l by lia.
  rewrite Nat.div_small by done. lia.
Qed.

(** No turn of the loop writes a byte of a pixel whose cell of the grid
    holds a partial tile. *)
Lemma decoder_after_partial_untouched i R C ch :
  (i ≤ sTilesNo width height tiles_size)%nat →
  (R < height)%nat → (C < width)%nat → (ch < channels)%nat →
  tile_is_partial width height tiles_size
    (C / tiles_size * tiles_size) (R / tiles_size * tiles_size) = true →
  d_image (decoder_after width height channels tiles_size payload pixel_of i)
    (byte_offset width channels R C ch) = 0.
Proof.
  intros Hi HR HC Hch Hpart. induction i as [|i IH]; [done|].
  rewrite decoder_after_S.
  destruct (decoder_after_position i ltac:(lia)) as (Hcol & Hrow & _).
  set (d := decoder_after width height channels tiles_size payload
              pixel_of i) in *.
  rewrite decode_tile_image.
  destruct (tile_is_partial width height tiles_size (d_col d) (d_row d))
    eqn:Hd; [apply IH; lia|].
  rewrite FormatToInterlacedU8RGB_frame; [apply IH; lia|].
  intros r c ch' Hr Hc Hch' Heq.
  unfold tile_is_partial in Hd. apply orb_false_iff in Hd as [Hw Hh].
  apply Nat.ltb_ge in Hw, Hh.
  assert (Hoff : byte_offset width channels (d_row d + r) (d_col d + c) ch'
                 = byte_offset width channels R C ch).
  { rewrite <- Heq. unfold byte_offset. nia. }
  apply byte_offset_inj in Hoff as (HRr & HCc & _); [|lia..].
  subst R C. rewrite Hcol, Hrow in Hpart. unfold cell_col, cell_row in Hpart.
  rewrite !cell_origin in Hpart by done.
  fold (cell_col width tiles_size i) (cell_row width tiles_size i) in Hpart.
  rewrite <- Hcol, <- Hrow in Hpart.
  unfold tile_is_partial in Hpart. apply orb_true_iff in Hpart.
  rewrite !Nat.ltb_lt in Hpart. lia.
Qed.

Lemma cell_inj i j :
  (0 < tiles_across width tiles_size)%nat →
  cell_col width tiles_size i = cell_col width tiles_size j →
  cell_row width tiles_size i = cell_row width tiles_size j →
  i = j.
Proof.
  unfold cell_col, cell_row. intros Hgw Hc Hr.
  pose proof (Nat.div_mod_eq i (tiles_across width tiles_size)).
  pose proof (Nat.div_mod_eq j (tiles_across width tiles_size)).
  assert (i `mod` tiles_across width tiles_size
          = j `mod` tiles_across width tiles_size)%nat by nia.
  assert (i / tiles_across width tiles_size
          = j / tiles_across width tiles_size)%nat by nia.
  congruence.
Qed.

Lemma same_cell x y r r' :
  (r < tiles_size)%nat → (r' < tiles_size)%nat →
  (x * tiles_size + r = y * tiles_size + r')%nat →
  (x * tiles_size = y * tiles_size)%nat.
Proof.
  intros Hr Hr' Heq.
  apply mixed_radix_inj in Heq as [-> _]; done.
Qed.

(** Every byte of a whole tile holds, from the turn of its cell on, the
    sample that the colour transform makes of the chunk of the payload
    that follows the chunks of the whole tiles before it. *)
Lemma decoder_after_whole_tiles i j r c ch :
  (i ≤ sTilesNo width height tiles_size)%nat → (j < i)%nat →
  tile_is_partial width height tiles_size
    (cell_col width tiles_size j) (cell_row width tiles_size j) = false →
  (r < tiles_size)%nat → (c < tiles_size)%nat → (ch < channels)%nat →
  d_image (decoder_after width height channels tiles_size payload pixel_of i)
    (byte_offset width channels
       (cell_row width tiles_size j + r) (cell_col width tiles_size j + c) ch)
  = pixel_of
      (payload <$> seq (tile_memory_size channels tiles_size
                        * full_before width height tiles_size j)
                       (tile_memory_size channels tiles_size))
      r c ch.
Proof.
  intros Hi Hj Hfull Hr Hc Hch. induction i as [|i IH]; [lia|].
  rewrite decoder_after_S.
  destruct (decoder_after_position i ltac:(lia)) as (Hcol & Hrow & Hblob).
  pose proof (tiles_across_pos i ltac:(lia)) as Hgw.
  set (d := decoder_after width height channels tiles_size payload
              pixel_of i) in *.
  rewrite decode_tile_image.
  assert (Hjw : (cell_col width tiles_size j + tiles_size ≤ width)%nat).
  { unfold tile_is_partial in Hfull.
    apply orb_false_iff in Hfull as [Hw _]. by apply Nat.ltb_ge in Hw. }
  destruct (decide (j = i)) as [->|Hne].
  - rewrite Hcol, Hrow, Hfull, Hblob.
    replace (byte_offset width channels (cell_row width tiles_size i + r)
               (cell_col width tiles_size i + c) ch)
      with ((width * cell_row width tiles_size i
             + cell_col width tiles_size i) * channels
            + (r * width + c) * channels + ch)%nat
      by (unfold byte_offset; nia).
    apply FormatToInterlacedU8RGB_content; lia.
  - destruct (tile_is_partial width height tiles_size (d_col d) (d_row d))
      eqn:Hd; [apply IH; lia|].
    rewrite FormatToInterlacedU8RGB_frame; [apply IH; lia|].
    intros r' c' ch' Hr' Hc' Hch' Heq.
    unfold tile_is_partial in Hd. apply orb_false_iff in Hd as [Hw _].
    apply Nat.ltb_ge in Hw.
    assert (Hoff : byte_offset width channels (d_row d + r') (d_col d + c') ch'
                   = byte_offset width channels
                       (cell_row width tiles_size j + r)
                       (cell_col width tiles_size j + c) ch).
    { rewrite <- Heq. unfold byte_offset. nia. }
    apply byte_offset_inj in Hoff as (HRr & HCc & _); [|lia..].
    rewrite Hcol in HCc. rewrite Hrow in HRr.
    apply Hne. symmetry. apply cell_inj; [done|..].
    + unfold cell_col in *. by apply (same_cell _ _ c' c).
    + unfold cell_row in *. by apply (same_cell _ _ r' r).
Qed.

(** C9: the turn of the loop for a cell whose tile would pass the width
    or the height of the image consumes nothing of the payload and leaves
    the pixel buffer and the tile memory as they are; the turn for a whole
    tile takes the next [tile_memory_size] bytes of the payload, those that
    follow the bytes of the whole tiles before it, and hands them to the
    colour transform at the offset of the tile; where the loop ends no
    byte of a pixel of a partial cell has been written, and the bytes of
    every whole tile are the samples of its own chunk. *)
Theorem partial_tiles_are_skipped (i : nat) :
  (i < sTilesNo width height tiles_size)%nat →
  let d := decoder_after width height channels tiles_size payload pixel_of i in
  let d' := decode_tile width height channels tiles_size payload pixel_of d in
  let size := tile_memory_size channels tiles_size in
  (d_col d = cell_col width tiles_size i
   ∧ d_row d = cell_row width tiles_size i
   ∧ d_blob d = (size * full_before width height tiles_size i)%nat)
  ∧ (tile_is_partial width height tiles_size (d_col d) (d_row d) = true →
     d_blob d' = d_blob d ∧ d_tile d' = d_tile d ∧ d_image d' = d_image d)
  ∧ (tile_is_partial width height tiles_size (d_col d) (d_row d) = false →
     d_blob d' = (d_blob d + size)%nat
     ∧ d_tile d' = payload <$> seq (d_blob d) size
     ∧ d_image d'
       = FormatToInterlacedU8RGB pixel_of tiles_size channels width
           (d_tile d') ((width * d_row d + d_col d) * channels)%nat
           (d_image d))
  ∧ (∀ R C ch,
       (R < height)%nat → (C < width)%nat → (ch < channels)%nat →
       tile_is_partial width height tiles_size
         (C / tiles_size * tiles_size) (R / tiles_size * tiles_size) = true →
       d_image (AkoDecode width height channels tiles_size payload pixel_of)
         (byte_offset width channels R C ch) = 0)
  ∧ (∀ j r c ch,
       (j < sTilesNo width height tiles_size)%nat →
       tile_is_partial width height tiles_size
         (cell_col width tiles_size j) (cell_row width tiles_size j) = false →
       (r < tiles_size)%nat → (c < tiles_size)%nat → (ch < channels)%nat →
       d_image (AkoDecode width height channels tiles_size payload pixel_of)
         (byte_offset width channels (cell_row width tiles_size j + r)
            (cell_col width tiles_size j + c) ch)
       = pixel_of
           (payload <$> seq (size * full_before width height tiles_size j)
                            size)
           r c ch).
Proof.
  intros Hi d d' size. split; [|split; [|split; [|split]]].
  - apply decoder_after_position. lia.
  - intros Hpart. unfold d', decode_tile. rewrite Hpart.
    by destruct (_ <=? _)%nat.
  - intros Hfull. unfold d', decode_tile. rewrite Hfull.
    cbn [d_col d_row d_blob d_tile d_image].
    by destruct (_ <=? _)%nat.
  - intros R C ch HR HC Hch Hpart.
    apply (decoder_after_partial_untouched
             (sTilesNo width height tiles_size)); auto.
  - intros j r c ch Hj Hfull Hr Hc Hch.
    apply (decoder_after_whole_tiles
             (sTilesNo width height tiles_size)); auto.
Qed.

End DecodeFacts.

(** An image of 5 by 4 pixels in tiles of side 2: the cells 2 and 5 of the
    grid of 3 by 2 hold partial tiles. *)
Lemma partial_tiles_are_skipped_witness :
  let d := decoder_after 5 4 1 2 sample_payload sample_pixel_of 2 in
  let d' := decode_tile 5 4 1 2 sample_payload sample_pixel_of d in
  let size := tile_memory_size 1 2 in
  (d_col d = cell_col 5 2 2
   ∧ d_row d = cell_row 5 2 2
   ∧ d_blob d = (size * full_before 5 4 2 2)%nat)
  ∧ (tile_is_partial 5 4 2 (d_col d) (d_row d) = true →
     d_blob d' = d_blob d ∧ d_tile d' = d_tile d ∧ d_image d' = d_image d)
  ∧ (tile_is_partial 5 4 2 (d_col d) (d_row d) = false →
     d_blob d' = (d_blob d + size)%nat
     ∧ d_tile d' = sample_payload <$> seq (d_blob d) size
     ∧ d_image d'
       = FormatToInterlacedU8RGB sample_pixel_of 2 1 5
           (d_tile d') ((5 * d_row d + d_col d) * 1)%nat (d_image d))
  ∧ (∀ R C ch,
       (R < 4)%nat → (C < 5)%nat → (ch < 1)%nat →
       tile_is_partial 5 4 2 (C / 2 * 2) (R / 2 * 2) = true →
       d_image (AkoDecode 5 4 1 2 sample_payload sample_pixel_of)
         (byte_offset 5 1 R C ch) = 0)
  ∧ (∀ j r c ch,
       (j < sTilesNo 5 4 2)%nat →
       tile_is_partial 5 4 2 (cell_col 5 2 j) (cell_row 5 2 j) = false →
       (r < 2)%nat → (c < 2)%nat → (ch < 1)%nat →
       d_image (AkoDecode 5 4 1 2 sample_payload sample_pixel_of)
         (byte_offset 5 1 (cell_row 5 2 j + r) (cell_col 5 2 j + c) ch)
       = sample_pixel_of
           (sample_payload <$> seq (size * full_before 5 4 2 j) size)
           r c ch).
Proof.
  apply partial_tiles_are_skipped.
  - lia.
  - vm_compute. lia.
Defined.

(** ** The kernel on its own *)

Lemma mapM_ext_in {A B} (f g : A → option B) (l : list A) :
  (∀ x, x ∈ l → f x = g x) → mapM f l = mapM g l.
Proof.
  intros Hfg. induction l as [|x l IH]; [done|].
  cbn [mapM]. rewrite (Hfg x) by left.
  rewrite IH; [done|]. intros y Hy. apply Hfg. by right.
Qed.

Lemma mapM_seq_ext {A} (f g : nat → option A) n :
  (∀ i, (i < n)%nat → f i = g i) → mapM f (seq 0 n) = mapM g (seq 0 n).
Proof.
  intros Hfg. apply mapM_ext_in. intros i Hi.
  apply elem_of_seq in Hi. apply Hfg. lia.
Qed.

Lemma mapM_seq_const {A} (f : nat → option A) n y :
  (∀ i, (i < n)%nat → f i = Some y) →
  mapM f (seq 0 n) = Some (replicate n y).
Proof.
  intros Hf. apply mapM_Some_2.
  apply Forall2_same_length_lookup_2.
  - by rewrite length_seq, length_replicate.
  - intros i x z Hx Hz. apply lookup_seq in Hx as [-> Hi].
    apply lookup_replicate in Hz as [-> _]. by apply Hf.
Qed.

Section KernelFacts.
Context {F : Type} `{FloatOps F}.

(** The reads of the highpass loop, on two inputs that agree on the
    [2 len] samples. *)
Lemma highpass_at_ext k len rd1 rd2 i :
  (∀ j, (j < 2 * len)%nat → rd1 j = rd2 j) →
  k = Haar ∨ len ≠ 1%nat → (i < len)%nat →
  highpass_at k len rd1 i = highpass_at k len rd2 i.
Proof.
  intros Hrd Hk Hi.
  assert (Hcdf : len ≠ 1%nat →
            cdf53_highpass len rd1 i = cdf53_highpass len rd2 i).
  { intros Hlen. unfold cdf53_highpass.
    destruct (Z.ltb_spec (Z.of_nat i) (size_sub len 2)) as [Hlt|Hge].
    - pose proof (size_sub_small len 2).
      rewrite !(Hrd (i * 2 + 1)%nat), !(Hrd (i * 2)%nat),
        !(Hrd (i * 2 + 2)%nat) by lia. done.
    - rewrite !(Hrd (i * 2 + 1)%nat), !(Hrd (i * 2)%nat) by lia. done. }
  destruct k; simpl.
  - rewrite !(Hrd (i * 2 + 1)%nat), !(Hrd (i * 2)%nat) by lia. done.
  - destruct Hk as [|Hk]; [done|]. by apply Hcdf.
  - destruct Hk as [|Hk]; [done|].
    destruct (Nat.ltb_spec 4 len) as [H4|H4]; [|by apply Hcdf].
    unfold dd97_highpass.
    rewrite (Hrd (i * 2)%nat), (Hrd (i * 2 + 1)%nat) by lia.
    assert ((if (1 <=? i)%nat then rd1 (i * 2 - 2)%nat else None)
            = (if (1 <=? i)%nat then rd2 (i * 2 - 2)%nat else None)) as Ha.
    { destruct (Nat.leb_spec 1 i); [apply Hrd; lia|done]. }
    assert ((if Z.of_nat i <=? size_sub len 2
             then rd1 (i * 2 + 2)%nat else None)
            = (if Z.of_nat i <=? size_sub len 2
               then rd2 (i * 2 + 2)%nat else None)) as Hb.
    { destruct (Z.leb_spec (Z.of_nat i) (size_sub len 2)); [|done].
      pose proof (size_sub_small len 2). apply Hrd; lia. }
    assert ((if Z.of_nat i <=? size_sub len 4
             then rd1 (i * 2 + 4)%nat else None)
            = (if Z.of_nat i <=? size_sub len 4
               then rd2 (i * 2 + 4)%nat else None)) as Hc.
    { destruct (Z.leb_spec (Z.of_nat i) (size_sub len 4)); [|done].
      pose proof (size_sub_small len 4). apply Hrd; lia. }
    destruct (rd2 (i * 2)%nat) as [e|]; [|done]. cbn [mbind option_bind].
    destruct (1 <=? i)%nat, (Z.of_nat i <=? size_sub len 2),
      (Z.of_nat i <=? size_sub len 4); rewrite ?Ha, ?Hb, ?Hc; done.
Qed.

Lemma lowpass_at_ext k len rd1 rd2 hp i :
  (∀ j, (j < 2 * len)%nat → rd1 j = rd2 j) → (i < len)%nat →
  lowpass_at k rd1 hp i = lowpass_at k rd2 hp i.
Proof.
  intros Hrd Hi. unfold lowpass_at.
  rewrite (Hrd (i * 2)%nat), (Hrd (i * 2 + 1)%nat) by lia. done.
Qed.

Lemma sLift1d_ext k q (g : F) len rd1 rd2 :
  k = Haar ∨ len ≠ 1%nat →
  (∀ j, (j < 2 * len)%nat → rd1 j = rd2 j) →
  sLift1d k q g len rd1 = sLift1d k q g len rd2.
Proof.
  intros Hk Hrd. unfold sLift1d.
  rewrite (mapM_seq_ext (highpass_at k len rd1) (highpass_at k len rd2))
    by (intros i Hi; by apply highpass_at_ext).
  destruct (mapM (highpass_at k len rd2) (seq 0 len)) as [hp|]; [|done].
  cbn [mbind option_bind].
  rewrite (mapM_seq_ext (lowpass_at k rd1 hp) (lowpass_at k rd2 hp))
    by (intros i Hi; by apply lowpass_at_ext with (len := len)).
  done.
Qed.

Lemma sLift1d_length k q (g : F) len rd out :
  sLift1d k q g len rd = Some out → length out = (2 * len)%nat.
Proof.
  intros Hout.
  apply sLift1d_Some in Hout as (hp & lp & hp' & Hhp & Hlp & Hd & ->).
  apply mapM_seq_length in Hhp, Hlp. apply length_mapM in Hd.
  rewrite length_app. lia.
Qed.

End KernelFacts.

Section KernelTheorems.
Context {F : Type} `{FloatOps F}.

(** X1: the kernel reads the [2 len] samples of its input and nothing
    behind them: two inputs that agree there have the same result. *)
Theorem sLift1d_reads_its_samples_only (k : kernel) (q : Z) (g : F)
    (len : nat) (rd1 rd2 : reader) :
  k = Haar ∨ len ≠ 1%nat →
  (∀ j, (j < 2 * len)%nat → rd1 j = rd2 j) →
  sLift1d k q g len rd1 = sLift1d k q g len rd2.
Proof. apply sLift1d_ext. Qed.

(** X2: at [len = 1] the bound [len - 2] of the highpass loop of CDF53
    (and of the fallback of 97DD) wraps, the loop reads [in[2]], and on an
    input of two samples the call has no result; Haar has one. *)
Theorem sLift1d_one_pair_reads_third_sample (q : Z) (g : F) (e o : Z) :
  sLift1d CDF53 q g 1 (list_reader [e; o]) = None
  ∧ sLift1d DD97 q g 1 (list_reader [e; o]) = None
  ∧ (q ≠ 0 → is_Some (sLift1d Haar q g 1 (list_reader [e; o]))).
Proof.
  split_and!; [done|done|].
  intros Hq. unfold sLift1d. cbn [seq mapM highpass_at lowpass_at].
  unfold list_reader. cbn. rewrite degrade_at_Some by done. by eexists.
Qed.

Lemma quot_double c : (c + c) `quot` 2 = c.
Proof. replace (c + c) with (c * 2) by lia. by apply Z.quot_mul. Qed.

(** The kernel on [2 len] samples [c]. *)
Lemma sLift1d_constant (k : kernel) (q : Z) (g : F) (len : nat) (c : Z) :
  int16 c → q ≠ 0 → k = Haar ∨ len ≠ 1%nat →
  sLift1d k q g len (list_reader (replicate (2 * len) c))
  = Some (replicate len c ++ replicate len 0).
Proof.
  intros Hc Hq Hk.
  set (rd := list_reader (replicate (2 * len) c)).
  assert (Hrd : ∀ j, (j < 2 * len)%nat → rd j = Some c).
  { intros j Hj. unfold rd, list_reader. by apply lookup_replicate_2. }
  assert (Hw0 : wrap16 (c - c) = 0) by (by rewrite Z.sub_diag).
  assert (Hhp : mapM (highpass_at k len rd) (seq 0 len)
                = Some (replicate len 0)).
  { apply mapM_seq_const. intros i Hi.
    assert (Hcdf : len ≠ 1%nat → cdf53_highpass len rd i = Some 0).
    { intros Hlen. unfold cdf53_highpass.
      destruct (Z.ltb_spec (Z.of_nat i) (size_sub len 2)) as [Hlt|Hge].
      - pose proof (size_sub_small len 2).
        rewrite !Hrd by lia. cbn [mbind option_bind].
        by rewrite quot_double, Hw0.
      - rewrite !Hrd by lia. cbn [mbind option_bind].
        by rewrite quot_double, Hw0. }
    destruct k; cbn [highpass_at].
    - rewrite !Hrd by lia. cbn [mbind option_bind].
      by rewrite quot_double, Hw0.
    - destruct Hk as [|Hk]; [done|]. by apply Hcdf.
    - destruct Hk as [|Hk]; [done|].
      destruct (Nat.ltb_spec 4 len) as [H4|H4]; [|by apply Hcdf].
      unfold dd97_highpass.
      rewrite (Hrd (i * 2)%nat), (Hrd (i * 2 + 1)%nat) by lia.
      cbn [mbind option_bind].
      assert (Hsome : ∀ (b : bool) (x : option Z),
                (b = true → x = Some c) →
                (if b then x else Some c) = Some c).
      { intros [] x Hx; auto. }
      rewrite (Hsome (1 <=? i)%nat).
      2: { intros Hb%Nat.leb_le. apply Hrd. lia. }
      cbn [mbind option_bind]. rewrite (Hsome (Z.of_nat i <=? size_sub len 2)).
      2: { intros Hb%Z.leb_le. pose proof (size_sub_small len 2).
           apply Hrd. lia. }
      cbn [mbind option_bind]. rewrite (Hsome (Z.of_nat i <=? size_sub len 4)).
      2: { intros Hb%Z.leb_le. pose proof (size_sub_small len 4).
           apply Hrd. lia. }
      cbn [mbind option_bind].
      replace (- (c + c) + 9 * (c + c)) with (c * 16) by lia.
      rewrite Z.quot_mul by done. by rewrite Hw0. }
  assert (Hlp : mapM (lowpass_at k rd (replicate len 0)) (seq 0 len)
                = Some (replicate len c)).
  { apply mapM_seq_const. intros i Hi.
    assert (H0 : ∀ j, (j < len)%nat → replicate len 0 !! j = Some 0)
      by (intros j Hj; by apply lookup_replicate_2).
    destruct k; cbn [lowpass_at]; rewrite ?Hrd by lia;
      cbn [mbind option_bind].
    - by rewrite quot_double, wrap16_id.
    - destruct (0 <? i)%nat; rewrite ?H0 by lia; cbn [mbind option_bind];
        change ((0 + 0) `quot` 4) with 0; by rewrite Z.add_0_r, wrap16_id.
    - destruct (0 <? i)%nat; rewrite ?H0 by lia; cbn [mbind option_bind];
        change ((0 + 0) `quot` 4) with 0; by rewrite Z.add_0_r, wrap16_id. }
  apply sLift1d_Some.
  exists (replicate len 0), (replicate len c), (replicate len 0).
  split_and!; [done|done| |done].
  rewrite degrade_all_Some by done. f_equal.
  rewrite fmap_replicate. f_equal.
  destruct (noise_gate_hit q g 0); by rewrite Z.quot_0_l.
Qed.

(** X3: a constant signal has no detail.  For every kernel, step and gate,
    the lowpass of [2 len] samples [c] is [len] times [c] and the highpass
    is [len] times 0; the substitutions at the two ends keep it so. *)
Theorem sLift1d_constant_signal (k : kernel) (q : Z) (g : F) (len : nat)
    (c : Z) :
  int16 c → q ≠ 0 → k = Haar ∨ len ≠ 1%nat →
  sLift1d k q g len (list_reader (replicate (2 * len) c))
  = Some (replicate len c ++ replicate len 0).
Proof. apply sLift1d_constant. Qed.

End KernelTheorems.

Lemma sLift1d_reads_its_samples_only_witness :
  sLift1d DD97 3 (f_of_int 2 : xfloat) 5
    (list_reader [5; 9; -4; 7; 12; 3; 0; 40; 1; 1])
  = sLift1d DD97 3 (f_of_int 2 : xfloat) 5
      (list_reader [5; 9; -4; 7; 12; 3; 0; 40; 1; 1; 77; 78]).
Proof.
  apply (sLift1d_reads_its_samples_only DD97 3 (f_of_int 2 : xfloat) 5).
  - right. lia.
  - intros j Hj. unfold list_reader.
    do 10 (destruct j as [|j]; [reflexivity|]). lia.
Defined.

Lemma sLift1d_constant_signal_witness :
  sLift1d CDF53 3 (f_of_int 2 : xfloat) 4 (list_reader (replicate (2 * 4) 7))
  = Some (replicate 4 7 ++ replicate 4 0).
Proof.
  apply sLift1d_constant_signal.
  - unfold int16. lia.
  - lia.
  - right. lia.
Defined.

(** ** The degrade stage *)

Lemma quot_int16 v q : int16 v → 1 ≤ q → int16 (v `quot` q).
Proof.
  unfold int16. intros Hv Hq.
  destruct (Z.le_gt_cases 0 v) as [H0|H0].
  - pose proof (Z.quot_pos v q H0 ltac:(lia)).
    pose proof (Z.quot_le_upper_bound v q v ltac:(lia) ltac:(nia)). lia.
  - pose proof (Z.quot_opp_l v q ltac:(lia)) as Ho.
    pose proof (Z.quot_pos (- v) q ltac:(lia) ltac:(lia)).
    pose proof (Z.quot_le_upper_bound (- v) q (- v) ltac:(lia) ltac:(nia)).
    lia.
Qed.

Lemma quot_abs_le v q : 1 ≤ q → Z.abs (v `quot` q) * q ≤ Z.abs v.
Proof.
  intros Hq. rewrite <- Z.quot_abs by lia. rewrite (Z.abs_eq q) by lia.
  rewrite Z.mul_comm. apply Z.mul_quot_le; lia.
Qed.

Section DegradeFacts.
Context {F : Type} `{FloatLaws F}.

(** A coefficient at or above the gate, or at or below its negation, is
    not inside the gate. *)
Lemma noise_gate_miss q (g : F) v :
  0 < q ≤ 32767 →
  f_le g (f_of_int v) = true ∨ f_le (f_of_int v) (f_neg g) = true →
  noise_gate_hit q g v = false.
Proof.
  intros Hq Hv. apply not_true_iff_false. unfold noise_gate_hit.
  rewrite andb_true_iff. intros [Hlo Hhi].
  destruct Hv as [Hv|Hv].
  - pose proof (f_div_mono q _ _ Hq Hv) as Hd.
    pose proof (f_lt_le_trans _ _ _ Hhi Hd) as Hrefl.
    by rewrite f_lt_irrefl in Hrefl.
  - pose proof (f_div_mono q _ _ Hq Hv) as Hd.
    pose proof (f_le_lt_trans _ _ _ Hd Hlo) as Hrefl.
    by rewrite f_lt_irrefl in Hrefl.
Qed.

(** X4: the gate zeroes no coefficient whose value is at or above [g], or
    at or below [-g]: such a highpass coefficient leaves the kernel as its
    quotient by the step. *)
Theorem gate_spares_large_coefficients (k : kernel) (q : Z) (g : F)
    (len : nat) (rd : reader) (out : list Z) (i : nat) (h : Z) :
  1 ≤ q ≤ 32767 → (i < len)%nat →
  sLift1d k q g len rd = Some out →
  highpass_at k len rd i = Some h →
  f_le g (f_of_int h) = true ∨ f_le (f_of_int h) (f_neg g) = true →
  out !! (len + i)%nat = Some (h `quot` q).
Proof.
  intros Hq Hi Hout Hh Hg.
  apply sLift1d_Some in Hout as (hp & lp & hp' & Hhp & Hlp & Hd & ->).
  rewrite degrade_all_Some in Hd by lia. injection Hd as <-.
  pose proof (mapM_seq_length _ _ _ Hlp) as Hlen.
  destruct (mapM_seq_lookup _ _ _ i Hhp Hi) as (y & Hy & Hy').
  assert (y = h) as -> by congruence.
  rewrite lookup_app_r by lia.
  replace (len + i - length lp)%nat with i by lia.
  rewrite list_lookup_fmap, Hy. cbn [fmap option_fmap option_map].
  rewrite noise_gate_miss by (done || lia).
  rewrite wrap16_id; [done|].
  apply quot_int16; [|lia]. by eapply highpass_at_int16.
Qed.

(** X5: the degrade stage against the run with the step 1 and the gate 0.
    It leaves the lowpass as it is; a highpass coefficient [h] becomes 0 or
    [h / q], never larger in magnitude than [h] over [q]. *)
Theorem degrade_shrinks_highpass_only (k : kernel) (q : Z) (g : F)
    (len : nat) (rd : reader) (out : list Z) :
  1 ≤ q →
  sLift1d k q g len rd = Some out →
  ∃ lp hp,
    sLift1d k 1 (f_of_int 0) len rd = Some (lp ++ hp)
    ∧ length lp = len ∧ length hp = len
    ∧ take len out = lp
    ∧ ∀ i h, hp !! i = Some h →
        ∃ h', out !! (len + i)%nat = Some h'
              ∧ (h' = 0 ∨ h' = h `quot` q)
              ∧ Z.abs h' * q ≤ Z.abs h.
Proof.
  intros Hq Hout.
  apply sLift1d_Some in Hout as (hp & lp & hp' & Hhp & Hlp & Hd & ->).
  rewrite degrade_all_Some in Hd by lia. injection Hd as <-.
  pose proof (mapM_seq_length _ _ _ Hlp) as Hllp.
  pose proof (mapM_seq_length _ _ _ Hhp) as Hlhp.
  exists lp, hp. split_and!; [|done|done| |].
  - apply sLift1d_Some. exists hp, lp, hp.
    split_and!; [done|done| |done].
    apply degrade_identity. by eapply highpass_int16.
  - by rewrite <- Hllp, take_app_length.
  - intros i h Hh.
    rewrite lookup_app_r by lia.
    replace (len + i - length lp)%nat with i by lia.
    rewrite list_lookup_fmap, Hh. cbn [fmap option_fmap option_map].
    eexists. split; [done|].
    assert (Hih : int16 h).
    { eapply Forall_lookup_1; [|exact Hh]. by eapply highpass_int16. }
    destruct (noise_gate_hit q g h).
    + rewrite Z.quot_0_l by lia. change (wrap16 0) with 0.
      split; [by left|lia].
    + rewrite wrap16_id by (by apply quot_int16).
      split; [by right|]. by apply quot_abs_le.
Qed.

End DegradeFacts.

Lemma gate_spares_large_coefficients_witness :
  [9; -1; 11; 7; 4; 0; -4; 20] !! (4 + 3)%nat = Some (40 `quot` 2).
Proof.
  apply (gate_spares_large_coefficients CDF53 2 (f_of_int 4 : xfloat) 4
           (list_reader [5; 9; -4; 7; 12; 3; 0; 40])).
  - lia.
  - lia.
  - reflexivity.
  - reflexivity.
  - left. reflexivity.
Defined.

Lemma degrade_shrinks_highpass_only_witness :
  ∃ lp hp,
    sLift1d CDF53 1 (f_of_int 0 : xfloat) 4
      (list_reader [5; 9; -4; 7; 12; 3; 0; 40]) = Some (lp ++ hp)
    ∧ length lp = 4%nat ∧ length hp = 4%nat
    ∧ take 4 [9; -1; 11; 7; 4; 0; -4; 20] = lp
    ∧ ∀ i h, hp !! i = Some h →
        ∃ h', [9; -1; 11; 7; 4; 0; -4; 20] !! (4 + i)%nat = Some h'
              ∧ (h' = 0 ∨ h' = h `quot` 2)
              ∧ Z.abs h' * 2 ≤ Z.abs h.
Proof.
  apply (degrade_shrinks_highpass_only CDF53 2 (f_of_int 4 : xfloat) 4
           (list_reader [5; 9; -4; 7; 12; 3; 0; 40])).
  - lia.
  - reflexivity.
Defined.

(** ** The two flattenings *)

Lemma bind_singleton_fmap {A B} (f : A → B) (l : list A) :
  l ≫= (λ x, [f x]) = f <$> l.
Proof. induction l as [|x l IH]; [done|]. by rewrite bind_cons, IH. Qed.

(** The element of two nested loops at the turn [a] of the outer one and
    the turn [b] of the inner one. *)
Lemma nested_loops_lookup {A} (f : nat → nat → A) n m a b :
  (a < n)%nat → (b < m)%nat →
  (x ← seq 0 n; y ← seq 0 m; [f x y]) !! (a * m + b)%nat = Some (f a b).
Proof.
  intros Ha Hb. induction n as [|n IH]; [lia|].
  rewrite seq_S, bind_app. cbn [seq mbind list_bind]. rewrite app_nil_r.
  assert (Hlen : length (x ← seq 0 n; y ← seq 0 m; [f x y]) = (n * m)%nat).
  { rewrite (bind_length_const _ _ m), length_seq; [done|].
    intros x. by rewrite bind_singleton_fmap, length_fmap, length_seq. }
  destruct (decide (a = n)) as [->|Hne].
  - rewrite lookup_app_r by lia. rewrite Hlen.
    replace (n * m + b - n * m)%nat with b by lia.
    rewrite bind_singleton_fmap, list_lookup_fmap, lookup_seq_lt by done.
    done.
  - rewrite lookup_app_l by nia. apply IH. lia.
Qed.

Lemma emit_seq_cell offs inp out st n o :
  p_reg inp ≠ p_reg out → offs !! n = Some o →
  load (st_mem (emit_seq offs inp out st)) (padd out (Z.of_nat n))
  = load (st_mem st) (padd inp o).
Proof.
  intros Hreg Ho.
  pose proof (emit_seq_content offs inp out st Hreg) as Hc.
  apply (f_equal (λ l, l !! n)) in Hc.
  rewrite !list_lookup_fmap, Ho in Hc.
  unfold ptr_range in Hc. rewrite list_lookup_fmap in Hc.
  rewrite lookup_seq_lt in Hc by (by eapply lookup_lt_Some).
  by injection Hc.
Qed.

(** The cells and the log of [s2dToLinearH]. *)
Lemma s2dToLinearH_spec (w h in_pitch : nat) (inp out : ptr)
    (st : state) :
  p_reg inp ≠ p_reg out →
  let st' := s2dToLinearH w h in_pitch inp out st in
  (∀ r c, (r < h)%nat → (c < w)%nat →
     load (st_mem st') (padd out (Z.of_nat (r * w + c)))
     = load (st_mem st) (padd inp (Z.of_nat (r * in_pitch + c))))
  ∧ (∀ p, p ∉ ptr_range out (w * h) →
       load (st_mem st') p = load (st_mem st) p)
  ∧ st_log st' = st_log st ++ ptr_range out (w * h).
Proof.
  intros Hreg st'. unfold st', s2dToLinearH. split_and!.
  - intros r c Hr Hc. apply emit_seq_cell; [done|].
    unfold linearH_offsets.
    apply (nested_loops_lookup (λ r c, Z.of_nat (r * in_pitch + c))); done.
  - intros p Hp. apply emit_seq_frame. by rewrite linearH_offsets_length.
  - by rewrite emit_seq_log, linearH_offsets_length.
Qed.

(** X6: [s2dToLinearH] copies the [w] by [h] block at [in], whose rows are
    [in_pitch] cells apart, row after row into the [w * h] cells at [out],
    and changes no other cell. *)
Theorem s2dToLinearH_row_major (w h in_pitch : nat) (inp out : ptr)
    (st : state) :
  p_reg inp ≠ p_reg out →
  let st' := s2dToLinearH w h in_pitch inp out st in
  (∀ r c, (r < h)%nat → (c < w)%nat →
     load (st_mem st') (padd out (Z.of_nat (r * w + c)))
     = load (st_mem st) (padd inp (Z.of_nat (r * in_pitch + c))))
  ∧ (∀ p, p ∉ ptr_range out (w * h) →
       load (st_mem st') p = load (st_mem st) p)
  ∧ st_log st' = st_log st ++ ptr_range out (w * h).
Proof.
  intros Hreg. by apply s2dToLinearH_spec.
Qed.

(** X7: [s2dToLinearV] stores the same block column after column: the
    cell at row [r] and column [c] goes to [out[c * h + r]], the transpose
    of where [s2dToLinearH] puts it. *)
Theorem s2dToLinearV_column_major (w h in_pitch : nat) (inp out : ptr)
    (st : state) :
  p_reg inp ≠ p_reg out →
  let st' := s2dToLinearV w h in_pitch inp out st in
  (∀ r c, (r < h)%nat → (c < w)%nat →
     load (st_mem st') (padd out (Z.of_nat (c * h + r)))
     = load (st_mem st) (padd inp (Z.of_nat (c + r * in_pitch)))
     ∧ load (st_mem st') (padd out (Z.of_nat (c * h + r)))
       = load (st_mem (s2dToLinearH w h in_pitch inp out st))
           (padd out (Z.of_nat (r * w + c))))
  ∧ (∀ p, p ∉ ptr_range out (w * h) →
       load (st_mem st') p = load (st_mem st) p)
  ∧ st_log st' = st_log st ++ ptr_range out (w * h).
Proof.
  intros Hreg st'. unfold st', s2dToLinearV. split_and!.
  - intros r c Hr Hc.
    assert (Hv : load (st_mem (emit_seq (linearV_offsets w h in_pitch)
                                 inp out st))
                   (padd out (Z.of_nat (c * h + r)))
                 = load (st_mem st) (padd inp (Z.of_nat (c + r * in_pitch)))).
    { apply emit_seq_cell; [done|]. unfold linearV_offsets.
      apply (nested_loops_lookup (λ c r, Z.of_nat (c + r * in_pitch)));
        done. }
    split; [done|]. rewrite Hv. unfold s2dToLinearH.
    rewrite (emit_seq_cell _ inp out st (r * w + c)
               (Z.of_nat (r * in_pitch + c))); [|done|].
    + f_equal. f_equal. lia.
    + unfold linearH_offsets.
      apply (nested_loops_lookup (λ r c, Z.of_nat (r * in_pitch + c))); done.
  - intros p Hp. apply emit_seq_frame. by rewrite linearV_offsets_length.
  - by rewrite emit_seq_log, linearV_offsets_length.
Qed.

Lemma s2dToLinearH_row_major_witness :
  let st' := s2dToLinearH 2 3 5 (Ptr RIn 4) (Ptr ROut 10)
               (State sample_planes []) in
  (∀ r c, (r < 3)%nat → (c < 2)%nat →
     load (st_mem st') (padd (Ptr ROut 10) (Z.of_nat (r * 2 + c)))
     = load sample_planes (padd (Ptr RIn 4) (Z.of_nat (r * 5 + c))))
  ∧ (∀ p, p ∉ ptr_range (Ptr ROut 10) (2 * 3) →
       load (st_mem st') p = load sample_planes p)
  ∧ st_log st' = [] ++ ptr_range (Ptr ROut 10) (2 * 3).
Proof.
  apply (s2dToLinearH_row_major 2 3 5 (Ptr RIn 4) (Ptr ROut 10)
           (State sample_planes [])).
  discriminate.
Defined.

Lemma s2dToLinearV_column_major_witness :
  let st' := s2dToLinearV 2 3 5 (Ptr RIn 4) (Ptr ROut 10)
               (State sample_planes []) in
  (∀ r c, (r < 3)%nat → (c < 2)%nat →
     load (st_mem st') (padd (Ptr ROut 10) (Z.of_nat (c * 3 + r)))
     = load sample_planes (padd (Ptr RIn 4) (Z.of_nat (c + r * 5)))
     ∧ load (st_mem st') (padd (Ptr ROut 10) (Z.of_nat (c * 3 + r)))
       = load (st_mem (s2dToLinearH 2 3 5 (Ptr RIn 4) (Ptr ROut 10)
                         (State sample_planes [])))
           (padd (Ptr ROut 10) (Z.of_nat (r * 2 + c))))
  ∧ (∀ p, p ∉ ptr_range (Ptr ROut 10) (2 * 3) →
       load (st_mem st') p = load sample_planes p)
  ∧ st_log st' = [] ++ ptr_range (Ptr ROut 10) (2 * 3).
Proof.
  apply (s2dToLinearV_column_major 2 3 5 (Ptr RIn 4) (Ptr ROut 10)
           (State sample_planes [])).
  discriminate.
Defined.

(** ** The driver without a lift *)

(** A cell of a part of a run of cells is a cell of the run. *)
Ltac sub_range :=
  let Hin := fresh "Hin" in
  intros Hin;
  match goal with Hp : _ ∉ ptr_range _ _ |- _ => apply Hp end;
  apply elem_of_ptr_range; apply elem_of_ptr_range in Hin;
  cbn [p_reg p_off] in *; destruct Hin; split; [done|nia].

Section PlainDriver.
Context {F : Type} `{FloatOps F}.
Variables TileTotalLength TileTotalLifts : nat → nat → nat.
Variable s : AkoSettings F.
Variables tile_w tile_h channels planes_space : nat.

Lemma plane_region ch : p_reg (plane tile_w tile_h planes_space ch) = RIn.
Proof. done. Qed.

Lemma copy_planes_spec chs st o :
  let n := (tile_w * tile_h)%nat in
  let r := copy_planes tile_w tile_h planes_space chs st (Ptr ROut o) in
  r.2 = Ptr ROut (o + Z.of_nat (length chs * n))
  ∧ st_log r.1 = st_log st ++ ptr_range (Ptr ROut o) (length chs * n)
  ∧ (∀ p, p ∉ ptr_range (Ptr ROut o) (length chs * n) →
       load (st_mem r.1) p = load (st_mem st) p)
  ∧ (∀ k ch i, chs !! k = Some ch → (i < n)%nat →
       load (st_mem r.1) (Ptr ROut (o + Z.of_nat (k * n + i)))
       = load (st_mem st)
           (padd (plane tile_w tile_h planes_space ch) (Z.of_nat i))).
Proof.
  intros n. assert (Hn : (tile_w * tile_h)%nat = n) by done. clearbody n.
  revert st o. induction chs as [|ch chs IH]; intros st o.
  - cbn. split_and!; [f_equal; lia|by rewrite app_nil_r|done|done].
  - cbn [copy_planes length]. rewrite Hn.
    set (st1 := emit_seq (Z.of_nat <$> seq 0 n)
                  (plane tile_w tile_h planes_space ch) (Ptr ROut o) st).
    destruct (IH st1 (o + Z.of_nat n)) as (Hcur & Hlog & Hframe & Hcont).
    unfold padd. cbn [p_reg p_off].
    assert (Hlen : length (Z.of_nat <$> seq 0 n) = n)
      by (by rewrite length_fmap, length_seq).
    assert (Hf1 : ∀ p, p ∉ ptr_range (Ptr ROut o) n →
              load (st_mem st1) p = load (st_mem st) p).
    { intros p Hp. apply emit_seq_frame. by rewrite Hlen. }
    split_and!.
    + rewrite Hcur. f_equal. lia.
    + rewrite Hlog. unfold st1. rewrite emit_seq_log, Hlen.
      rewrite <- app_assoc. f_equal.
      replace (S (length chs) * n)%nat with (n + length chs * n)%nat by lia.
      by rewrite ptr_range_app.
    + intros p Hp. rewrite Hframe, Hf1; [done|..].
      * by sub_range.
      * by sub_range.
    + intros k ch' i Hk Hi. destruct k as [|k].
      * injection Hk as ->. rewrite Hframe.
        2: { rewrite elem_of_ptr_range. cbn [p_reg p_off]. lia. }
        replace (Ptr ROut (o + Z.of_nat (0 * n + i)))
          with (padd (Ptr ROut o) (Z.of_nat i))
          by (unfold padd; cbn [p_reg p_off]; f_equal; lia).
        unfold st1. apply emit_seq_cell; [done|].
        rewrite list_lookup_fmap, lookup_seq_lt by done. done.
      * cbn [lookup list_lookup] in Hk.
        replace (o + Z.of_nat (S k * n + i))
          with (o + Z.of_nat n + Z.of_nat (k * n + i)) by lia.
        rewrite (Hcont k ch' i Hk Hi). apply Hf1.
        by apply not_elem_of_ptr_range_region.
Qed.

(** X8: where no wavelet is compiled in ([AKO_WAVELET == 0]) the
    transform copies the [tile_w * tile_h] samples of every plane to the
    stream, the channels in rising order and without the [planes_space]
    cells between two planes, and changes nothing but those cells of
    [out]. *)
Theorem dwt_without_wavelet_copies_planes (m : mem) :
  ∃ r,
    DwtTransform TileTotalLength TileTotalLifts s tile_w tile_h channels
      planes_space None m = Some r
    ∧ r_cursor r = padd out_ (Z.of_nat (channels * (tile_w * tile_h)))
    ∧ st_log (r_state r) = ptr_range out_ (channels * (tile_w * tile_h))
    ∧ (∀ ch i, (ch < channels)%nat → (i < tile_w * tile_h)%nat →
         load (st_mem (r_state r))
           (padd out_ (Z.of_nat (ch * (tile_w * tile_h) + i)))
         = load m (padd (plane tile_w tile_h planes_space ch) (Z.of_nat i)))
    ∧ (∀ p, p ∉ ptr_range out_ (channels * (tile_w * tile_h)) →
         load (st_mem (r_state r)) p = load m p).
Proof.
  unfold DwtTransform, out_.
  destruct (copy_planes_spec (seq 0 channels) (State m []) 0)
    as (Hcur & Hlog & Hframe & Hcont).
  rewrite length_seq in Hcur, Hlog, Hframe.
  destruct (copy_planes tile_w tile_h planes_space (seq 0 channels)
              (State m []) (Ptr ROut 0)) as [st out] eqn:Hcp.
  cbn [fst snd] in *.
  eexists. split; [done|]. cbn [r_cursor r_state].
  split_and!; [by rewrite Hcur|done| |done].
  intros ch i Hch Hi.
  change m with (st_mem (State m [])).
  rewrite <- (Hcont ch ch i); [|by apply lookup_seq_lt|done].
  unfold padd. cbn [p_reg p_off]. done.
Qed.

Lemma emit_lowpasses_spec tw th chs st c :
  let n := (tw * th)%nat in
  let r := emit_lowpasses tile_w tile_h planes_space tw th chs st
             (Ptr ROut c) in
  (∀ p, p ∉ ptr_range (Ptr ROut (c - Z.of_nat (length chs * n)))
                (length chs * n) →
     load (st_mem r.1) p = load (st_mem st) p)
  ∧ (∀ k ch row col, chs !! k = Some ch → (row < th)%nat → (col < tw)%nat →
       load (st_mem r.1)
         (Ptr ROut (c - Z.of_nat ((k + 1) * n) + Z.of_nat (row * tw + col)))
       = load (st_mem st)
           (padd (plane tile_w tile_h planes_space ch)
                 (Z.of_nat (row * (tw * 2) + col)))).
Proof.
  intros n. assert (Hn : (tw * th)%nat = n) by done. clearbody n.
  revert st c. induction chs as [|ch chs IH]; intros st c.
  - cbn. done.
  - cbn [emit_lowpasses length]. rewrite Hn.
    change (padd (Ptr ROut c) (- Z.of_nat n))
      with (Ptr ROut (c + - Z.of_nat n)).
    set (st1 := s2dToLinearH tw th (tw * 2)
                  (plane tile_w tile_h planes_space ch)
                  (Ptr ROut (c + - Z.of_nat n)) st).
    destruct (IH st1 (c + - Z.of_nat n)) as (Hframe & Hcont).
    destruct (s2dToLinearH_spec tw th (tw * 2)
                (plane tile_w tile_h planes_space ch)
                (Ptr ROut (c + - Z.of_nat n)) st) as (Hc1 & Hf1 & _);
      [done|].
    fold st1 in Hc1, Hf1. rewrite Hn in Hf1.
    split.
    + intros p Hp. rewrite Hframe, Hf1; [done|..].
      * by sub_range.
      * by sub_range.
    + intros k ch' row col Hk Hrow Hcol. destruct k as [|k].
      * injection Hk as ->. rewrite Hframe.
        2: { rewrite elem_of_ptr_range. cbn [p_reg p_off]. nia. }
        rewrite <- Hc1 by done. f_equal.
        unfold padd. cbn [p_reg p_off]. f_equal. lia.
      * cbn [lookup list_lookup] in Hk.
        replace (c - Z.of_nat ((S k + 1) * n) + Z.of_nat (row * tw + col))
          with (c + - Z.of_nat n - Z.of_nat ((k + 1) * n)
                + Z.of_nat (row * tw + col)) by lia.
        rewrite (Hcont k ch' row col Hk Hrow Hcol). apply Hf1.
        by apply not_elem_of_ptr_range_region.
Qed.

Lemma channels_down_lookup ch :
  (ch < channels)%nat →
  channels_down channels !! (channels - 1 - ch)%nat = Some ch.
Proof.
  intros Hch. unfold channels_down.
  rewrite reverse_lookup by (rewrite length_seq; lia).
  rewrite length_seq. apply lookup_seq. lia.
Qed.

(** X9: a tile with a side of 2 or less gets no lift: the loop over the
    levels takes no turn, and the stream holds, for every channel, the
    [tile_w * tile_h] cells that [s2dToLinearH] reads with the pitch
    [2 * tile_w] of a lifted plane.  The row [row] of the stream is not the
    row [row] of the plane but the cells [2 * row * tile_w + col] of it. *)
Theorem dwt_small_tile_is_read_at_double_pitch (k : kernel) (m : mem) :
  (tile_w ≤ 2)%nat ∨ (tile_h ≤ 2)%nat →
  let L := Z.of_nat (TileTotalLength tile_w tile_h * channels) in
  let n := (tile_w * tile_h)%nat in
  ∃ r,
    DwtTransform TileTotalLength TileTotalLifts s tile_w tile_h channels
      planes_space (Some k) m = Some r
    ∧ r_lift r = 0%nat
    ∧ r_cursor r = Ptr ROut (L - Z.of_nat (channels * n))
    ∧ length (st_log (r_state r)) = (channels * n)%nat
    ∧ (∀ ch row col,
         (ch < channels)%nat → (row < tile_h)%nat → (col < tile_w)%nat →
         load (st_mem (r_state r))
           (Ptr ROut (L - Z.of_nat ((channels - ch) * n)
                      + Z.of_nat (row * tile_w + col)))
         = load m (padd (plane tile_w tile_h planes_space ch)
                        (Z.of_nat (2 * row * tile_w + col)))).
Proof.
  intros Hsmall L n. unfold DwtTransform.
  assert (Hc : (2 <? tile_w)%nat && (2 <? tile_h)%nat = false).
  { apply andb_false_iff.
    destruct Hsmall; [left|right]; apply Nat.ltb_ge; lia. }
  assert (Hl : ∀ fuel st cur,
            lift_levels TileTotalLifts s tile_w tile_h channels planes_space
              fuel k 0 tile_w tile_h st cur
            = Some (Result st cur 0 tile_w tile_h)).
  { intros [|fuel] st cur; cbn [lift_levels]; by rewrite Hc. }
  rewrite Hl. cbn [mbind option_bind r_target_w r_target_h r_state r_cursor
                   r_lift].
  unfold out_, padd. cbn [p_reg p_off]. rewrite Z.add_0_l. fold L.
  destruct (emit_lowpasses_log tile_w tile_h planes_space tile_w tile_h
              (channels_down channels) (State m []) L) as (st' & Hrun & Hlog).
  destruct (emit_lowpasses_spec tile_w tile_h (channels_down channels)
              (State m []) L) as (_ & Hcont).
  rewrite Hrun in Hcont |- *. cbn [fst snd] in Hcont.
  rewrite channels_down_length in Hlog |- *.
  eexists. split; [done|]. cbn [r_cursor r_state r_lift].
  split_and!; [done|f_equal; fold n; lia| |].
  - rewrite Hlog. cbn [st_log app].
    rewrite (lowpass_blocks_cells (tile_w * tile_h) channels L).
    by rewrite ptr_range_length.
  - intros ch row col Hch Hrow Hcol.
    pose proof (Hcont (channels - 1 - ch)%nat ch row col
                  (channels_down_lookup ch Hch) Hrow Hcol) as Hx.
    cbn [st_mem] in Hx.
    replace (channels - 1 - ch + 1)%nat with (channels - ch)%nat in Hx by lia.
    fold n in Hx. rewrite Hx. unfold padd. do 2 f_equal. lia.
Qed.

End PlainDriver.

Lemma dwt_small_tile_is_read_at_double_pitch_witness :
  let L := Z.of_nat (TileTotalLength_spec 2 2 * 1) in
  let n := (2 * 2)%nat in
  ∃ r,
    DwtTransform TileTotalLength_spec TileTotalLifts_spec lossless_settings
      2 2 1 0 (Some CDF53) sample_planes = Some r
    ∧ r_lift r = 0%nat
    ∧ r_cursor r = Ptr ROut (L - Z.of_nat (1 * n))
    ∧ length (st_log (r_state r)) = (1 * n)%nat
    ∧ (∀ ch row col,
         (ch < 1)%nat → (row < 2)%nat → (col < 2)%nat →
         load (st_mem (r_state r))
           (Ptr ROut (L - Z.of_nat ((1 - ch) * n)
                      + Z.of_nat (row * 2 + col)))
         = load sample_planes (padd (plane 2 2 0 ch)
                                 (Z.of_nat (2 * row * 2 + col)))).
Proof.
  apply (dwt_small_tile_is_read_at_double_pitch TileTotalLength_spec
           TileTotalLifts_spec lossless_settings 2 2 1 0 CDF53 sample_planes).
  left. lia.
Defined.

(** ** The schedule of the step and of the gate *)

Section ScheduleFacts.
Context {F : Type} `{FloatLaws F}.
Variable s : AkoSettings F.

(** The user step after the first clamp. *)
Lemma clamped_step_bounds ch :
  f_lt (quantization s ch) (f_of_int 32768) = true →
  let u := if f_lt (quantization s ch) (f_of_int 1)
           then f_of_int 1 else quantization s ch in
  f_le (f_of_int 0) u = true ∧ f_lt u (f_of_int 32768) = true.
Proof.
  intros Hlim u. unfold u.
  destruct (f_lt (quantization s ch) (f_of_int 1)) eqn:Hu.
  - split; [apply f_of_int_le; lia|apply f_of_int_lt; lia].
  - split; [|done].
    apply f_le_trans with (f_of_int 1); [apply f_of_int_le; lia|].
    apply f_le_total; [|apply f_of_int_le; lia|done].
    by eapply f_lt_ordered.
Qed.

Lemma quantization_q_step ch lift :
  f_lt (quantization s ch) (f_of_int 32768) = true →
  f_le (quantization_q s ch (S lift)) (quantization_q s ch lift) = true.
Proof.
  intros Hlim. destruct (clamped_step_bounds ch Hlim) as [Hu0 Hulim].
  unfold quantization_q. rewrite Nat.iter_succ.
  set (u := if f_lt (quantization s ch) (f_of_int 1)
            then f_of_int 1 else quantization s ch) in *.
  destruct (halvings_bounded u lift Hu0 Hulim) as [Hm0 Hmlim].
  set (mk1 := Nat.iter lift (λ x, f_div x (f_of_int 2)) u) in *.
  destruct (f_half mk1 Hm0) as [_ Hle].
  destruct (f_lt (f_div mk1 (f_of_int 2)) (f_of_int 1)) eqn:Hd,
    (f_lt mk1 (f_of_int 1)) eqn:Hm.
  - apply f_of_int_le. lia.
  - apply f_le_total; [by eapply f_lt_ordered|apply f_of_int_le; lia|done].
  - by rewrite (f_le_lt_trans _ _ _ Hle Hm) in Hd.
  - done.
Qed.

Lemma quantization_q_ordered ch lift :
  f_lt (quantization s ch) (f_of_int 32768) = true →
  f_le (quantization_q s ch lift) (quantization_q s ch lift) = true.
Proof.
  intros Hlim. eapply f_lt_ordered.
  by apply quantization_q_below_limit.
Qed.

(** X10: the step of a channel never grows with the level: a deeper
    level is quantized with a step that is at most the step of every level
    above it, and the step of the level 0 is the user step (or 1). *)
Theorem quantization_step_never_grows (ch lift lift' : nat) :
  f_lt (quantization s ch) (f_of_int 32768) = true →
  (lift ≤ lift')%nat →
  f_le (quantization_q s ch lift') (quantization_q s ch lift) = true
  ∧ quantization_q s ch 0
    = (if f_lt (quantization s ch) (f_of_int 1)
       then f_of_int 1 else quantization s ch).
Proof.
  intros Hlim Hle. split.
  - induction Hle as [|lift' _ IH].
    + by apply quantization_q_ordered.
    + eapply f_le_trans; [|exact IH]. by apply quantization_q_step.
  - unfold quantization_q. change (Nat.iter 0 ?f ?x) with x.
    destruct (f_lt (quantization s ch) (f_of_int 1)) eqn:Hu.
    + by rewrite f_lt_irrefl.
    + by rewrite Hu.
Qed.

End ScheduleFacts.

Lemma quantization_step_never_grows_witness :
  f_le (quantization_q (uniform_settings (f_of_int 40 : xfloat) (f_of_int 0))
          0 3)
       (quantization_q (uniform_settings (f_of_int 40 : xfloat) (f_of_int 0))
          0 1) = true
  ∧ quantization_q (uniform_settings (f_of_int 40 : xfloat) (f_of_int 0)) 0 0
    = (if f_lt (quantization
                  (uniform_settings (f_of_int 40 : xfloat) (f_of_int 0)) 0)
               (f_of_int 1)
       then f_of_int 1
       else quantization
              (uniform_settings (f_of_int 40 : xfloat) (f_of_int 0)) 0).
Proof.
  apply (quantization_step_never_grows
           (uniform_settings (f_of_int 40 : xfloat) (f_of_int 0)) 0 1 3).
  - reflexivity.
  - lia.
Defined.

(** ** The gate at the two ends of its schedule, in exact arithmetic *)

Lemma x_gate_nan q v : noise_gate_hit q XNaN v = false.
Proof. done. Qed.

Lemma Qltb_asym a b : Qltb a b && Qltb b a = false.
Proof.
  destruct (Qltb a b) eqn:Hab; [|done]. cbn [andb].
  apply Qltb_lt in Hab. apply Qltb_ge. by apply Qlt_le_weak.
Qed.

Lemma x_gate_zero q v : noise_gate_hit q (XFin 0 : xfloat) v = false.
Proof.
  unfold noise_gate_hit. cbn [f_neg f_div f_lt f_of_int xfloat_ops x_neg].
  change (- 0)%Q with 0%Q. unfold x_div.
  destruct (Qeq_bool (inject_Z q) 0) eqn:Hq.
  - change (Qeq_bool 0 0) with true. cbn iota.
    by destruct (Qeq_bool (inject_Z v) 0).
  - cbn [x_lt]. apply Qltb_asym.
Qed.

Lemma x_pow_zero (a : xfloat) : x_pow a (XFin 0) = XFin 1.
Proof.
  destruct a as [|sg|x]; [done|done|].
  unfold x_pow. change (Qeq_bool 0 0) with true. by rewrite orb_true_r.
Qed.

Lemma x_div_self (n : Z) (b : Q) :
  n ≠ 0 → (b == inject_Z n)%Q →
  x_div (XFin (inject_Z n)) (XFin b) = XFin 1.
Proof.
  intros Hn Hb. unfold x_div.
  assert (Hb0 : ¬ (b == 0)%Q).
  { rewrite Hb. unfold Qeq. simpl. lia. }
  destruct (Qeq_bool b 0) eqn:Hz; [by apply Qeq_bool_iff in Hz|].
  f_equal. change 1%Q with (Qred 1). apply Qred_complete.
  rewrite <- Hb. by field.
Qed.

Lemma x_div_by_successor_less_1 (n : Z) :
  n ≠ 0 →
  x_div (XFin (inject_Z n))
        (x_sub (XFin (inject_Z (n + 1))) (XFin (inject_Z 1)))
  = XFin 1.
Proof.
  intros Hn. unfold x_sub, x_neg, x_add. apply x_div_self; [done|].
  rewrite Qred_correct. unfold Qeq. simpl. lia.
Qed.

Section GateSchedule.
Variable TileTotalLifts : nat → nat → nat.
Variable s : AkoSettings xfloat.
Variables tile_w tile_h : nat.

(** X11: where [TileTotalLifts] is 1 the exponent of the gate is
    [1 - 0 / (1 - 1)], which is NaN: whatever the user asks for, the gate
    that the level 0 gets is NaN or 0 and no coefficient is gated. *)
Theorem single_lift_has_no_gate (ch : nat) (q v : Z) :
  TileTotalLifts tile_w tile_h = 1%nat →
  (quantization_g TileTotalLifts s tile_w tile_h ch 0 = XNaN
   ∨ quantization_g TileTotalLifts s tile_w tile_h ch 0 = XFin 0)
  ∧ noise_gate_hit q (quantization_g TileTotalLifts s tile_w tile_h ch 0) v
    = false.
Proof.
  intros HT.
  assert (Hg : quantization_g TileTotalLifts s tile_w tile_h ch 0 = XNaN
               ∨ quantization_g TileTotalLifts s tile_w tile_h ch 0 = XFin 0).
  { unfold quantization_g. rewrite HT.
    cbn [f_lt f_of_int f_sub f_div f_add f_pow xfloat_ops].
    change (x_sub (XFin (inject_Z 1))
              (x_div (XFin (inject_Z (Z.of_nat 0)))
                 (x_sub (XFin (inject_Z (Z.of_nat 1))) (XFin (inject_Z 1)))))
      with XNaN.
    destruct (noise_gate s ch) as [|[]|x]; [vm_compute; auto..|].
    destruct (x_lt (XFin x) (XFin (inject_Z 0))).
    - by right.
    - unfold x_add, x_pow.
      destruct (Qeq_bool (Qred (x + inject_Z 1)) 1); [by right|by left]. }
  split; [done|].
  destruct Hg as [->| ->]; [apply x_gate_nan|apply x_gate_zero].
Qed.

(** X12: at the level [TileTotalLifts - 1] the exponent of the gate is
    [1 - 1 = 0] and [powf] answers 1 on every base: the gate of that level
    is 0, whatever the user asks for, and no coefficient is gated. *)
Theorem last_scheduled_lift_has_no_gate (ch : nat) (q v : Z) :
  (2 ≤ TileTotalLifts tile_w tile_h)%nat →
  let lift := (TileTotalLifts tile_w tile_h - 1)%nat in
  quantization_g TileTotalLifts s tile_w tile_h ch lift = XFin 0
  ∧ noise_gate_hit q (quantization_g TileTotalLifts s tile_w tile_h ch lift) v
    = false.
Proof.
  intros HT lift.
  assert (Hg : quantization_g TileTotalLifts s tile_w tile_h ch lift
               = XFin 0).
  { unfold quantization_g.
    cbn [f_lt f_of_int f_sub f_div f_add f_pow xfloat_ops].
    replace (Z.of_nat (TileTotalLifts tile_w tile_h))
      with (Z.of_nat lift + 1) by (unfold lift; lia).
    rewrite x_div_by_successor_less_1 by (unfold lift; lia).
    change (x_sub (XFin (inject_Z 1)) (XFin 1)) with (XFin 0 : xfloat).
    by rewrite x_pow_zero. }
  split; [done|]. rewrite Hg. apply x_gate_zero.
Qed.

End GateSchedule.

Lemma single_lift_has_no_gate_witness :
  (quantization_g TileTotalLifts_spec
     (uniform_settings (f_of_int 1) (f_of_int 6)) 5 5 0 0 = XNaN
   ∨ quantization_g TileTotalLifts_spec
       (uniform_settings (f_of_int 1) (f_of_int 6)) 5 5 0 0 = XFin 0)
  ∧ noise_gate_hit 1
      (quantization_g TileTotalLifts_spec
         (uniform_settings (f_of_int 1) (f_of_int 6)) 5 5 0 0) 3
    = false.
Proof.
  apply (single_lift_has_no_gate TileTotalLifts_spec
           (uniform_settings (f_of_int 1) (f_of_int 6)) 5 5 0 1 3).
  reflexivity.
Defined.

Lemma last_scheduled_lift_has_no_gate_witness :
  let lift := (TileTotalLifts_spec 16 16 - 1)%nat in
  quantization_g TileTotalLifts_spec
    (uniform_settings (f_of_int 1) (f_of_int 6)) 16 16 0 lift = XFin 0
  ∧ noise_gate_hit 1
      (quantization_g TileTotalLifts_spec
         (uniform_settings (f_of_int 1) (f_of_int 6)) 16 16 0 lift) 3
    = false.
Proof.
  apply (last_scheduled_lift_has_no_gate TileTotalLifts_spec
           (uniform_settings (f_of_int 1) (f_of_int 6)) 16 16 0 1 3).
  vm_compute. lia.
Defined.

(** ** Square tiles whose side is a power of 2 *)

Lemma half_up_pow2 n : half_up (2 ^ S n) = (2 ^ n)%nat.
Proof.
  unfold half_up. rewrite Nat.pow_succ_r', (Nat.mul_comm 2).
  rewrite Nat.Div0.mod_mul. cbn [Nat.eqb]. by rewrite Nat.div_mul.
Qed.

Lemma pow2_ge_1 n : (1 ≤ 2 ^ n)%nat.
Proof. induction n as [|n IH]; [done|]. rewrite Nat.pow_succ_r'. lia. Qed.

Lemma stream_of_pow2 n fuel :
  (2 ^ S n ≤ fuel)%nat →
  stream_length fuel (2 ^ S n) (2 ^ S n) = (2 ^ S n * 2 ^ S n + n)%nat
  ∧ stream_levels fuel (2 ^ S n) (2 ^ S n) = n
  ∧ stream_last fuel (2 ^ S n) (2 ^ S n) = (2%nat, 2%nat).
Proof.
  revert fuel. induction n as [|n IH]; intros fuel Hf.
  - destruct fuel; done.
  - pose proof (pow2_ge_1 n) as H1.
    assert (H2 : (2 ^ S (S n) = 2 * 2 ^ S n)%nat) by apply Nat.pow_succ_r'.
    assert (H3 : (2 ^ S n = 2 * 2 ^ n)%nat) by apply Nat.pow_succ_r'.
    destruct fuel as [|fuel]; [lia|].
    cbn [stream_length stream_levels stream_last].
    destruct (Nat.ltb_spec 2 (2 ^ S (S n))) as [_|Hle]; [|lia].
    cbn [andb]. rewrite half_up_pow2.
    destruct (IH fuel) as (Hlen & Hlev & Hlast); [lia|].
    rewrite Hlen, Hlev, Hlast. split_and!; [|done|done].
    rewrite H2. lia.
Qed.

Section PowerOfTwo.
Context {F : Type} `{FloatLaws F}.
Variables TileTotalLength TileTotalLifts : nat → nat → nat.
Variable s : AkoSettings F.
Variables channels planes_space : nat.

(** X13: a square tile of side [2 ^ (n + 1)] takes [n] levels, down to a
    lowpass of 2 by 2, and every level adds one head to the samples of the
    tile: the stream of a channel has [4 ^ (n + 1) + n] coefficients. *)
Theorem dwt_power_of_two_tile (n : nat) (k : kernel) (m : mem) :
  (∀ ch, f_lt (quantization s ch) (f_of_int 32768) = true) →
  let side := (2 ^ S n)%nat in
  ∃ r,
    DwtTransform TileTotalLength TileTotalLifts s side side channels
      planes_space (Some k) m = Some r
    ∧ r_lift r = n
    ∧ r_target_w r = 2%nat ∧ r_target_h r = 2%nat
    ∧ length (st_log (r_state r)) = (channels * (side * side + n))%nat
    ∧ r_cursor r
      = padd out_ (Z.of_nat (TileTotalLength side side * channels)
                   - Z.of_nat (channels * (side * side + n))).
Proof.
  intros Hs side.
  destruct (DwtTransform_log TileTotalLength TileTotalLifts s side side
              channels planes_space Hs k m)
    as (r & Hr & Hcur & Hlog & Hlift & Hlast).
  destruct (stream_of_pow2 n side (le_n _)) as (Hlen & Hlev & Hl).
  fold side in Hlen, Hlev, Hl.
  rewrite Hlen in Hcur. rewrite Hlev in Hlift. rewrite Hl in Hlast.
  injection Hlast as Hw Hh.
  exists r. split_and!; [done..| |].
  - rewrite Hlog, stream_blocks_cells, ptr_range_length. by rewrite Hlen.
  - rewrite Hcur. unfold out_, padd. cbn [p_reg p_off]. f_equal. lia.
Qed.

End PowerOfTwo.

Lemma dwt_power_of_two_tile_witness :
  let side := (2 ^ 3)%nat in
  ∃ r,
    DwtTransform TileTotalLength_spec TileTotalLifts_spec lossless_settings
      side side 3 0 (Some DD97) sample_planes = Some r
    ∧ r_lift r = 2%nat
    ∧ r_target_w r = 2%nat ∧ r_target_h r = 2%nat
    ∧ length (st_log (r_state r)) = (3 * (side * side + 2))%nat
    ∧ r_cursor r
      = padd out_ (Z.of_nat (TileTotalLength_spec side side * 3)
                   - Z.of_nat (3 * (side * side + 2))).
Proof.
  apply (dwt_power_of_two_tile TileTotalLength_spec TileTotalLifts_spec
           lossless_settings 3 0 2 DD97 sample_planes).
  intros ch. reflexivity.
Defined.

(** ** The grid that the loop of the decoder walks *)

Lemma whole_tiles_le_across side tile_size :
  (side / tile_size ≤ tiles_across side tile_size)%nat.
Proof. unfold tiles_across. destruct (_ =? 0)%nat; lia. Qed.

Lemma fits_iff_whole side tile_size b :
  (0 < tile_size)%nat →
  (b * tile_size + tile_size ≤ side)%nat ↔ (b < side / tile_size)%nat.
Proof.
  intros Hts. split.
  - intros Hle. apply Nat.div_le_lower_bound; lia.
  - intros Hlt. pose proof (Nat.Div0.mul_div_le side tile_size). nia.
Qed.

Lemma pixel_column_in_grid side tile_size c :
  (0 < tile_size)%nat → (c < side)%nat →
  (c / tile_size < tiles_across side tile_size)%nat.
Proof.
  intros Hts Hc.
  destruct (decide (c / tile_size < tiles_across side tile_size)%nat)
    as [|Hge]; [done|].
  assert (side ≤ (c / tile_size - 1 + 1) * tile_size)%nat as Hside.
  { apply tiles_across_spec; [done|]. lia. }
  pose proof (Nat.div_mod_eq c tile_size).
  pose proof (Nat.mod_upper_bound c tile_size ltac:(lia)).
  assert (0 < tiles_across side tile_size)%nat.
  { unfold tiles_across. destruct (Nat.eqb_spec (side `mod` tile_size) 0);
      [|lia].
    pose proof (Nat.div_mod_eq side tile_size).
    destruct (side / tile_size)%nat; [lia|lia]. }
  nia.
Qed.

Lemma cell_in_image side tile_size b :
  (0 < tile_size)%nat → (b < tiles_across side tile_size)%nat →
  (b * tile_size < side)%nat.
Proof.
  intros Hts Hb.
  destruct (decide (b * tile_size < side)%nat) as [|Hge]; [done|].
  destruct b as [|b]; [|].
  - assert (side = 0)%nat as -> by lia.
    unfold tiles_across in Hb. rewrite Nat.Div0.mod_0_l in Hb. cbn in Hb.
    rewrite Nat.Div0.div_0_l in Hb. lia.
  - assert (tiles_across side tile_size ≤ b + 1)%nat as Hle.
    { apply tiles_across_spec; [done|]. lia. }
    lia.
Qed.

Section GridFacts.
Variables width height channels tiles_size : nat.
Variable payload : nat → Z.
Variable pixel_of : list Z → nat → nat → nat → Z.
Hypothesis tiles_size_pos : (0 < tiles_size)%nat.

(** X14: the [sTilesNo] turns of the loop walk a grid that covers the
    image and no more: the cell of every turn starts inside the image,
    and every pixel lies in the cell of exactly one turn. *)
Theorem decoder_grid_covers_image :
  let after :=
    decoder_after width height channels tiles_size payload pixel_of in
  (∀ i, (i < sTilesNo width height tiles_size)%nat →
     (d_col (after i) < width)%nat ∧ (d_row (after i) < height)%nat)
  ∧ (∀ R C, (R < height)%nat → (C < width)%nat →
     ∃ i, (i < sTilesNo width height tiles_size)%nat
          ∧ (d_col (after i) ≤ C < d_col (after i) + tiles_size)%nat
          ∧ (d_row (after i) ≤ R < d_row (after i) + tiles_size)%nat
          ∧ ∀ j, (j < sTilesNo width height tiles_size)%nat →
                 (d_col (after j) ≤ C < d_col (after j) + tiles_size)%nat →
                 (d_row (after j) ≤ R < d_row (after j) + tiles_size)%nat →
                 j = i).
Proof.
  intros after.
  set (gw := tiles_across width tiles_size).
  set (gh := tiles_across height tiles_size).
  assert (Hpos : ∀ i, (i < sTilesNo width height tiles_size)%nat →
            d_col (after i) = (i `mod` gw * tiles_size)%nat
            ∧ d_row (after i) = (i / gw * tiles_size)%nat
            ∧ (0 < gw)%nat ∧ (i `mod` gw < gw)%nat ∧ (i / gw < gh)%nat).
  { intros i Hi.
    destruct (decoder_after_position width height channels tiles_size
                payload pixel_of tiles_size_pos i ltac:(lia))
      as (Hc & Hr & _).
    pose proof (tiles_across_pos width height tiles_size tiles_size_pos
                  i Hi) as Hgw.
    fold gw in Hgw. rewrite (sTilesNo_grid width height tiles_size) in Hi.
    fold gw gh in Hi.
    split_and!; [done|done|done|by apply Nat.mod_upper_bound; lia|].
    apply Nat.Div0.div_lt_upper_bound. lia. }
  split.
  - intros i Hi. destruct (Hpos i Hi) as (-> & -> & _ & Hb & Ha).
    split; by apply cell_in_image.
  - intros R C HR HC.
    pose proof (pixel_column_in_grid width tiles_size C tiles_size_pos HC)
      as Hb.
    pose proof (pixel_column_in_grid height tiles_size R tiles_size_pos HR)
      as Ha.
    fold gw in Hb. fold gh in Ha.
    set (a := (R / tiles_size)%nat) in *.
    set (b := (C / tiles_size)%nat) in *.
    assert (Hi : (a * gw + b < sTilesNo width height tiles_size)%nat).
    { rewrite (sTilesNo_grid width height tiles_size). fold gw gh. nia. }
    assert (Hmod : ((a * gw + b) `mod` gw = b)%nat).
    { rewrite Nat.add_comm, Nat.Div0.mod_add. by apply Nat.mod_small. }
    assert (Hdiv : ((a * gw + b) / gw = a)%nat).
    { rewrite Nat.add_comm, Nat.div_add by lia.
      rewrite Nat.div_small by done. done. }
    pose proof (Nat.div_mod_eq R tiles_size).
    pose proof (Nat.mod_upper_bound R tiles_size ltac:(lia)).
    pose proof (Nat.div_mod_eq C tiles_size).
    pose proof (Nat.mod_upper_bound C tiles_size ltac:(lia)).
    exists (a * gw + b)%nat.
    destruct (Hpos _ Hi) as (Hc & Hr & _).
    rewrite Hc, Hr, Hmod, Hdiv. split_and!; [done|lia..|].
    intros j Hj. destruct (Hpos j Hj) as (-> & -> & Hgw & Hjb & Hja).
    intros HjC HjR.
    assert (j `mod` gw = b)%nat as Hjb'.
    { unfold b.
      apply (Nat.div_unique C tiles_size _ (C - j `mod` gw * tiles_size));
        lia. }
    assert (j / gw = a)%nat as Hja'.
    { unfold a.
      apply (Nat.div_unique R tiles_size _ (R - j / gw * tiles_size)); lia. }
    pose proof (Nat.div_mod_eq j gw). nia.
Qed.

(** The number of whole tiles among the first [i] cells. *)
Lemma full_before_count i :
  (i ≤ sTilesNo width height tiles_size)%nat →
  let gw := tiles_across width tiles_size in
  let fw := (width / tiles_size)%nat in
  let fh := (height / tiles_size)%nat in
  full_before width height tiles_size i
  = (fw * Nat.min (i / gw) fh
     + if (i / gw <? fh)%nat then Nat.min (i `mod` gw) fw else 0)%nat.
Proof.
  intros Hi gw fw fh.
  pose proof (whole_tiles_le_across width tiles_size) as Hfw.
  fold gw fw in Hfw.
  induction i as [|i IH].
  - unfold full_before. cbn [seq filter list_filter length].
    rewrite Nat.Div0.div_0_l, Nat.Div0.mod_0_l, !Nat.min_0_l.
    destruct (0 <? fh)%nat; lia.
  - rewrite full_before_S, IH by (done || lia).
    pose proof (tiles_across_pos width height tiles_size tiles_size_pos
                  i ltac:(lia)) as Hgw.
    fold gw in Hgw.
    pose proof (next_cell gw i Hgw) as Hnext.
    pose proof (Nat.mod_upper_bound i gw ltac:(lia)) as Hmod.
    assert (Hpart :
      tile_is_partial width height tiles_size (cell_col width tiles_size i)
        (cell_row width tiles_size i)
      = negb ((i `mod` gw <? fw)%nat && (i / gw <? fh)%nat)).
    { unfold tile_is_partial, cell_col, cell_row. fold gw.
      pose proof (fits_iff_whole width tiles_size (i `mod` gw) tiles_size_pos).
      pose proof (fits_iff_whole height tiles_size (i / gw) tiles_size_pos).
      fold fw in H. fold fh in H0.
      destruct (Nat.ltb_spec width (i `mod` gw * tiles_size + tiles_size)),
        (Nat.ltb_spec height (i / gw * tiles_size + tiles_size)),
        (Nat.ltb_spec (i `mod` gw) fw), (Nat.ltb_spec (i / gw) fh);
        cbn; lia. }
    rewrite Hpart.
    destruct (decide (i `mod` gw + 1 = gw)%nat) as [Hl|Hl];
      destruct Hnext as [-> ->];
      destruct (Nat.ltb_spec (i `mod` gw) fw), (Nat.ltb_spec (i / gw) fh),
        (Nat.ltb_spec (i / gw + 1) fh); cbn [negb andb]; nia.
Qed.

(** X15: the loop consumes [tile_memory_size] bytes of the payload for
    every whole tile of the image and nothing for the others:
    [(width / tiles_size) * (height / tiles_size)] chunks in all. *)
Theorem AkoDecode_consumes_whole_tiles :
  d_blob (AkoDecode width height channels tiles_size payload pixel_of)
  = (tile_memory_size channels tiles_size
     * (width / tiles_size * (height / tiles_size)))%nat.
Proof.
  destruct (decoder_after_position width height channels tiles_size payload
              pixel_of tiles_size_pos (sTilesNo width height tiles_size)
              (le_n _)) as (_ & _ & Hblob).
  unfold AkoDecode. unfold decoder_after in Hblob. rewrite Hblob. f_equal.
  rewrite full_before_count by done. cbn zeta.
  pose proof (whole_tiles_le_across height tiles_size) as Hfh.
  pose proof (whole_tiles_le_across width tiles_size) as Hfw.
  rewrite (sTilesNo_grid width height tiles_size).
  set (gw := tiles_across width tiles_size) in *.
  set (gh := tiles_across height tiles_size) in *.
  destruct (decide (gw = 0)%nat) as [H0|H0].
  - rewrite H0 in Hfw |- *. cbn [Nat.mul].
    rewrite Nat.Div0.div_0_l, Nat.Div0.mod_0_l.
    destruct (0 <? _)%nat; lia.
  - rewrite (Nat.mul_comm gw gh).
    rewrite Nat.div_mul, Nat.Div0.mod_mul by done.
    rewrite Nat.min_0_l.
    destruct (_ <? _)%nat; lia.
Qed.

End GridFacts.

Lemma decoder_grid_covers_image_witness :
  let after := decoder_after 5 4 1 2 sample_payload sample_pixel_of in
  (∀ i, (i < sTilesNo 5 4 2)%nat →
     (d_col (after i) < 5)%nat ∧ (d_row (after i) < 4)%nat)
  ∧ (∀ R C, (R < 4)%nat → (C < 5)%nat →
     ∃ i, (i < sTilesNo 5 4 2)%nat
          ∧ (d_col (after i) ≤ C < d_col (after i) + 2)%nat
          ∧ (d_row (after i) ≤ R < d_row (after i) + 2)%nat
          ∧ ∀ j, (j < sTilesNo 5 4 2)%nat →
                 (d_col (after j) ≤ C < d_col (after j) + 2)%nat →
                 (d_row (after j) ≤ R < d_row (after j) + 2)%nat →
                 j = i).
Proof.
  apply (decoder_grid_covers_image 5 4 1 2 sample_payload sample_pixel_of).
  lia.
Defined.

Lemma AkoDecode_consumes_whole_tiles_witness :
  d_blob (AkoDecode 5 4 1 2 sample_payload sample_pixel_of)
  = (tile_memory_size 1 2 * (5 / 2 * (4 / 2)))%nat.
Proof.
  apply (AkoDecode_consumes_whole_tiles 5 4 1 2 sample_payload
           sample_pixel_of).
  lia.
Defined.

(** ** Stores and copies *)

Lemma store_list_frame m p l q :
  q ∉ ptr_range p (length l) → load (store_list m p l) q = load m q.
Proof.
  revert m p. induction l as [|v l IH]; intros m p Hq; [done|].
  cbn [length] in Hq. rewrite ptr_range_S in Hq.
  apply not_elem_of_cons in Hq as [Hne Hq].
  cbn [store_list]. rewrite IH by done. by apply load_store_ne.
Qed.

Lemma store_list_content m p l :
  load (store_list m p l) <$> ptr_range p (length l) = l.
Proof.
  revert m p. induction l as [|v l IH]; intros m p; [done|].
  cbn [length store_list]. rewrite ptr_range_S, fmap_cons, IH. f_equal.
  rewrite store_list_frame; [apply load_store_eq|].
  rewrite elem_of_ptr_range. unfold padd. cbn [p_reg p_off]. lia.
Qed.

Lemma padd_inj p a b : padd p a = padd p b → a = b.
Proof. unfold padd. intros Heq. injection Heq. lia. Qed.

Lemma copy_strided_frame n m dst dstep src sstep q :
  (∀ i, (i < n)%nat → q ≠ padd dst (Z.of_nat i * dstep)) →
  load (copy_strided n m dst dstep src sstep) q = load m q.
Proof.
  revert m dst src. induction n as [|n IH]; intros m dst src Hq; [done|].
  cbn [copy_strided]. rewrite IH.
  - apply load_store_ne. specialize (Hq 0%nat ltac:(lia)).
    by rewrite Z.mul_0_l, padd_0 in Hq.
  - intros i Hi. specialize (Hq (S i) ltac:(lia)).
    rewrite padd_padd.
    by replace (dstep + Z.of_nat i * dstep) with (Z.of_nat (S i) * dstep)
      by lia.
Qed.

(** A copy whose sources are none of its destinations. *)
Lemma copy_strided_content n m dst dstep src sstep i :
  dstep ≠ 0 →
  (∀ j j', (j < n)%nat → (j' < n)%nat →
     padd src (Z.of_nat j * sstep) ≠ padd dst (Z.of_nat j' * dstep)) →
  (i < n)%nat →
  load (copy_strided n m dst dstep src sstep) (padd dst (Z.of_nat i * dstep))
  = load m (padd src (Z.of_nat i * sstep)).
Proof.
  intros Hstep. revert m dst src i.
  induction n as [|n IH]; intros m dst src i Hsd Hi; [lia|].
  cbn [copy_strided]. destruct i as [|i].
  - rewrite !Z.mul_0_l, !padd_0. rewrite copy_strided_frame.
    + apply load_store_eq.
    + intros j Hj. rewrite padd_padd. intros Heq.
      rewrite <- (padd_0 dst) in Heq at 1. apply padd_inj in Heq. nia.
  - replace (padd dst (Z.of_nat (S i) * dstep))
      with (padd (padd dst dstep) (Z.of_nat i * dstep))
      by (rewrite padd_padd; f_equal; lia).
    rewrite IH; [| |lia].
    + rewrite padd_padd.
      replace (sstep + Z.of_nat i * sstep) with (Z.of_nat (S i) * sstep)
        by lia.
      apply load_store_ne. specialize (Hsd (S i) 0%nat ltac:(lia) ltac:(lia)).
      by rewrite Z.mul_0_l, padd_0 in Hsd.
    + intros j j' Hj Hj'. rewrite !padd_padd.
      specialize (Hsd (S j) (S j') ltac:(lia) ltac:(lia)).
      by replace (sstep + Z.of_nat j * sstep) with (Z.of_nat (S j) * sstep)
           by lia;
         replace (dstep + Z.of_nat j' * dstep) with (Z.of_nat (S j') * dstep)
           by lia.
Qed.

Lemma apart_ne p n p' n' i j :
  apart p n p' n' → (i < n)%nat → (j < n')%nat →
  padd p (Z.of_nat i) ≠ padd p' (Z.of_nat j).
Proof.
  unfold apart, padd. intros Hap Hi Hj Heq. injection Heq as Hr Ho.
  destruct Hap as [Hap|[Hap|Hap]]; [done|lia|lia].
Qed.

Lemma region_ne p p' a b : p_reg p ≠ p_reg p' → padd p a ≠ padd p' b.
Proof. unfold padd. intros Hne Heq. by injection Heq. Qed.

Section KernelOnMemory.
Context {F : Type} `{FloatOps F}.

Lemma sLift1d_mem_Some k q (g : F) len inp out m m' :
  sLift1d_mem k q g len inp out m = Some m' →
  ∃ r, sLift1d k q g len (mem_reader m inp) = Some r
       ∧ length r = (len * 2)%nat ∧ m' = store_list m out r.
Proof.
  unfold sLift1d_mem. intros Hm.
  destruct (sLift1d k q g len (mem_reader m inp)) as [r|] eqn:Hr; [|done].
  injection Hm as <-. exists r. split_and!; [done| |done].
  apply sLift1d_length in Hr. lia.
Qed.

(** The kernel on the cells at [inp] is the kernel on the list of their
    values. *)
Lemma sLift1d_of_cells k q (g : F) len inp m (l : list Z) :
  k = Haar ∨ len ≠ 1%nat →
  load m <$> ptr_range inp (len * 2) = l →
  sLift1d k q g len (mem_reader m inp) = sLift1d k q g len (list_reader l).
Proof.
  intros Hk <-. apply sLift1d_ext; [done|].
  intros j Hj. unfold mem_reader, list_reader, ptr_range.
  rewrite !list_lookup_fmap, lookup_seq_lt by lia. done.
Qed.

End KernelOnMemory.

(** ** The row pass *)

Lemma list_fmap_seq_ext {A} (f g : nat → A) n :
  (∀ i, (i < n)%nat → f i = g i) → f <$> seq 0 n = g <$> seq 0 n.
Proof.
  intros Hfg. apply list_fmap_ext. intros j i Hi.
  apply lookup_seq in Hi as [-> Hi]. by apply Hfg.
Qed.

Lemma padded_row_ext m m' inp cw tw :
  (tw * 2 = cw ∨ tw * 2 = cw + 1)%nat →
  (∀ i, (i < cw)%nat →
     load m' (padd inp (Z.of_nat i)) = load m (padd inp (Z.of_nat i))) →
  padded_row m' inp cw tw = padded_row m inp cw tw.
Proof.
  intros Hw Hm. unfold padded_row. apply list_fmap_seq_ext.
  intros i Hi. apply Hm. lia.
Qed.

Lemma row_of_ext m m' p r tw :
  (∀ q, q ∈ ptr_range (padd p (Z.of_nat (r * (tw * 2)))) (tw * 2) →
        load m' q = load m q) →
  row_of m' p r tw = row_of m p r tw.
Proof. intros Hm. unfold row_of. by apply fmap_load_frame. Qed.

Section RowPass.
Context {F : Type} `{FloatOps F}.
Variables (k : kernel) (q : Z) (g : F).
Variables (cw tw pitch : nat) (aux : ptr).

Hypothesis kernel_has_its_samples : k = Haar ∨ tw ≠ 1%nat.
Hypothesis width_rounded_up : (tw * 2 = cw ∨ tw * 2 = cw + 1)%nat.

(** What [aux] holds when the kernel is called on a row. *)
Lemma row_in_aux m inp :
  p_reg aux ≠ p_reg inp →
  let m1 := copy_strided cw m aux 1 inp 1 in
  let m2 := if size_sub (tw * 2) cw =? 0 then m1
            else store m1 (padd aux (Z.of_nat (tw * 2) - 1))
                       (load m1 (padd inp (Z.of_nat cw - 1))) in
  load m2 <$> ptr_range aux (tw * 2) = padded_row m inp cw tw
  ∧ (∀ p, p ∉ ptr_range aux (tw * 2) → load m2 p = load m p).
Proof.
  intros Hreg m1 m2.
  assert (Hc1 : ∀ i, (i < cw)%nat →
            load m1 (padd aux (Z.of_nat i)) = load m (padd inp (Z.of_nat i))).
  { intros i Hi. unfold m1.
    rewrite <- (Z.mul_1_r (Z.of_nat i)).
    apply copy_strided_content; [done| |done].
    intros j j' _ _. apply not_eq_sym. by apply region_ne. }
  assert (Hf1 : ∀ p, p ∉ ptr_range aux (tw * 2) → load m1 p = load m p).
  { intros p Hp. unfold m1. apply copy_strided_frame.
    intros i Hi ->. apply Hp. rewrite elem_of_ptr_range.
    unfold padd. cbn [p_reg p_off]. split; [done|lia]. }
  assert (Hin : ∀ i, load m1 (padd inp i) = load m (padd inp i)).
  { intros i. apply Hf1. apply not_elem_of_ptr_range_region.
    unfold padd. cbn [p_reg]. by apply not_eq_sym. }
  unfold m2, size_sub. destruct width_rounded_up as [Hw|Hw].
  - replace (Z.of_nat (tw * 2) - Z.of_nat cw) with 0 by lia.
    cbn [Z.modulo Z.div_eucl Z.eqb]. split; [|done].
    unfold ptr_range, padded_row. rewrite <- list_fmap_compose.
    apply list_fmap_seq_ext. intros i Hi. cbn [compose].
    rewrite Hc1 by lia. do 2 f_equal. lia.
  - replace (Z.of_nat (tw * 2) - Z.of_nat cw) with 1 by lia.
    change (1 `mod` 2 ^ 64 =? 0) with false. cbn iota. split.
    + unfold ptr_range, padded_row. rewrite <- list_fmap_compose.
      apply list_fmap_seq_ext. intros i Hi. cbn [compose].
      destruct (decide (i = cw)) as [->|Hne].
      * replace (Z.of_nat (tw * 2) - 1) with (Z.of_nat cw) by lia.
        rewrite load_store_eq, Hin. do 2 f_equal. lia.
      * rewrite load_store_ne.
        2: { intros Heq%padd_inj. lia. }
        rewrite Hc1 by lia. do 2 f_equal. lia.
    + intros p Hp. rewrite load_store_ne; [by apply Hf1|].
      intros ->. apply Hp. rewrite elem_of_ptr_range.
      unfold padd. cbn [p_reg p_off]. split; [done|lia].
Qed.

Lemma lift_rows_spec rows inp out m m' out' :
  p_reg aux ≠ p_reg inp → p_reg aux ≠ p_reg out →
  apart inp (rows * (cw + pitch)) out (rows * (tw * 2)) →
  lift_rows k q g cw tw pitch aux rows inp out m = Some (m', out') →
  out' = padd out (Z.of_nat (rows * (tw * 2)))
  ∧ (∀ r, (r < rows)%nat →
       sLift1d k q g tw
         (list_reader
            (padded_row m (padd inp (Z.of_nat (r * (cw + pitch)))) cw tw))
       = Some (row_of m' out r tw))
  ∧ (∀ p, p ∉ ptr_range aux (tw * 2) →
          p ∉ ptr_range out (rows * (tw * 2)) →
          load m' p = load m p).
Proof.
  intros Hai Hao. revert inp out m Hai Hao.
  induction rows as [|rows IH]; intros inp out m Hai Hao Hap Hrun.
  - cbn in Hrun. injection Hrun as <- <-.
    split_and!; [by rewrite padd_0|lia|done].
  - cbn [lift_rows] in Hrun.
    destruct (row_in_aux m inp Hai) as [Haux Hf2].
    cbn zeta in Haux, Hf2.
    set (m2 := if size_sub (tw * 2) cw =? 0
               then copy_strided cw m aux 1 inp 1
               else store (copy_strided cw m aux 1 inp 1)
                      (padd aux (Z.of_nat (tw * 2) - 1))
                      (load (copy_strided cw m aux 1 inp 1)
                         (padd inp (Z.of_nat cw - 1)))) in *.
    destruct (sLift1d_mem k q g tw aux out m2) as [m3|] eqn:Hk; [|done].
    cbn [mbind option_bind] in Hrun.
    apply sLift1d_mem_Some in Hk as (R & HR & HlenR & ->).
    rewrite (sLift1d_of_cells k q g tw aux m2 _ kernel_has_its_samples Haux)
      in HR.
    set (m3 := store_list m2 out R) in *.
    assert (Hf3 : ∀ p, p ∉ ptr_range aux (tw * 2) →
              p ∉ ptr_range out (tw * 2) → load m3 p = load m p).
    { intros p Hpa Hpo. unfold m3.
      rewrite store_list_frame by (by rewrite HlenR). by apply Hf2. }
    destruct (IH (padd inp (Z.of_nat (cw + pitch)))
                (padd out (Z.of_nat (tw * 2))) m3)
      as (Hout & Hrows & Hframe); [done|done| |done|].
    { unfold apart, padd in *. cbn [p_reg p_off].
      destruct Hap as [Hap|[Hap|Hap]]; [by left|right; left; lia|
                                         right; right; lia]. }
    assert (Hsub : ∀ p, p ∉ ptr_range out (S rows * (tw * 2)) →
              (p ∉ ptr_range out (tw * 2))
              ∧ (p ∉ ptr_range (padd out (Z.of_nat (tw * 2)))
                     (rows * (tw * 2)))).
    { intros p Hp. split; intros Hin; apply Hp;
        apply elem_of_ptr_range in Hin as [Hreg Hoff];
        apply elem_of_ptr_range;
        unfold padd in *; cbn [p_reg p_off] in *; (split; [done|lia]). }
    assert (Hcells : ∀ r c, (r < S rows)%nat → (c < cw)%nat →
              load m3 (padd inp (Z.of_nat (r * (cw + pitch) + c)))
              = load m (padd inp (Z.of_nat (r * (cw + pitch) + c)))).
    { intros r c Hr Hc. apply Hf3.
      - apply not_elem_of_ptr_range_region. unfold padd. cbn [p_reg].
        by apply not_eq_sym.
      - intros Hin. apply elem_of_ptr_range in Hin as [Hreg Hoff].
        unfold apart, padd in *. cbn [p_reg p_off] in *.
        destruct Hap as [Hap|[Hap|Hap]]; [done|nia|nia]. }
    split_and!.
    + rewrite Hout, padd_padd. f_equal. lia.
    + intros r Hr. destruct r as [|r].
      * cbn [Nat.mul Z.of_nat]. rewrite padd_0, HR. f_equal.
        unfold row_of. cbn [Nat.mul Z.of_nat]. rewrite padd_0.
        rewrite <- (store_list_content m2 out R) at 1. rewrite HlenR.
        symmetry. apply fmap_load_frame. intros p Hp. apply Hframe.
        -- apply not_elem_of_ptr_range_region.
           apply elem_of_ptr_range in Hp as [-> _]. by apply not_eq_sym.
        -- intros Hin. apply elem_of_ptr_range in Hp, Hin.
           unfold padd in *. cbn [p_reg p_off] in *. lia.
      * specialize (Hrows r ltac:(lia)).
        rewrite !padd_padd in Hrows.
        replace (Z.of_nat (cw + pitch) + Z.of_nat (r * (cw + pitch)))
          with (Z.of_nat (S r * (cw + pitch))) in Hrows by lia.
        rewrite (padded_row_ext m m3) in Hrows; [|done|].
        2: { intros i Hi. rewrite !padd_padd.
             rewrite <- !Nat2Z.inj_add. by apply Hcells. }
        rewrite Hrows. f_equal. unfold row_of. rewrite padd_padd.
        do 3 f_equal. lia.
    + intros p Hpa Hpo. destruct (Hsub p Hpo) as [Hp1 Hp2].
      rewrite Hframe by done. by apply Hf3.
Qed.

End RowPass.

(** ** The column pass *)

Lemma column_of_ext m m' p col tw th :
  (∀ i, (i < th * 2)%nat →
     load m' (padd p (Z.of_nat (col + i * (tw * 2))))
     = load m (padd p (Z.of_nat (col + i * (tw * 2))))) →
  column_of m' p col tw th = column_of m p col tw th.
Proof. intros Hm. unfold column_of. by apply list_fmap_seq_ext. Qed.

Lemma same_column col col' i i' n :
  (col < n)%nat → (col' < n)%nat →
  (col + i * n = col' + i' * n)%nat → col = col' ∧ i = i'.
Proof.
  intros Hc Hc' Heq.
  assert (i * n + col = i' * n + col')%nat as Heq' by lia.
  apply mixed_radix_inj in Heq' as [-> ->]; done.
Qed.

Section ColumnPass.
Context {F : Type} `{FloatOps F}.
Variables (k : kernel) (q : Z) (g : F).
Variables (tw th : nat) (aux a b : ptr).

Hypothesis kernel_has_its_samples : k = Haar ∨ th ≠ 1%nat.
Hypothesis aux_a : p_reg aux ≠ p_reg a.
Hypothesis aux_b : p_reg aux ≠ p_reg b.
Hypothesis a_b : apart a (tw * 2 * (th * 2)) b (tw * 2 * (th * 2)).

(** One turn of the loop over the columns. *)
Lemma lift_column col m m' :
  (col < tw * 2)%nat →
  lift_cols k q g tw th aux a b [col] m = Some m' →
  sLift1d k q g th (list_reader (column_of m b col tw th))
  = Some (column_of m' a col tw th)
  ∧ (∀ p, p ∉ ptr_range aux (th * 4) →
          (∀ i, (i < th * 2)%nat →
                p ≠ padd a (Z.of_nat (col + i * (tw * 2)))) →
          load m' p = load m p).
Proof.
  intros Hcol Hrun. cbn [lift_cols] in Hrun.
  set (m1 := copy_strided (th * 2) m aux 1 (padd b (Z.of_nat col))
               (Z.of_nat (tw * 2))) in *.
  assert (Haux : load m1 <$> ptr_range aux (th * 2)
                 = column_of m b col tw th).
  { unfold ptr_range, column_of. rewrite <- list_fmap_compose.
    apply list_fmap_seq_ext. intros i Hi. cbn [compose]. unfold m1.
    rewrite <- (Z.mul_1_r (Z.of_nat i)).
    rewrite copy_strided_content; [|done| |done].
    - rewrite padd_padd. do 2 f_equal. lia.
    - intros j j' _ _. rewrite padd_padd. apply not_eq_sym.
      by apply region_ne. }
  assert (Hf1 : ∀ p, p ∉ ptr_range aux (th * 4) → load m1 p = load m p).
  { intros p Hp. unfold m1. apply copy_strided_frame.
    intros i Hi ->. apply Hp. rewrite elem_of_ptr_range.
    unfold padd. cbn [p_reg p_off]. split; [done|lia]. }
  destruct (sLift1d_mem k q g th aux (padd aux (Z.of_nat (th * 2))) m1)
    as [m2|] eqn:Hk; [|done].
  cbn [mbind option_bind] in Hrun. injection Hrun as <-.
  apply sLift1d_mem_Some in Hk as (R & HR & HlenR & ->).
  rewrite (sLift1d_of_cells k q g th aux m1 _ kernel_has_its_samples Haux)
    in HR.
  set (m2 := store_list m1 (padd aux (Z.of_nat (th * 2))) R) in *.
  assert (Hf2 : ∀ p, p ∉ ptr_range aux (th * 4) → load m2 p = load m p).
  { intros p Hp. unfold m2. rewrite store_list_frame; [by apply Hf1|].
    rewrite HlenR. intros Hin. apply Hp.
    apply elem_of_ptr_range in Hin as [Hreg Hoff].
    apply elem_of_ptr_range. unfold padd in *. cbn [p_reg p_off] in *.
    split; [done|lia]. }
  split.
  - rewrite HR. f_equal.
    rewrite <- (store_list_content m1 (padd aux (Z.of_nat (th * 2))) R).
    fold m2. rewrite HlenR. unfold ptr_range, column_of.
    rewrite <- list_fmap_compose. apply list_fmap_seq_ext.
    intros i Hi. cbn [compose].
    replace (padd a (Z.of_nat (col + i * (tw * 2))))
      with (padd (padd a (Z.of_nat col)) (Z.of_nat i * Z.of_nat (tw * 2)))
      by (rewrite padd_padd; f_equal; lia).
    rewrite copy_strided_content; [|lia| |done].
    + by rewrite Z.mul_1_r.
    + intros j j' _ _. rewrite !padd_padd. by apply region_ne.
  - intros p Hpa Hp. rewrite copy_strided_frame; [by apply Hf2|].
    intros i Hi. rewrite padd_padd.
    replace (Z.of_nat col + Z.of_nat i * Z.of_nat (tw * 2))
      with (Z.of_nat (col + i * (tw * 2))) by lia.
    by apply Hp.
Qed.

Lemma lift_cols_cons col cols m :
  lift_cols k q g tw th aux a b (col :: cols) m
  = lift_cols k q g tw th aux a b [col] m
    ≫= lift_cols k q g tw th aux a b cols.
Proof.
  cbn [lift_cols].
  by destruct (sLift1d_mem k q g th aux (padd aux (Z.of_nat (th * 2))) _).
Qed.

Lemma lift_cols_spec cols m m' :
  NoDup cols → (∀ col, col ∈ cols → (col < tw * 2)%nat) →
  lift_cols k q g tw th aux a b cols m = Some m' →
  (∀ col, col ∈ cols →
     sLift1d k q g th (list_reader (column_of m b col tw th))
     = Some (column_of m' a col tw th))
  ∧ (∀ p, p ∉ ptr_range aux (th * 4) →
          (∀ col i, col ∈ cols → (i < th * 2)%nat →
                    p ≠ padd a (Z.of_nat (col + i * (tw * 2)))) →
          load m' p = load m p).
Proof.
  intros Hnd. revert m. induction Hnd as [|col cols Hnotin Hnd IH];
    intros m Hlt Hrun.
  - cbn in Hrun. injection Hrun as <-. split; [|done].
    intros col Hin. by apply not_elem_of_nil in Hin.
  - rewrite lift_cols_cons in Hrun.
    destruct (lift_cols k q g tw th aux a b [col] m) as [m3|] eqn:Hone;
      [|done].
    cbn [mbind option_bind] in Hrun.
    assert (Hcol : (col < tw * 2)%nat) by (apply Hlt; left).
    destruct (lift_column col m m3 Hcol Hone) as [Hc3 Hf3].
    destruct (IH m3) as [Hcs Hfs]; [|done|].
    { intros col' Hin. apply Hlt. by right. }
    assert (Hacell : ∀ c i, padd a (Z.of_nat (c + i * (tw * 2)))
                            ∉ ptr_range aux (th * 4)).
    { intros c i. apply not_elem_of_ptr_range_region.
      unfold padd. cbn [p_reg]. by apply not_eq_sym. }
    assert (Hbcell : ∀ c i, padd b (Z.of_nat (c + i * (tw * 2)))
                            ∉ ptr_range aux (th * 4)).
    { intros c i. apply not_elem_of_ptr_range_region.
      unfold padd. cbn [p_reg]. by apply not_eq_sym. }
    split.
    + intros col' Hin. apply elem_of_cons in Hin as [->|Hin].
      * rewrite Hc3. f_equal. symmetry. apply column_of_ext.
        intros i Hi. apply Hfs; [apply Hacell|].
        intros col' i' Hin' Hi' Heq%padd_inj.
        apply Nat2Z.inj in Heq.
        apply same_column in Heq as [-> _]; [done|done|].
        apply Hlt. by right.
      * rewrite <- (Hcs col' Hin). do 2 f_equal. symmetry.
        apply column_of_ext. intros i Hi. apply Hf3; [apply Hbcell|].
        intros i' Hi'. apply not_eq_sym.
        assert (col' < tw * 2)%nat by (apply Hlt; by right).
        apply apart_ne with (n := (tw * 2 * (th * 2))%nat)
                            (n' := (tw * 2 * (th * 2))%nat); [done|nia|nia].
    + intros p Hpa Hp. rewrite Hfs; [apply Hf3; [done|]|done|].
      * intros i Hi. apply Hp; [left|done].
      * intros col' i Hin Hi. apply Hp; [by right|done].
Qed.

End ColumnPass.

(** ** The two passes together *)

Lemma row_of_lookup m p r tw col :
  (col < tw * 2)%nat →
  row_of m p r tw !! col
  = Some (load m (padd p (Z.of_nat (col + r * (tw * 2))))).
Proof.
  intros Hcol. unfold row_of, ptr_range.
  rewrite !list_lookup_fmap, lookup_seq_lt by done. cbn.
  rewrite padd_padd. do 3 f_equal. lia.
Qed.

Lemma apart_shrink p n p' n' k k' :
  apart p n p' n' → (k ≤ n)%nat → (k' ≤ n')%nat → apart p k p' k'.
Proof.
  unfold apart. intros [Hap|[Hap|Hap]] Hk Hk';
    [by left|right; left; lia|right; right; lia].
Qed.

Section TwoPasses.
Context {F : Type} `{FloatOps F}.
Variables (k : kernel) (q : Z) (g : F).
Variables (cw chh tw th pitch : nat) (aux a b : ptr).

Hypothesis target_w_not_1 : tw ≠ 1%nat.
Hypothesis target_h_not_1 : th ≠ 1%nat.
Hypothesis step_not_0 : q ≠ 0.
Hypothesis width_rounded_up : (tw * 2 = cw ∨ tw * 2 = cw + 1)%nat.
Hypothesis height_rounded_up : (th * 2 = chh ∨ th * 2 = chh + 1)%nat.
Hypothesis aux_a : p_reg aux ≠ p_reg a.
Hypothesis aux_b : p_reg aux ≠ p_reg b.
Hypothesis a_b :
  apart a (Nat.max (chh * (cw + pitch)) (tw * 2 * (th * 2)))
        b (tw * 2 * (th * 2)).

(** The rows of B after the row pass and the copy of the last row. *)
Lemma sLift2d_spec m :
  ∃ m' (rows : nat → list Z),
    sLift2d k q g cw chh tw th pitch aux a b m = Some m'
    ∧ (∀ r, (r < chh)%nat →
         sLift1d k q g tw
           (list_reader
              (padded_row m (padd a (Z.of_nat (r * (cw + pitch)))) cw tw))
         = Some (rows r))
    ∧ (∀ col, (col < tw * 2)%nat →
         sLift1d k q g th
           (list_reader
              ((λ i, default 0 (rows (Nat.min i (chh - 1)) !! col))
                 <$> seq 0 (th * 2)))
         = Some (column_of m' a col tw th))
    ∧ (∀ p, p ∉ ptr_range aux (Nat.max (tw * 2) (th * 4)) →
            p ∉ ptr_range a (tw * 2 * (th * 2)) →
            p ∉ ptr_range b (tw * 2 * (th * 2)) →
            load m' p = load m p).
Proof.
  destruct (sLift2d_is_Some k q g cw chh tw th pitch aux a b m
              target_w_not_1 target_h_not_1 step_not_0) as [m' Hrun].
  exists m'. pose proof Hrun as Hrun0. unfold sLift2d in Hrun.
  destruct (lift_rows k q g cw tw pitch aux chh a b m) as [[m1 out]|] eqn:Hr;
    [|done].
  cbn [mbind option_bind] in Hrun.
  destruct (lift_rows_spec k q g cw tw pitch aux (or_intror target_w_not_1)
              width_rounded_up chh a b m m1 out aux_a aux_b)
    as (-> & Hrows & Hf1); [|done|].
  { eapply apart_shrink; [exact a_b|lia|nia]. }
  set (m2 := if size_sub (th * 2) chh =? 0 then m1
             else copy_strided (tw * 2) m1
                    (padd b (Z.of_nat (chh * (tw * 2)))) 1
                    (padd (padd b (Z.of_nat (chh * (tw * 2))))
                          (- Z.of_nat (tw * 2))) 1) in *.
  destruct (lift_cols_spec k q g tw th aux a b (or_intror target_h_not_1)
              aux_a aux_b) with (cols := seq 0 (tw * 2)) (m := m2) (m' := m')
    as [Hcols Hf3]; [|apply NoDup_seq| |done|].
  { eapply apart_shrink; [exact a_b|lia|lia]. }
  { intros col Hin. apply elem_of_seq in Hin. lia. }
  (* the rows of B in [m2] *)
  assert (Hb2 : ∀ i col, (i < th * 2)%nat → (col < tw * 2)%nat →
            load m2 (padd b (Z.of_nat (col + i * (tw * 2))))
            = load m1 (padd b (Z.of_nat
                                 (col + Nat.min i (chh - 1) * (tw * 2))))).
  { intros i col Hi Hcol. unfold m2, size_sub.
    destruct height_rounded_up as [Hh|Hh].
    - replace (Z.of_nat (th * 2) - Z.of_nat chh) with 0 by lia.
      cbn [Z.modulo Z.div_eucl Z.eqb]. by rewrite Nat.min_l by lia.
    - replace (Z.of_nat (th * 2) - Z.of_nat chh) with 1 by lia.
      change (1 `mod` 2 ^ 64 =? 0) with false. cbn iota.
      destruct (decide (i = chh)) as [->|Hne].
      + replace (padd b (Z.of_nat (col + chh * (tw * 2))))
          with (padd (padd b (Z.of_nat (chh * (tw * 2))))
                     (Z.of_nat col * 1))
          by (rewrite padd_padd; f_equal; lia).
        rewrite copy_strided_content; [|done| |done].
        * rewrite Nat.min_r by lia. rewrite !padd_padd. do 2 f_equal. nia.
        * intros j j' Hj Hj'. rewrite !padd_padd.
          intros Heq%padd_inj. lia.
      + rewrite Nat.min_l by lia. rewrite copy_strided_frame; [done|].
        intros j Hj. rewrite padd_padd. intros Heq%padd_inj. nia. }
  assert (Hf2 : ∀ p, p ∉ ptr_range b (tw * 2 * (th * 2)) →
            load m2 p = load m1 p).
  { intros p Hp. unfold m2, size_sub.
    destruct height_rounded_up as [Hh|Hh].
    - replace (Z.of_nat (th * 2) - Z.of_nat chh) with 0 by lia. done.
    - destruct (_ =? 0); [done|].
      apply copy_strided_frame. intros j Hj ->. apply Hp.
      rewrite padd_padd, elem_of_ptr_range. unfold padd. cbn [p_reg p_off].
      split; [done|nia]. }
  exists (λ r, row_of m1 b r tw). split_and!; [done|done| |].
  - intros col Hcol. rewrite <- (Hcols col) by (apply elem_of_seq; lia).
    do 2 f_equal. unfold column_of. apply list_fmap_seq_ext.
    intros i Hi. rewrite row_of_lookup by done. cbn [default].
    by rewrite Hb2.
  - intros p Hpa Hpaa Hpb.
    assert (Hsub : ∀ n, (n ≤ Nat.max (tw * 2) (th * 4))%nat →
              p ∉ ptr_range aux n).
    { intros n Hn Hin. apply Hpa.
      apply elem_of_ptr_range in Hin as [Hreg Hoff].
      apply elem_of_ptr_range. split; [done|lia]. }
    rewrite Hf3, Hf2, Hf1; [done|apply Hsub; lia| |done|apply Hsub; lia|].
    + intros Hin. apply Hpb.
      apply elem_of_ptr_range in Hin as [Hreg Hoff].
      apply elem_of_ptr_range. split; [done|].
      destruct height_rounded_up; nia.
    + intros col i Hin Hi ->. apply elem_of_seq in Hin. apply Hpaa.
      rewrite elem_of_ptr_range. unfold padd. cbn [p_reg p_off].
      split; [done|nia].
Qed.

End TwoPasses.

Lemma column_of_lookup m p col tw th r :
  (r < th * 2)%nat →
  column_of m p col tw th !! r
  = Some (load m (padd p (Z.of_nat (col + r * (tw * 2))))).
Proof.
  intros Hr. unfold column_of.
  by rewrite list_lookup_fmap, lookup_seq_lt by done.
Qed.

Lemma fmap_seq_const {A} (f : nat → A) n y :
  (∀ i, (i < n)%nat → f i = y) → f <$> seq 0 n = replicate n y.
Proof.
  intros Hf. rewrite (const_fmap f (seq 0 n) y); [by rewrite length_seq|].
  intros i x Hx. apply lookup_seq in Hx as [-> Hi]. by apply Hf.
Qed.

Section TwoPassesTheorems.
Context {F : Type} `{FloatOps F}.

(** A flat plane through the two passes. *)
Lemma sLift2d_flat (k : kernel) (q : Z) (g : F)
    (cw chh tw th pitch : nat) (aux a b : ptr) (m : mem) (c : Z) :
  tw ≠ 1%nat → th ≠ 1%nat → q ≠ 0 →
  (tw * 2 = cw ∨ tw * 2 = cw + 1)%nat →
  (th * 2 = chh ∨ th * 2 = chh + 1)%nat →
  p_reg aux ≠ p_reg a → p_reg aux ≠ p_reg b →
  apart a (Nat.max (chh * (cw + pitch)) (tw * 2 * (th * 2)))
        b (tw * 2 * (th * 2)) →
  int16 c →
  (∀ r i, (r < chh)%nat → (i < cw)%nat →
     load m (padd a (Z.of_nat (r * (cw + pitch) + i))) = c) →
  ∃ m',
    sLift2d k q g cw chh tw th pitch aux a b m = Some m'
    ∧ ∀ r col, (r < th * 2)%nat → (col < tw * 2)%nat →
        load m' (padd a (Z.of_nat (col + r * (tw * 2))))
        = if (r <? th)%nat && (col <? tw)%nat then c else 0.
Proof.
  intros Htw Hth Hq Hw Hh Haa Hab Hap Hc Hflat.
  destruct (sLift2d_spec k q g cw chh tw th pitch aux a b Htw Hth Hq Hw Hh
              Haa Hab Hap m) as (m' & rows & Hrun & Hrows & Hcols & _).
  exists m'. split; [done|]. intros r col Hr Hcol.
  assert (Hrow : ∀ r', (r' < chh)%nat →
            rows r' = replicate tw c ++ replicate tw 0).
  { intros r' Hr'. specialize (Hrows r' Hr').
    assert (padded_row m (padd a (Z.of_nat (r' * (cw + pitch)))) cw tw
            = replicate (2 * tw) c) as Hpad.
    { unfold padded_row. rewrite (Nat.mul_comm 2 tw).
      apply fmap_seq_const. intros i Hi.
      rewrite padd_padd, <- Nat2Z.inj_add. apply Hflat; lia. }
    rewrite Hpad, sLift1d_constant in Hrows by auto. by injection Hrows. }
  assert (0 < chh)%nat as Hchh by lia.
  set (x := if (col <? tw)%nat then c else 0).
  assert (Hx : int16 x) by (unfold x; destruct (_ <? _)%nat; [done|by compute]).
  specialize (Hcols col Hcol).
  assert ((λ i, default 0 (rows (Nat.min i (chh - 1)) !! col))
            <$> seq 0 (th * 2) = replicate (2 * th) x) as Hcolumn.
  { rewrite (Nat.mul_comm 2 th). apply fmap_seq_const. intros i Hi.
    rewrite Hrow by lia. unfold x.
    destruct (Nat.ltb_spec col tw).
    - rewrite lookup_app_l by (by rewrite length_replicate).
      by rewrite lookup_replicate_2.
    - rewrite lookup_app_r by (by rewrite length_replicate).
      rewrite length_replicate, lookup_replicate_2 by lia. done. }
  rewrite Hcolumn, sLift1d_constant in Hcols by auto.
  injection Hcols as Hcols.
  pose proof (column_of_lookup m' a col tw th r Hr) as Hcell.
  rewrite <- Hcols in Hcell. unfold x in Hcell.
  destruct (Nat.ltb_spec r th).
  - rewrite lookup_app_l in Hcell by (by rewrite length_replicate).
    rewrite lookup_replicate_2 in Hcell by done. injection Hcell as <-.
    by destruct (col <? tw)%nat.
  - rewrite lookup_app_r in Hcell by (by rewrite length_replicate).
    rewrite length_replicate, lookup_replicate_2 in Hcell by lia.
    by injection Hcell as <-.
Qed.

(** X16: [sLift2d] is the kernel on every row, then the kernel on every
    column of what the rows gave.  The row [r] of the input, with its last
    sample repeated where [current_w] is odd, goes through the kernel of
    length [target_w]; the last row of the results is repeated where
    [current_h] is odd; the column [col] of these rows goes through the
    kernel of length [target_h], and the result is the column [col] of the
    block of [2 target_w] by [2 target_h] cells that the call leaves at
    [a]. *)
Theorem sLift2d_is_rows_then_columns (k : kernel) (q : Z) (g : F)
    (cw chh tw th pitch : nat) (aux a b : ptr) (m : mem) :
  tw ≠ 1%nat → th ≠ 1%nat → q ≠ 0 →
  (tw * 2 = cw ∨ tw * 2 = cw + 1)%nat →
  (th * 2 = chh ∨ th * 2 = chh + 1)%nat →
  p_reg aux ≠ p_reg a → p_reg aux ≠ p_reg b →
  apart a (Nat.max (chh * (cw + pitch)) (tw * 2 * (th * 2)))
        b (tw * 2 * (th * 2)) →
  ∃ m' (rows : nat → list Z),
    sLift2d k q g cw chh tw th pitch aux a b m = Some m'
    ∧ (∀ r, (r < chh)%nat →
         sLift1d k q g tw
           (list_reader
              (padded_row m (padd a (Z.of_nat (r * (cw + pitch)))) cw tw))
         = Some (rows r))
    ∧ (∀ col, (col < tw * 2)%nat →
         sLift1d k q g th
           (list_reader
              ((λ i, default 0 (rows (Nat.min i (chh - 1)) !! col))
                 <$> seq 0 (th * 2)))
         = Some (column_of m' a col tw th)).
Proof.
  intros Htw Hth Hq Hw Hh Haa Hab Hap.
  destruct (sLift2d_spec k q g cw chh tw th pitch aux a b Htw Hth Hq Hw Hh
              Haa Hab Hap m) as (m' & rows & Hrun & Hrows & Hcols & _).
  by exists m', rows.
Qed.

(** X17: what [sLift2d] needs of its three buffers.  The call changes
    cells of the first [max (2 target_w) (4 target_h)] cells of [aux], of
    the first [2 target_w * 2 target_h] cells of [a] and of as many cells
    of [b], and no other cell. *)
Theorem sLift2d_changes_its_buffers_only (k : kernel) (q : Z) (g : F)
    (cw chh tw th pitch : nat) (aux a b : ptr) (m : mem) :
  tw ≠ 1%nat → th ≠ 1%nat → q ≠ 0 →
  (tw * 2 = cw ∨ tw * 2 = cw + 1)%nat →
  (th * 2 = chh ∨ th * 2 = chh + 1)%nat →
  p_reg aux ≠ p_reg a → p_reg aux ≠ p_reg b →
  apart a (Nat.max (chh * (cw + pitch)) (tw * 2 * (th * 2)))
        b (tw * 2 * (th * 2)) →
  ∃ m',
    sLift2d k q g cw chh tw th pitch aux a b m = Some m'
    ∧ (∀ p, p ∉ ptr_range aux (Nat.max (tw * 2) (th * 4)) →
            p ∉ ptr_range a (tw * 2 * (th * 2)) →
            p ∉ ptr_range b (tw * 2 * (th * 2)) →
            load m' p = load m p).
Proof.
  intros Htw Hth Hq Hw Hh Haa Hab Hap.
  destruct (sLift2d_spec k q g cw chh tw th pitch aux a b Htw Hth Hq Hw Hh
              Haa Hab Hap m) as (m' & rows & Hrun & _ & _ & Hframe).
  by exists m'.
Qed.

(** X18: a flat plane has no detail in two dimensions either.  Where
    every sample of the input is [c], the call leaves [c] in the top-left
    quadrant of the block at [a] and 0 in the three others, for every
    kernel, step and gate, and for odd sides too. *)
Theorem sLift2d_flat_plane (k : kernel) (q : Z) (g : F)
    (cw chh tw th pitch : nat) (aux a b : ptr) (m : mem) (c : Z) :
  tw ≠ 1%nat → th ≠ 1%nat → q ≠ 0 →
  (tw * 2 = cw ∨ tw * 2 = cw + 1)%nat →
  (th * 2 = chh ∨ th * 2 = chh + 1)%nat →
  p_reg aux ≠ p_reg a → p_reg aux ≠ p_reg b →
  apart a (Nat.max (chh * (cw + pitch)) (tw * 2 * (th * 2)))
        b (tw * 2 * (th * 2)) →
  int16 c →
  (∀ r i, (r < chh)%nat → (i < cw)%nat →
     load m (padd a (Z.of_nat (r * (cw + pitch) + i))) = c) →
  ∃ m',
    sLift2d k q g cw chh tw th pitch aux a b m = Some m'
    ∧ ∀ r col, (r < th * 2)%nat → (col < tw * 2)%nat →
        load m' (padd a (Z.of_nat (col + r * (tw * 2))))
        = if (r <? th)%nat && (col <? tw)%nat then c else 0.
Proof.
  intros Htw Hth Hq Hw Hh Haa Hab Hap Hc Hflat.
  by apply sLift2d_flat.
Qed.

End TwoPassesTheorems.

Lemma sLift2d_is_rows_then_columns_witness :
  ∃ m' (rows : nat → list Z),
    sLift2d CDF53 2 (f_of_int 1 : xfloat) 5 3 3 2 0 (Ptr RAux 0) (Ptr RIn 0)
      (Ptr ROut 0) sample_planes = Some m'
    ∧ (∀ r, (r < 3)%nat →
         sLift1d CDF53 2 (f_of_int 1 : xfloat) 3
           (list_reader
              (padded_row sample_planes
                 (padd (Ptr RIn 0) (Z.of_nat (r * (5 + 0)))) 5 3))
         = Some (rows r))
    ∧ (∀ col, (col < 3 * 2)%nat →
         sLift1d CDF53 2 (f_of_int 1 : xfloat) 2
           (list_reader
              ((λ i, default 0 (rows (Nat.min i (3 - 1)) !! col))
                 <$> seq 0 (2 * 2)))
         = Some (column_of m' (Ptr RIn 0) col 3 2)).
Proof.
  apply (sLift2d_is_rows_then_columns CDF53 2 (f_of_int 1 : xfloat)
           5 3 3 2 0 (Ptr RAux 0) (Ptr RIn 0) (Ptr ROut 0) sample_planes).
  - lia.
  - lia.
  - lia.
  - right. reflexivity.
  - right. reflexivity.
  - discriminate.
  - discriminate.
  - left. discriminate.
Defined.

Lemma sLift2d_changes_its_buffers_only_witness :
  ∃ m',
    sLift2d DD97 1 (f_of_int 0 : xfloat) 6 6 3 3 6 (Ptr RAux 0) (Ptr RIn 0)
      (Ptr RIn 72) sample_planes = Some m'
    ∧ (∀ p, p ∉ ptr_range (Ptr RAux 0) (Nat.max (3 * 2) (3 * 4)) →
            p ∉ ptr_range (Ptr RIn 0) (3 * 2 * (3 * 2)) →
            p ∉ ptr_range (Ptr RIn 72) (3 * 2 * (3 * 2)) →
            load m' p = load sample_planes p).
Proof.
  apply (sLift2d_changes_its_buffers_only DD97 1 (f_of_int 0 : xfloat)
           6 6 3 3 6 (Ptr RAux 0) (Ptr RIn 0) (Ptr RIn 72) sample_planes).
  - lia.
  - lia.
  - lia.
  - left. reflexivity.
  - left. reflexivity.
  - discriminate.
  - discriminate.
  - right. left. cbn. lia.
Defined.

Lemma sLift2d_flat_plane_witness :
  ∃ m',
    sLift2d Haar 3 (f_of_int 2 : xfloat) 5 4 3 2 0 (Ptr RAux 0) (Ptr RIn 0)
      (Ptr ROut 0) flat_planes = Some m'
    ∧ ∀ r col, (r < 2 * 2)%nat → (col < 3 * 2)%nat →
        load m' (padd (Ptr RIn 0) (Z.of_nat (col + r * (3 * 2))))
        = if (r <? 2)%nat && (col <? 3)%nat then 7 else 0.
Proof.
  apply (sLift2d_flat_plane Haar 3 (f_of_int 2 : xfloat) 5 4 3 2 0
           (Ptr RAux 0) (Ptr RIn 0) (Ptr ROut 0) flat_planes 7).
  - lia.
  - lia.
  - lia.
  - right. reflexivity.
  - left. reflexivity.
  - discriminate.
  - discriminate.
  - left. discriminate.
  - unfold int16. lia.
  - intros r i _ _. reflexivity.
Defined.

(** ** One level of the driver, channel after channel *)

Lemma half_up_rounds n :
  (half_up n * 2 = n ∨ half_up n * 2 = n + 1)%nat.
Proof.
  unfold half_up. destruct (Nat.eqb_spec (n `mod` 2) 0) as [Hm|Hm].
  - pose proof (Nat.div_mod n 2). lia.
  - pose proof (Nat.div_mod (n + 1) 2).
    pose proof (Nat.div_mod n 2).
    pose proof (Nat.mod_upper_bound n 2).
    pose proof (Nat.mod_upper_bound (n + 1) 2).
    assert ((n + 1) `mod` 2 = 0)%nat.
    { replace (n + 1)%nat with (n `mod` 2 + 1 + n / 2 * 2)%nat by lia.
      rewrite Nat.Div0.mod_add. destruct (n `mod` 2)%nat as [|[|?]]; [lia|done|lia]. }
    lia.
Qed.

(** At the first lift the buffers B lie in [out], [plane_cells] apart,
    and the records are stored from the cursor down.  Where the highest
    buffer ends at or before the cursor, and the lowest buffer ends at or
    before the lowest record but its own, every buffer ends at or before
    the records stored before its lift. *)
Lemma buffers_below_records (plane_cells block record channels i : nat)
    (c : Z) :
  (i < channels)%nat →
  Z.of_nat (plane_cells * (channels - 1) + block) ≤ c →
  Z.of_nat (block + (channels - 1) * record) ≤ c →
  Z.of_nat (plane_cells * (channels - 1 - i) + block)
  ≤ c - Z.of_nat i * Z.of_nat record.
Proof.
  intros Hi Htop Hbottom.
  assert (∃ K, channels - 1 = K + i)%nat as [K HK]
    by (exists (channels - 1 - i)%nat; lia).
  replace (channels - 1 - i)%nat with K by lia.
  rewrite HK in Htop, Hbottom.
  destruct (Nat.le_gt_cases record plane_cells) as [Hle|Hgt].
  - assert (plane_cells * (K + i) = plane_cells * K + plane_cells * i)%nat
      as Hd by lia.
    assert (i * record ≤ plane_cells * i)%nat
      by (rewrite (Nat.mul_comm plane_cells); by apply Nat.mul_le_mono_l).
    lia.
  - assert ((K + i) * record = K * record + i * record)%nat as Hd by lia.
    assert (plane_cells * K ≤ K * record)%nat
      by (rewrite (Nat.mul_comm plane_cells); apply Nat.mul_le_mono_l; lia).
    lia.
Qed.

(** The stores of a record change the cells of the record only. *)
Lemma emit_record_frame q16 tw th lp c st p :
  p ∉ ptr_range (Ptr ROut (c - (Z.of_nat (tw * th) * 3 + 1)))
        (tw * th * 3 + 1) →
  load (st_mem (emit_record q16 tw th lp (Ptr ROut c) st).1) p
  = load (st_mem st) p.
Proof.
  intros Hp. unfold emit_record. cbn [fst emit st_mem].
  assert (Hout : ∀ o k, c - (Z.of_nat (tw * th) * 3 + 1) ≤ o →
            o + Z.of_nat k ≤ c → p ∉ ptr_range (Ptr ROut o) k).
  { intros o k Hlo Hhi Hin. apply Hp.
    apply elem_of_ptr_range in Hin as [Hreg Hoff]. cbn [p_reg p_off] in *.
    apply elem_of_ptr_range. cbn [p_reg p_off]. split; [done|lia]. }
  unfold padd. cbn [p_reg p_off].
  rewrite load_store_ne.
  2: { intros ->. apply (Hout (c + - (Z.of_nat (tw * th) * 3) + -1) 1%nat);
         [lia|lia|]. rewrite elem_of_ptr_range. cbn [p_reg p_off].
       split; [done|lia]. }
  unfold s2dToLinearV.
  rewrite !emit_seq_frame; [done|rewrite linearV_offsets_length..];
    apply Hout; lia.
Qed.

Lemma elem_of_linearV_offsets w h pitch o :
  o ∈ linearV_offsets w h pitch →
  ∃ c r, (c < w)%nat ∧ (r < h)%nat ∧ o = Z.of_nat (c + r * pitch).
Proof.
  unfold linearV_offsets. intros Hin.
  apply list_elem_of_bind in Hin as (c & Hin & Hc).
  apply elem_of_seq in Hc.
  apply list_elem_of_bind in Hin as (r & Hin & Hr).
  apply elem_of_seq in Hr.
  apply list_elem_of_singleton in Hin. exists c, r. split_and!; [lia..|done].
Qed.

(** The three highpass quadrants lie in the first [2 w * 2 h] cells of
    the block. *)
Lemma quadrants_ext m m' lp w h :
  (∀ p, p ∈ ptr_range lp (w * 2 * (h * 2)) → load m' p = load m p) →
  bottom_left m' lp w h = bottom_left m lp w h
  ∧ top_right m' lp w h = top_right m lp w h
  ∧ bottom_right m' lp w h = bottom_right m lp w h.
Proof.
  intros Hm.
  assert (Hq : ∀ off,
            (∀ c r, (c < w)%nat → (r < h)%nat →
                    (off + (c + r * (w * 2)) < w * 2 * (h * 2))%nat) →
            quadrant_by_columns m' (padd lp (Z.of_nat off)) w h
            = quadrant_by_columns m (padd lp (Z.of_nat off)) w h).
  { intros off Hoff. rewrite !quadrant_as_offsets.
    apply list_fmap_ext. intros i o Ho.
    apply list_elem_of_lookup_2, elem_of_linearV_offsets in Ho
      as (c & r & Hc & Hr & ->).
    apply Hm. rewrite padd_padd, elem_of_ptr_range.
    unfold padd. cbn [p_reg p_off]. specialize (Hoff c r Hc Hr).
    split; [done|lia]. }
  unfold bottom_left, top_right, bottom_right.
  split_and!; apply Hq; intros c r Hc Hr; nia.
Qed.

Section LevelFacts.
Context {F : Type} `{FloatLaws F}.
Variable TileTotalLifts : nat → nat → nat.
Variable s : AkoSettings F.
Variables tile_w tile_h planes_space : nat.

Hypothesis steps_in_range :
  ∀ ch, f_lt (quantization s ch) (f_of_int 32768) = true.

(** The step of one channel: its record, and the cells it changes. *)
Lemma lift_channel_step k lift cw chh ch st c :
  (2 < cw)%nat → (2 < chh)%nat →
  (lift = 0%nat → cw = tile_w ∧ chh = tile_h) →
  let tw := half_up cw in
  let th := half_up chh in
  let n := (tw * th)%nat in
  let lp := plane tile_w tile_h planes_space ch in
  let cur := Ptr ROut (c - (Z.of_nat n * 3 + 1)) in
  ∃ q16 st',
    f_to_int16 (quantization_q s ch lift) = Some q16
    ∧ lift_channel TileTotalLifts s tile_w tile_h planes_space
        k lift cw chh tw th ch st (Ptr ROut c) = Some (st', cur)
    ∧ load (st_mem st') <$> ptr_range cur (n * 3 + 1)
      = q16 :: bottom_left (st_mem st') lp tw th
            ++ top_right (st_mem st') lp tw th
            ++ bottom_right (st_mem st') lp tw th
    ∧ (∀ p, p ∉ ptr_range aux_memory (Nat.max (tw * 2) (th * 4)) →
            p ∉ ptr_range lp (tw * 2 * (th * 2)) →
            p ∉ ptr_range (buffer_b tile_w tile_h planes_space lift cw chh ch)
                  (tw * 2 * (th * 2)) →
            p ∉ ptr_range cur (n * 3 + 1) →
            load (st_mem st') p = load (st_mem st) p).
Proof.
  intros Hcw Hchh Hfirst tw th n lp cur.
  destruct (half_up_lt cw Hcw) as [_ Htw].
  destruct (half_up_lt chh Hchh) as [_ Hth].
  pose proof (half_up_rounds cw) as Hrw.
  pose proof (half_up_rounds chh) as Hrh.
  fold tw in Htw, Hrw. fold th in Hth, Hrh.
  destruct (quantization_q_converts s ch lift (steps_in_range ch))
    as (q16 & Hq & Hq16).
  exists q16. unfold lift_channel. rewrite Hq. cbn [mbind option_bind].
  fold lp.
  assert (Hlift : ∃ m',
            (if (lift =? 0)%nat
             then sLift2d k q16 (quantization_g TileTotalLifts s tile_w tile_h
                                   ch lift)
                    tile_w tile_h tw th 0 aux_memory lp
                    (padd out_ (Z.of_nat (tile_w * tile_h * ch))) (st_mem st)
             else sLift2d k q16 (quantization_g TileTotalLifts s tile_w tile_h
                                   ch lift)
                    cw chh tw th cw aux_memory lp
                    (padd lp (Z.of_nat (cw * chh * 2))) (st_mem st))
            = Some m'
            ∧ (∀ p, p ∉ ptr_range aux_memory (Nat.max (tw * 2) (th * 4)) →
                 p ∉ ptr_range lp (tw * 2 * (th * 2)) →
                 p ∉ ptr_range
                       (buffer_b tile_w tile_h planes_space lift cw chh ch)
                       (tw * 2 * (th * 2)) →
                 load m' p = load (st_mem st) p)).
  { unfold buffer_b. fold lp. destruct (Nat.eqb_spec lift 0) as [Hl|Hl].
    - destruct (Hfirst Hl) as [<- <-].
      destruct (sLift2d_spec k q16
                  (quantization_g TileTotalLifts s cw chh ch lift)
                  cw chh tw th 0 aux_memory lp
                  (padd out_ (Z.of_nat (cw * chh * ch))))
        with (m := st_mem st) as (m' & rows & Hrun & _ & _ & Hframe);
        [lia|lia|lia|done|done|done|done|by left|].
      exists m'. split; [done|]. exact Hframe.
    - destruct (sLift2d_spec k q16
                  (quantization_g TileTotalLifts s tile_w tile_h ch lift)
                  cw chh tw th cw aux_memory lp
                  (padd lp (Z.of_nat (cw * chh * 2))))
        with (m := st_mem st) as (m' & rows & Hrun & _ & _ & Hframe);
        [lia|lia|lia|done|done|done|done| |].
      { right. left. unfold padd. cbn [p_reg p_off]. nia. }
      exists m'. split; [done|]. exact Hframe. }
  destruct Hlift as (m' & -> & Hframe). cbn [mbind option_bind].
  destruct (emit_record_log q16 tw th lp c (State m' (st_log st)))
    as (st' & Hrec & _).
  destruct (emit_record_content q16 tw th lp c (State m' (st_log st)))
    as [Hcontent _]; [done|].
  pose proof (emit_record_frame q16 tw th lp c (State m' (st_log st)))
    as Hrframe.
  rewrite Hrec in Hcontent, Hrframe |- *. cbn [fst snd st_mem] in *.
  exists st'. split_and!; [done|done|done|].
  intros p Hpa Hpl Hpb Hpr. rewrite Hrframe by done. by apply Hframe.
Qed.

End LevelFacts.

Section LevelRecords.
Context {F : Type} `{FloatLaws F}.
Variable TileTotalLifts : nat → nat → nat.
Variable s : AkoSettings F.
Variables tile_w tile_h planes_space : nat.

Hypothesis steps_in_range :
  ∀ ch, f_lt (quantization s ch) (f_of_int 32768) = true.

Variables (k : kernel) (lift cw chh : nat).
Hypothesis wide : (2 < cw)%nat.
Hypothesis high : (2 < chh)%nat.
Hypothesis first_lift_on_tile : lift = 0%nat → cw = tile_w ∧ chh = tile_h.

Local Notation "'tw'" := (half_up cw).
Local Notation "'th'" := (half_up chh).
Local Notation "'n'" := (half_up cw * half_up chh)%nat.
Local Notation "'stride'" := (tile_w * tile_h + planes_space)%nat.
Local Notation "'lp' ch" := (plane tile_w tile_h planes_space ch)
  (at level 10, ch at level 9).

(** The cells that the lift of a channel uses in its plane lie inside
    the stride of the planes. *)
Hypothesis room :
  ((if (lift =? 0)%nat then 0 else cw * chh * 2) + tw * 2 * (th * 2)
   ≤ stride)%nat.

Lemma planes_apart ch ch' p :
  ch ≠ ch' → p ∈ ptr_range (lp ch) stride → p ∉ ptr_range (lp ch') stride.
Proof.
  intros Hne Hin Hin'. apply elem_of_ptr_range in Hin as [_ Hin].
  apply elem_of_ptr_range in Hin' as [_ Hin'].
  unfold plane, in_, padd in *. cbn [p_reg p_off] in *.
  destruct (Nat.lt_trichotomy ch ch') as [Hlt|[->|Hlt]]; [nia|done|nia].
Qed.

Lemma lift_channels_records chs st c :
  NoDup chs →
  (lift = 0%nat → ∀ i ch, chs !! i = Some ch →
     Z.of_nat (tile_w * tile_h * ch + tw * 2 * (th * 2))
     ≤ c - Z.of_nat i * (Z.of_nat n * 3 + 1)) →
  ∃ st',
    lift_channels TileTotalLifts s tile_w tile_h planes_space
      k lift cw chh tw th chs st (Ptr ROut c)
    = Some (st', Ptr ROut (c - Z.of_nat (length chs) * (Z.of_nat n * 3 + 1)))
    ∧ (∀ i ch, chs !! i = Some ch →
         ∃ q16,
           f_to_int16 (quantization_q s ch lift) = Some q16
           ∧ load (st_mem st')
               <$> ptr_range
                     (Ptr ROut (c - Z.of_nat (i + 1) * (Z.of_nat n * 3 + 1)))
                     (n * 3 + 1)
             = q16 :: bottom_left (st_mem st') (lp ch) tw th
                   ++ top_right (st_mem st') (lp ch) tw th
                   ++ bottom_right (st_mem st') (lp ch) tw th)
    ∧ (∀ p, p_reg p = ROut → c ≤ p_off p →
            load (st_mem st') p = load (st_mem st) p)
    ∧ (∀ p, p_reg p = RIn →
            (∀ ch, ch ∈ chs → p ∉ ptr_range (lp ch) stride) →
            load (st_mem st') p = load (st_mem st) p).
Proof.
  intros Hnd. revert st c.
  induction Hnd as [|ch chs Hnotin Hnd IH]; intros st c Hb.
  - cbn [lift_channels length]. exists st. split_and!; [|done..].
    do 3 f_equal. lia.
  - cbn [lift_channels length].
    destruct (lift_channel_step TileTotalLifts s tile_w tile_h planes_space
                steps_in_range k lift cw chh ch st c wide high
                first_lift_on_tile)
      as (q16 & st1 & Hq & -> & Hrec1 & Hf1).
    cbn [mbind option_bind]. cbn zeta in Hrec1, Hf1.
    set (c1 := c - (Z.of_nat n * 3 + 1)) in *.
    destruct (IH st1 c1) as (st' & -> & Hrecs & HfA & HfB).
    { intros Hl i ch' Hi. specialize (Hb Hl (S i) ch' Hi). unfold c1. lia. }
    exists st'.
    (* the cells of the step of [ch] in [out] and in the planes *)
    assert (HstepA : ∀ p, p_reg p = ROut → c ≤ p_off p →
              load (st_mem st1) p = load (st_mem st) p).
    { intros p Hreg Hoff. apply Hf1.
      - apply not_elem_of_ptr_range_region. by rewrite Hreg.
      - apply not_elem_of_ptr_range_region. by rewrite Hreg.
      - unfold buffer_b. destruct (Nat.eqb_spec lift 0) as [Hl|Hl].
        + specialize (Hb Hl 0%nat ch eq_refl).
          rewrite elem_of_ptr_range. unfold out_, padd. cbn [p_reg p_off].
          lia.
        + apply not_elem_of_ptr_range_region. by rewrite Hreg.
      - rewrite elem_of_ptr_range. cbn [p_reg p_off]. unfold c1. lia. }
    assert (HstepB : ∀ p, p_reg p = RIn → p ∉ ptr_range (lp ch) stride →
              load (st_mem st1) p = load (st_mem st) p).
    { intros p Hreg Hp. apply Hf1.
      - apply not_elem_of_ptr_range_region. by rewrite Hreg.
      - intros Hin. apply Hp. apply elem_of_ptr_range in Hin as [Hr Ho].
        apply elem_of_ptr_range. split; [done|].
        destruct (lift =? 0)%nat; lia.
      - unfold buffer_b. destruct (Nat.eqb_spec lift 0) as [Hl|Hl].
        + apply not_elem_of_ptr_range_region. by rewrite Hreg.
        + intros Hin. apply Hp. apply elem_of_ptr_range in Hin as [Hr Ho].
          apply elem_of_ptr_range. unfold padd in *. cbn [p_reg p_off] in *.
          split; [done|]. destruct (Nat.eqb_spec lift 0); lia.
      - apply not_elem_of_ptr_range_region. by rewrite Hreg. }
    split_and!.
    + do 3 f_equal. unfold c1. lia.
    + intros i ch' Hi. destruct i as [|i].
      * injection Hi as <-. exists q16. split; [done|].
        replace (c - Z.of_nat (0 + 1) * (Z.of_nat n * 3 + 1)) with c1
          by (unfold c1; lia).
        destruct (quadrants_ext (st_mem st1) (st_mem st') (lp ch) tw th)
          as (-> & -> & ->).
        { intros p Hp. apply HfB.
          - by apply elem_of_ptr_range in Hp as [-> _].
          - intros ch' Hin. apply (planes_apart ch ch').
            + intros ->. done.
            + apply elem_of_ptr_range in Hp as [Hr Ho].
              apply elem_of_ptr_range. split; [done|].
              destruct (lift =? 0)%nat; lia. }
        rewrite <- Hrec1. apply fmap_load_frame. intros p Hp.
        apply elem_of_ptr_range in Hp as [Hr Ho]. cbn [p_reg p_off] in Hr, Ho.
        apply HfA; [done|lia].
      * cbn [lookup list_lookup] in Hi.
        destruct (Hrecs i ch' Hi) as (q16' & Hq' & Hrec').
        exists q16'. split; [done|]. rewrite <- Hrec'. do 3 f_equal.
        unfold c1. lia.
    + intros p Hreg Hoff. rewrite HfA; [by apply HstepA|done|].
      unfold c1. lia.
    + intros p Hreg Hp. rewrite HfB; [apply HstepB; [done|]|done|].
      * apply Hp. left.
      * intros ch' Hin. apply Hp. by right.
Qed.

(** X19: one level of the driver leaves every record whole.  After the
    loop over the channels, the record of each channel in [out] is the
    step [q] of the channel, then the bottom-left, the top-right and the
    bottom-right quadrant of its plane, as the plane then is: the lift of
    a later channel, its buffer B and its record change no cell of an
    earlier record or of another plane, and no cell of [out] at or behind
    the cursor that the level started from.  The planes must be far enough
    apart for the block of [2 target_w] by [2 target_h] cells and the
    buffer B; at the first lift, where the buffers B lie in [out], the
    buffer of the channel lifted first must end at or before the cursor,
    and the buffer of the channel 0 at or before the records of the other
    channels. *)
Theorem level_leaves_records_whole (channels : nat) (st : state) (c : Z) :
  (lift = 0%nat →
     Z.of_nat (tile_w * tile_h * (channels - 1) + tw * 2 * (th * 2)) ≤ c
     ∧ Z.of_nat (tw * 2 * (th * 2) + (channels - 1) * (n * 3 + 1)) ≤ c) →
  ∃ st',
    lift_channels TileTotalLifts s tile_w tile_h planes_space
      k lift cw chh tw th (channels_down channels) st (Ptr ROut c)
    = Some (st', Ptr ROut (c - Z.of_nat channels * (Z.of_nat n * 3 + 1)))
    ∧ (∀ ch, (ch < channels)%nat →
         ∃ q16,
           f_to_int16 (quantization_q s ch lift) = Some q16
           ∧ load (st_mem st')
               <$> ptr_range
                     (Ptr ROut (c - Z.of_nat (channels - ch)
                                    * (Z.of_nat n * 3 + 1)))
                     (n * 3 + 1)
             = q16 :: bottom_left (st_mem st') (lp ch) tw th
                   ++ top_right (st_mem st') (lp ch) tw th
                   ++ bottom_right (st_mem st') (lp ch) tw th)
    ∧ (∀ p, p_reg p = ROut → c ≤ p_off p →
            load (st_mem st') p = load (st_mem st) p).
Proof.
  intros Hc.
  assert (Hlookup : ∀ i ch, channels_down channels !! i = Some ch →
            (i < channels)%nat ∧ ch = (channels - 1 - i)%nat).
  { intros i ch Hi. unfold channels_down in Hi.
    pose proof (lookup_lt_Some _ _ _ Hi) as Hlt.
    rewrite length_reverse, length_seq in Hlt.
    rewrite reverse_lookup, length_seq in Hi by (by rewrite length_seq).
    apply lookup_seq in Hi as [-> _]. split; [done|lia]. }
  destruct (lift_channels_records (channels_down channels) st c)
    as (st' & Hrun & Hrecs & HfA & _).
  { unfold channels_down. rewrite reverse_Permutation. apply NoDup_seq. }
  { intros Hl i ch Hi. destruct (Hlookup i ch Hi) as [Hlt ->].
    destruct (Hc Hl) as [Htop Hbottom].
    pose proof (buffers_below_records (tile_w * tile_h) (tw * 2 * (th * 2))
                  (n * 3 + 1) channels i c Hlt Htop Hbottom).
    lia. }
  rewrite channels_down_length in Hrun.
  exists st'. split_and!; [done| |done].
  intros ch Hch.
  destruct (Hrecs (channels - 1 - ch)%nat ch) as (q16 & Hq & Hrec).
  { unfold channels_down.
    rewrite reverse_lookup by (rewrite length_seq; lia).
    rewrite length_seq. apply lookup_seq. lia. }
  exists q16. split; [done|].
  replace (channels - 1 - ch + 1)%nat with (channels - ch)%nat in Hrec
    by lia.
  exact Hrec.
Qed.

End LevelRecords.

Lemma level_leaves_records_whole_witness :
  ∃ st',
    lift_channels TileTotalLifts_spec lossless_settings 4 4 0
      CDF53 0 4 4 (half_up 4) (half_up 4) (channels_down 2)
      (State sample_planes []) (Ptr ROut 32)
    = Some (st', Ptr ROut (32 - Z.of_nat 2
                                * (Z.of_nat (half_up 4 * half_up 4) * 3 + 1)))
    ∧ (∀ ch, (ch < 2)%nat →
         ∃ q16,
           f_to_int16 (quantization_q lossless_settings ch 0) = Some q16
           ∧ load (st_mem st')
               <$> ptr_range
                     (Ptr ROut (32 - Z.of_nat (2 - ch)
                                     * (Z.of_nat (half_up 4 * half_up 4) * 3
                                        + 1)))
                     (half_up 4 * half_up 4 * 3 + 1)
             = q16 :: bottom_left (st_mem st') (plane 4 4 0 ch)
                        (half_up 4) (half_up 4)
                   ++ top_right (st_mem st') (plane 4 4 0 ch)
                        (half_up 4) (half_up 4)
                   ++ bottom_right (st_mem st') (plane 4 4 0 ch)
                        (half_up 4) (half_up 4))
    ∧ (∀ p, p_reg p = ROut → 32 ≤ p_off p →
            load (st_mem st') p = load sample_planes p).
Proof.
  apply (level_leaves_records_whole TileTotalLifts_spec lossless_settings
           4 4 0).
  - intros ch. reflexivity.
  - lia.
  - lia.
  - intros _. split; reflexivity.
  - vm_compute. lia.
  - intros _. split; vm_compute; discriminate.
Defined.

(** ** The cells that the transform changes *)

Lemma half_up_le n : (half_up n ≤ n)%nat.
Proof.
  pose proof (half_up_rounds n). destruct n as [|[|n]]; [done|done|lia].
Qed.


(** The block of a lift is at most half of the block of the lift before
    it. *)
Lemma half_block_fits w h :
  (2 < w)%nat → (2 < h)%nat →
  (half_up w * 2 * (half_up h * 2) ≤ w * h * 2)%nat.
Proof.
  intros Hw Hh.
  pose proof (half_up_rounds w). pose proof (half_up_rounds h).
  assert (half_up w * 2 * (half_up h * 2) ≤ (w + 1) * (h + 1))%nat
    by (apply Nat.mul_le_mono; lia).
  assert (3 * 3 ≤ w * h)%nat by (apply Nat.mul_le_mono; lia).
  assert (w * 3 ≤ w * h)%nat by (apply Nat.mul_le_mono_l; lia).
  assert (3 * h ≤ w * h)%nat by (apply Nat.mul_le_mono_r; lia).
  lia.
Qed.

Lemma half_block_shrinks w h :
  (half_up (half_up w) * 2 * (half_up (half_up h) * 2)
   ≤ half_up w * 2 * (half_up h * 2))%nat.
Proof.
  pose proof (half_up_le (half_up w)). pose proof (half_up_le (half_up h)).
  apply Nat.mul_le_mono; lia.
Qed.

Section Footprint.
Context {F : Type} `{FloatLaws F}.
Variable TileTotalLifts : nat → nat → nat.
Variable s : AkoSettings F.
Variables tile_w tile_h channels planes_space : nat.

Hypothesis steps_in_range :
  ∀ ch, f_lt (quantization s ch) (f_of_int 32768) = true.

(** The numbers of cells of [aux_memory], of a plane and of the front of
    [out] that may change, and a cell [p] outside them. *)
Variables (aux_cells plane_cells scratch_cells : nat) (p : ptr).

Hypothesis not_in_aux : p ∉ ptr_range aux_memory aux_cells.
Hypothesis not_in_planes :
  ∀ ch, (ch < channels)%nat →
        p ∉ ptr_range (plane tile_w tile_h planes_space ch) plane_cells.
Hypothesis not_in_scratch : p ∉ ptr_range out_ scratch_cells.
Hypothesis scratch_holds_buffers :
  (tile_w * tile_h * (channels - 1)
   + half_up tile_w * 2 * (half_up tile_h * 2) ≤ scratch_cells)%nat.




End Footprint.

Lemma emit_lowpasses_cursor tile_w tile_h planes_space tw th chs st cur :
  (emit_lowpasses tile_w tile_h planes_space tw th chs st cur).2
  = padd cur (- Z.of_nat (length chs * (tw * th))).
Proof.
  revert st cur. induction chs as [|ch chs IH]; intros st cur.
  - cbn. by rewrite padd_0.
  - cbn [emit_lowpasses length]. rewrite IH, padd_padd. f_equal. lia.
Qed.

Section WholeTransform.
Context {F : Type} `{FloatLaws F}.
Variables TileTotalLength TileTotalLifts : nat → nat → nat.
Variable s : AkoSettings F.
Variables tile_w tile_h channels planes_space : nat.

Hypothesis steps_in_range :
  ∀ ch, f_lt (quantization s ch) (f_of_int 32768) = true.

(** The two halves of [DwtTransform]: the loop over the levels, then the
    lowpasses. *)
Lemma DwtTransform_halves k m :
  ∃ r0 c,
    lift_levels TileTotalLifts s tile_w tile_h channels planes_space
      tile_w k 0 tile_w tile_h (State m [])
      (Ptr ROut (Z.of_nat (TileTotalLength tile_w tile_h * channels)))
    = Some r0
    ∧ r_cursor r0 = Ptr ROut c
    ∧ DwtTransform TileTotalLength TileTotalLifts s tile_w tile_h channels
        planes_space (Some k) m
      = Some (Result
                (emit_lowpasses tile_w tile_h planes_space (r_target_w r0)
                   (r_target_h r0) (channels_down channels) (r_state r0)
                   (r_cursor r0)).1
                (emit_lowpasses tile_w tile_h planes_space (r_target_w r0)
                   (r_target_h r0) (channels_down channels) (r_state r0)
                   (r_cursor r0)).2
                (r_lift r0) (r_target_w r0) (r_target_h r0)).
Proof.
  destruct (lift_levels_log TileTotalLifts s tile_w tile_h channels
              planes_space steps_in_range tile_w k 0 tile_w tile_h
              (State m [])
              (Z.of_nat (TileTotalLength tile_w tile_h * channels)))
    as (r0 & st' & Hrun & Hlow & _); [done|].
  exists r0, (p_off (r_cursor r0)). split; [done|]. split.
  - pose proof (emit_lowpasses_cursor tile_w tile_h planes_space
                  (r_target_w r0) (r_target_h r0) (channels_down channels)
                  (r_state r0) (r_cursor r0)) as Hcur.
    rewrite Hlow in Hcur. cbn [snd] in Hcur.
    destruct (r_cursor r0) as [reg off]. unfold padd in Hcur.
    cbn [p_reg p_off] in *. by injection Hcur as <- _.
  - unfold DwtTransform, out_, padd. cbn [p_reg p_off]. rewrite Z.add_0_l.
    rewrite Hrun. cbn [mbind option_bind].
    by destruct (emit_lowpasses _ _ _ _ _ _ _ _).
Qed.



End WholeTransform.



(** ** The number of levels *)

Lemma ceil_div_le a b q :
  (0 < b)%nat → (ceil_div a b ≤ q)%nat ↔ (a ≤ q * b)%nat.
Proof.
  intros Hb. unfold ceil_div. split.
  - intros Hle.
    pose proof (Nat.div_mod_eq (a + b - 1) b).
    pose proof (Nat.mod_upper_bound (a + b - 1) b ltac:(lia)). nia.
  - intros Hle.
    assert ((a + b - 1) / b < q + 1)%nat; [|lia].
    apply Nat.Div0.div_lt_upper_bound. nia.
Qed.

Lemma ceil_div_unique a b q :
  (0 < b)%nat → (a ≤ q * b)%nat → (∀ q', (a ≤ q' * b)%nat → (q ≤ q')%nat) →
  ceil_div a b = q.
Proof.
  intros Hb Hq Hmin. apply Nat.le_antisymm.
  - by apply ceil_div_le.
  - apply Hmin. by apply ceil_div_le.
Qed.

Lemma half_up_ceil n : half_up n = ceil_div n 2.
Proof.
  symmetry. pose proof (half_up_rounds n).
  apply ceil_div_unique; [lia|lia|]. intros q' Hq'. lia.
Qed.

Lemma ceil_div_ceil_div a b c :
  (0 < b)%nat → (0 < c)%nat →
  ceil_div (ceil_div a b) c = ceil_div a (b * c).
Proof.
  intros Hb Hc.
  assert (Hbc : (0 < b * c)%nat) by (by apply Nat.mul_pos_pos).
  apply ceil_div_unique; [done| |].
  - apply (proj2 (ceil_div_le a b (ceil_div a (b * c) * c) Hb)).
    replace (ceil_div a (b * c) * c * b)%nat
      with (ceil_div a (b * c) * (b * c))%nat by lia.
    by apply (proj1 (ceil_div_le a (b * c) (ceil_div a (b * c)) Hbc)).
  - intros q' Hq'. apply ceil_div_le; [done|].
    apply (proj1 (ceil_div_le a b (q' * c) Hb)) in Hq'.
    replace (q' * (b * c))%nat with (q' * c * b)%nat by lia. done.
Qed.

Lemma ceil_div_1 a : ceil_div a 1 = a.
Proof. unfold ceil_div. rewrite Nat.div_1_r. lia. Qed.

Lemma pow2_pos l : (0 < 2 ^ l)%nat.
Proof.
  induction l as [|l IH]; [cbn; lia|]. rewrite Nat.pow_succ_r'. lia.
Qed.

(** The sides after [l] halvings. *)
Lemma half_up_iter l n : Nat.iter l half_up n = ceil_div n (2 ^ l).
Proof.
  induction l as [|l IH];
    [change (2 ^ 0)%nat with 1%nat; by rewrite ceil_div_1|].
  rewrite Nat.iter_succ, IH, half_up_ceil, ceil_div_ceil_div;
    [|apply pow2_pos|lia].
  f_equal. rewrite Nat.pow_succ_r'. lia.
Qed.


Section Levels.
Context {F : Type} `{FloatLaws F}.
Variables TileTotalLength TileTotalLifts : nat → nat → nat.
Variable s : AkoSettings F.
Variables tile_w tile_h channels planes_space : nat.


End Levels.


Section CallsOfTheColourTransform.
Variables width height channels tiles_size : nat.
Variable payload : nat → Z.
Variable pixel_of : list Z → nat → nat → nat → Z.
Hypothesis tiles_size_pos : (0 < tiles_size)%nat.

(** X23: every call of the colour transform is handed a block inside the
    two buffers.  In a turn of the loop that does not skip its tile, the
    [tile_memory_size] bytes copied from the payload lie before the byte
    that the loop has consumed at its end, and the bytes of the
    [tiles_size] by [tiles_size] pixels at the destination
    [image_memory + (width * row + col) * channels], with rows [width]
    pixels apart, all lie inside the [width * height * channels] bytes of
    [image_memory]. *)
Theorem decoder_blocks_lie_inside_buffers (i : nat) :
  (i < sTilesNo width height tiles_size)%nat →
  let d := decoder_after width height channels tiles_size payload pixel_of i in
  tile_is_partial width height tiles_size (d_col d) (d_row d) = false →
  (d_blob d + tile_memory_size channels tiles_size
   ≤ d_blob (AkoDecode width height channels tiles_size payload pixel_of))%nat
  ∧ ∀ r c ch,
      (r < tiles_size)%nat → (c < tiles_size)%nat → (ch < channels)%nat →
      ((width * d_row d + d_col d) * channels + (r * width + c) * channels + ch
       < width * height * channels)%nat.
Proof.
  intros Hi d Hfull. split.
  - destruct (decoder_after_position width height channels tiles_size payload
                pixel_of tiles_size_pos i ltac:(lia)) as (Hc & Hr & Hb).
    destruct (decoder_after_position width height channels tiles_size payload
                pixel_of tiles_size_pos (S i) ltac:(lia)) as (_ & _ & Hb').
    destruct (decoder_after_position width height channels tiles_size payload
                pixel_of tiles_size_pos (sTilesNo width height tiles_size)
                (le_n _)) as (_ & _ & Hend).
    fold d in Hc, Hr, Hb. unfold AkoDecode.
    unfold decoder_after in Hend. rewrite Hend, Hb.
    rewrite full_before_S in Hb' by done.
    rewrite <- Hc, <- Hr, Hfull in Hb'.
    assert (Hmono : ∀ a b, (a ≤ b)%nat →
              (full_before width height tiles_size a
               ≤ full_before width height tiles_size b)%nat).
    { intros a b Hab. induction Hab as [|b _ IH]; [done|].
      rewrite full_before_S by done. lia. }
    specialize (Hmono (S i) (sTilesNo width height tiles_size) ltac:(lia)).
    rewrite full_before_S in Hmono by done.
    rewrite <- Hc, <- Hr, Hfull in Hmono. nia.
  - intros r c ch Hr Hc Hch.
    unfold tile_is_partial in Hfull. apply orb_false_iff in Hfull as [Hw Hh].
    apply Nat.ltb_ge in Hw, Hh.
    assert (((d_row d + r) * width + (d_col d + c)) * channels + ch
            < height * width * channels)%nat; [|lia].
    assert ((d_row d + r) * width + (d_col d + c) + 1 ≤ height * width)%nat.
    { assert ((d_row d + r + 1) * width ≤ height * width)%nat
        by (apply Nat.mul_le_mono_r; lia).
      lia. }
    assert (((d_row d + r) * width + (d_col d + c) + 1) * channels
            ≤ height * width * channels)%nat
      by (by apply Nat.mul_le_mono_r).
    lia.
Qed.

End CallsOfTheColourTransform.

Lemma decoder_blocks_lie_inside_buffers_witness :
  let d := decoder_after 5 4 1 2 sample_payload sample_pixel_of 4 in
  (d_blob d + tile_memory_size 1 2
   ≤ d_blob (AkoDecode 5 4 1 2 sample_payload sample_pixel_of))%nat
  ∧ ∀ r c ch,
      (r < 2)%nat → (c < 2)%nat → (ch < 1)%nat →
      ((5 * d_row d + d_col d) * 1 + (r * 5 + c) * 1 + ch < 5 * 4 * 1)%nat.
Proof.
  apply (decoder_blocks_lie_inside_buffers 5 4 1 2 sample_payload
           sample_pixel_of).
  - lia.
  - vm_compute. lia.
  - reflexivity.
Defined.

(** ** A flat tile through the whole transform *)

Lemma quadrant_const m p w h v :
  (∀ c r, (c < w)%nat → (r < h)%nat →
          load m (padd p (Z.of_nat (c + r * (w * 2)))) = v) →
  quadrant_by_columns m p w h = replicate (w * h) v.
Proof.
  intros Hv. rewrite quadrant_as_offsets.
  rewrite <- (linearV_offsets_length w h (w * 2)).
  apply const_fmap. intros i o Ho.
  apply list_elem_of_lookup_2, elem_of_linearV_offsets in Ho
    as (c & r & Hc & Hr & ->).
  by apply Hv.
Qed.

Lemma plane_strides_apart tile_w tile_h planes_space ch ch' p :
  ch ≠ ch' →
  p ∈ ptr_range (plane tile_w tile_h planes_space ch)
        (tile_w * tile_h + planes_space) →
  p ∉ ptr_range (plane tile_w tile_h planes_space ch')
        (tile_w * tile_h + planes_space).
Proof.
  intros Hne Hp Hp'.
  apply elem_of_ptr_range in Hp as [_ Hp].
  apply elem_of_ptr_range in Hp' as [_ Hp'].
  unfold plane, in_, padd in Hp, Hp'. cbn [p_reg p_off] in Hp, Hp'.
  set (stride := (tile_w * tile_h + planes_space)%nat) in *.
  destruct (Nat.lt_trichotomy ch ch') as [Hlt|[->|Hlt]]; [|done|].
  - assert (stride * (ch + 1) ≤ stride * ch')%nat
      by (apply Nat.mul_le_mono_l; lia). lia.
  - assert (stride * (ch' + 1) ≤ stride * ch)%nat
      by (apply Nat.mul_le_mono_l; lia). lia.
Qed.

Section FlatTile.
Context {F : Type} `{FloatLaws F}.
Variable TileTotalLifts : nat → nat → nat.
Variable s : AkoSettings F.
Variables tile_w tile_h planes_space : nat.

Hypothesis steps_in_range :
  ∀ ch, f_lt (quantization s ch) (f_of_int 32768) = true.

Variable c0 : Z.
Hypothesis c0_int16 : int16 c0.

Local Notation "'lp' ch" := (plane tile_w tile_h planes_space ch)
  (at level 10, ch at level 9).
Local Notation "'stride'" := (tile_w * tile_h + planes_space)%nat.

Local Notation "'flat_in'" := (flat_input tile_w tile_h planes_space c0).

Lemma lift_channel_flat k lift cw chh ch st c :
  (2 < cw)%nat → (2 < chh)%nat →
  (lift = 0%nat → cw = tile_w ∧ chh = tile_h) →
  flat_in (st_mem st) lift cw chh ch →
  let tw := half_up cw in
  let th := half_up chh in
  let n := (tw * th)%nat in
  let cur := Ptr ROut (c - (Z.of_nat n * 3 + 1)) in
  ∃ q16 st',
    f_to_int16 (quantization_q s ch lift) = Some q16
    ∧ lift_channel TileTotalLifts s tile_w tile_h planes_space
        k lift cw chh tw th ch st (Ptr ROut c) = Some (st', cur)
    ∧ load (st_mem st') <$> ptr_range cur (n * 3 + 1)
      = q16 :: replicate (n * 3) 0
    ∧ flat_in (st_mem st') (lift + 1) tw th ch
    ∧ (∀ p, p ∉ ptr_range aux_memory (Nat.max (tw * 2) (th * 4)) →
            p ∉ ptr_range (lp ch) (tw * 2 * (th * 2)) →
            p ∉ ptr_range (buffer_b tile_w tile_h planes_space lift cw chh ch)
                  (tw * 2 * (th * 2)) →
            p ∉ ptr_range cur (n * 3 + 1) →
            load (st_mem st') p = load (st_mem st) p).
Proof.
  intros Hcw Hchh Hfirst Hflat tw th n cur.
  destruct (half_up_lt cw Hcw) as [_ Htw].
  destruct (half_up_lt chh Hchh) as [_ Hth].
  pose proof (half_up_rounds cw) as Hrw.
  pose proof (half_up_rounds chh) as Hrh.
  fold tw in Htw, Hrw. fold th in Hth, Hrh.
  destruct (lift_channel_step TileTotalLifts s tile_w tile_h planes_space
              steps_in_range k lift cw chh ch st c Hcw Hchh Hfirst)
    as (q16 & st' & Hq & Hrun & Hrec & Hframe).
  cbn zeta in Hrec, Hframe. fold tw th in Hrun, Hrec, Hframe.
  fold n in Hrec, Hframe. fold cur in Hrun, Hrec, Hframe.
  destruct (quantization_q_converts s ch lift (steps_in_range ch))
    as (q16' & Hq' & Hq16).
  assert (q16' = q16) as -> by congruence.
  assert (Hblock : ∀ r col, (r < th * 2)%nat → (col < tw * 2)%nat →
            load (st_mem st') (padd (lp ch) (Z.of_nat (col + r * (tw * 2))))
            = if (r <? th)%nat && (col <? tw)%nat then c0 else 0).
  { pose proof Hrun as Hrun0. unfold lift_channel in Hrun0.
    rewrite Hq in Hrun0. cbn [mbind option_bind] in Hrun0.
    unfold flat_input in Hflat.
    destruct (Nat.eqb_spec lift 0) as [Hl|Hl].
    - destruct (Hfirst Hl) as [Ew Eh].
      destruct (sLift2d_flat k q16
                  (quantization_g TileTotalLifts s tile_w tile_h ch lift)
                  tile_w tile_h tw th 0 aux_memory (lp ch)
                  (padd out_ (Z.of_nat (tile_w * tile_h * ch))) (st_mem st)
                  c0) as (m' & Hm' & Hcont);
        [lia|lia|lia|by rewrite <- Ew|by rewrite <- Eh|done|done|by left|
         done| |].
      { intros r i Hr Hi. rewrite <- Ew, <- Eh in *. by apply Hflat. }
      rewrite Hm' in Hrun0. cbn [mbind option_bind] in Hrun0.
      assert (Hst : (emit_record q16 tw th (lp ch) (Ptr ROut c)
                       (State m' (st_log st))).1 = st')
        by (by injection Hrun0).
      intros r col Hr Hcol. rewrite <- Hst.
      rewrite emit_record_frame by (by apply not_elem_of_ptr_range_region).
      by apply Hcont.
    - destruct (sLift2d_flat k q16
                  (quantization_g TileTotalLifts s tile_w tile_h ch lift)
                  cw chh tw th cw aux_memory (lp ch)
                  (padd (lp ch) (Z.of_nat (cw * chh * 2))) (st_mem st) c0)
        as (m' & Hm' & Hcont);
        [lia|lia|lia|done|done|done|done| |done|done|].
      { right. left. unfold padd. cbn [p_reg p_off]. nia. }
      rewrite Hm' in Hrun0. cbn [mbind option_bind] in Hrun0.
      assert (Hst : (emit_record q16 tw th (lp ch) (Ptr ROut c)
                       (State m' (st_log st))).1 = st')
        by (by injection Hrun0).
      intros r col Hr Hcol. rewrite <- Hst.
      rewrite emit_record_frame by (by apply not_elem_of_ptr_range_region).
      by apply Hcont. }
  exists q16, st'. split_and!; [done|done| | |done].
  - rewrite Hrec. f_equal. unfold bottom_left, top_right, bottom_right.
    rewrite !(quadrant_const _ _ tw th 0).
    + rewrite <- !replicate_add. f_equal. unfold n. lia.
    + intros col r Hcol Hr. rewrite padd_padd, <- Nat2Z.inj_add.
      replace (tw + th * (tw * 2) + (col + r * (tw * 2)))%nat
        with ((tw + col) + (th + r) * (tw * 2))%nat by lia.
      rewrite Hblock by lia.
      destruct (Nat.ltb_spec (th + r) th); [lia|done].
    + intros col r Hcol Hr. rewrite padd_padd, <- Nat2Z.inj_add.
      replace (tw + (col + r * (tw * 2)))%nat
        with ((tw + col) + r * (tw * 2))%nat by lia.
      rewrite Hblock by lia.
      destruct (Nat.ltb_spec (tw + col) tw); [lia|].
      by rewrite andb_false_r.
    + intros col r Hcol Hr. rewrite padd_padd, <- Nat2Z.inj_add.
      replace (tw * th * 2 + (col + r * (tw * 2)))%nat
        with (col + (th + r) * (tw * 2))%nat by lia.
      rewrite Hblock by lia.
      destruct (Nat.ltb_spec (th + r) th); [lia|done].
  - intros r i Hr Hi.
    replace (lift + 1 =? 0)%nat with false by (symmetry; apply Nat.eqb_neq; lia).
    replace (r * (tw + tw) + i)%nat with (i + r * (tw * 2))%nat by lia.
    rewrite Hblock by lia.
    destruct (Nat.ltb_spec r th); [|lia].
    destruct (Nat.ltb_spec i tw); [done|lia].
Qed.

Variable heads : nat → nat → Z.
Hypothesis heads_are_steps :
  ∀ ch lift, f_to_int16 (quantization_q s ch lift) = Some (heads ch lift).

(** One level on flat planes: the records of the level, and the planes
    that it leaves to the next level. *)
Lemma lift_channels_flat k lift cw chh chs st c :
  (2 < cw)%nat → (2 < chh)%nat →
  (lift = 0%nat → cw = tile_w ∧ chh = tile_h) →
  ((if (lift =? 0)%nat then 0 else cw * chh * 2)
   + half_up cw * 2 * (half_up chh * 2) ≤ stride)%nat →
  let tw := half_up cw in
  let th := half_up chh in
  let n := (tw * th)%nat in
  NoDup chs →
  (lift = 0%nat → ∀ i ch, chs !! i = Some ch →
     Z.of_nat (tile_w * tile_h * ch + tw * 2 * (th * 2))
     ≤ c - Z.of_nat i * (Z.of_nat n * 3 + 1)) →
  (∀ ch, ch ∈ chs → flat_in (st_mem st) lift cw chh ch) →
  ∃ st',
    lift_channels TileTotalLifts s tile_w tile_h planes_space
      k lift cw chh tw th chs st (Ptr ROut c)
    = Some (st', Ptr ROut (c - Z.of_nat (length chs * (n * 3 + 1))))
    ∧ load (st_mem st')
        <$> ptr_range (Ptr ROut (c - Z.of_nat (length chs * (n * 3 + 1))))
              (length chs * (n * 3 + 1))
      = (ch ← reverse chs; heads ch lift :: replicate (n * 3) 0)
    ∧ (∀ ch, ch ∈ chs → flat_in (st_mem st') (lift + 1) tw th ch)
    ∧ (∀ p, p_reg p = ROut → c ≤ p_off p →
            load (st_mem st') p = load (st_mem st) p)
    ∧ (∀ p, p_reg p = RIn →
            (∀ ch, ch ∈ chs → p ∉ ptr_range (lp ch) stride) →
            load (st_mem st') p = load (st_mem st) p).
Proof.
  intros Hcw Hchh Hfirst Hroom tw th n Hnd.
  pose proof (half_up_rounds cw) as Hrw.
  pose proof (half_up_rounds chh) as Hrh.
  fold tw in Hrw, Hroom. fold th in Hrh, Hroom.
  (* the cells of a plane that a lift reads or leaves lie in its stride *)
  assert (Hin : ∀ ch l w h r i,
            (r < h)%nat → (i < w)%nat →
            (h * (w + (if (l =? 0)%nat then 0 else w)) ≤ stride)%nat →
            padd (lp ch)
              (Z.of_nat (r * (w + (if (l =? 0)%nat then 0 else w)) + i))
            ∈ ptr_range (lp ch) stride).
  { intros ch l w h r i Hr Hi Hfit. apply elem_of_ptr_range.
    unfold padd. cbn [p_reg p_off]. split; [done|].
    set (pitch := (w + (if (l =? 0)%nat then 0 else w))%nat) in *.
    assert (w ≤ pitch)%nat by (unfold pitch; lia).
    assert ((r + 1) * pitch ≤ h * pitch)%nat
      by (apply Nat.mul_le_mono_r; lia).
    lia. }
  assert (Hread : (chh * (cw + (if (lift =? 0)%nat then 0 else cw))
                   ≤ stride)%nat).
  { destruct (Nat.eqb_spec lift 0) as [Hl|Hl].
    - destruct (Hfirst Hl) as [<- <-]. lia.
    - lia. }
  assert (Hleft : (th * (tw + (if (lift + 1 =? 0)%nat then 0 else tw))
                   ≤ stride)%nat).
  { replace (lift + 1 =? 0)%nat with false
      by (symmetry; apply Nat.eqb_neq; lia).
    assert (th * (tw + tw) ≤ tw * 2 * (th * 2))%nat by nia. lia. }
  revert st c.
  induction Hnd as [|ch chs Hnotin Hnd IH]; intros st c Hb Hflat.
  - cbn [lift_channels length]. exists st.
    split_and!; [|done|by intros ch Hch%elem_of_nil|done|done].
    do 3 f_equal. lia.
  - cbn [lift_channels length].
    destruct (lift_channel_flat k lift cw chh ch st c Hcw Hchh Hfirst)
      as (q16 & st1 & Hq & Hrun1 & Hrec1 & Hflat1 & Hf1).
    { apply Hflat. left. }
    rewrite heads_are_steps in Hq. injection Hq as <-.
    cbn zeta in Hrun1, Hrec1, Hflat1, Hf1.
    fold tw th in Hrun1, Hrec1, Hflat1, Hf1. fold n in Hrun1, Hrec1, Hf1.
    rewrite Hrun1. cbn [mbind option_bind].
    set (c1 := c - (Z.of_nat n * 3 + 1)) in *.
    assert (HstepA : ∀ p, p_reg p = ROut → c ≤ p_off p →
              load (st_mem st1) p = load (st_mem st) p).
    { intros p Hreg Hoff. apply Hf1.
      - apply not_elem_of_ptr_range_region. by rewrite Hreg.
      - apply not_elem_of_ptr_range_region. by rewrite Hreg.
      - unfold buffer_b. destruct (Nat.eqb_spec lift 0) as [Hl|Hl].
        + specialize (Hb Hl 0%nat ch eq_refl).
          rewrite elem_of_ptr_range. unfold out_, padd. cbn [p_reg p_off].
          lia.
        + apply not_elem_of_ptr_range_region. by rewrite Hreg.
      - rewrite elem_of_ptr_range. cbn [p_reg p_off]. unfold c1. lia. }
    assert (HstepB : ∀ p, p_reg p = RIn → p ∉ ptr_range (lp ch) stride →
              load (st_mem st1) p = load (st_mem st) p).
    { intros p Hreg Hp. apply Hf1.
      - apply not_elem_of_ptr_range_region. by rewrite Hreg.
      - intros Hin'. apply Hp. apply elem_of_ptr_range in Hin' as [Hr Ho].
        apply elem_of_ptr_range. split; [done|].
        destruct (lift =? 0)%nat; lia.
      - unfold buffer_b. destruct (Nat.eqb_spec lift 0) as [Hl|Hl].
        + apply not_elem_of_ptr_range_region. by rewrite Hreg.
        + intros Hin'. apply Hp. apply elem_of_ptr_range in Hin' as [Hr Ho].
          apply elem_of_ptr_range. unfold padd in *. cbn [p_reg p_off] in *.
          split; [done|]. lia.
      - apply not_elem_of_ptr_range_region. by rewrite Hreg. }
    assert (Hother : ∀ ch' p, ch' ≠ ch → p ∈ ptr_range (lp ch') stride →
              p ∉ ptr_range (lp ch) stride)
      by (intros ch' p Hne; by apply plane_strides_apart).
    destruct (IH st1 c1) as (st' & Hrun' & Hrecs & Hflats & HfA & HfB).
    { intros Hl i ch' Hi. specialize (Hb Hl (S i) ch' Hi). unfold c1. lia. }
    { intros ch' Hch' r i Hr Hi. rewrite HstepB.
      - apply Hflat; [by right|done..].
      - done.
      - apply (Hother ch'); [by intros ->|]. by apply (Hin ch' lift cw chh). }
    rewrite Hrun'. exists st'.
    assert (Hcur : c1 - Z.of_nat (length chs * (n * 3 + 1))
                   = c - Z.of_nat (S (length chs) * (n * 3 + 1)))
      by (unfold c1; lia).
    split_and!.
    + do 3 f_equal. exact Hcur.
    + rewrite reverse_cons, bind_app. cbn [mbind list_bind]. rewrite app_nil_r.
      replace (S (length chs) * (n * 3 + 1))%nat
        with (length chs * (n * 3 + 1) + (n * 3 + 1))%nat by lia.
      rewrite ptr_range_app, fmap_app. f_equal.
      * rewrite <- Hrecs. do 3 f_equal. lia.
      * rewrite <- Hrec1.
        replace (padd _ _) with (Ptr ROut c1).
        2: { unfold padd. cbn [p_reg p_off]. f_equal. unfold c1. lia. }
        apply fmap_load_frame. intros p Hp.
        apply elem_of_ptr_range in Hp as [Hr Ho]. cbn [p_reg p_off] in Hr, Ho.
        apply HfA; [done|lia].
    + intros ch' Hch'. apply elem_of_cons in Hch' as [->|Hch'].
      * intros r i Hr Hi. rewrite HfB.
        -- by apply Hflat1.
        -- done.
        -- intros ch' Hch'.
           apply (plane_strides_apart tile_w tile_h planes_space ch ch');
             [by intros ->|].
           by apply (Hin ch (lift + 1)%nat tw th).
      * by apply Hflats.
    + intros p Hreg Hoff. rewrite HfA; [by apply HstepA|done|].
      unfold c1. lia.
    + intros p Hreg Hp. rewrite HfB; [apply HstepB; [done|]|done|].
      * apply Hp. left.
      * intros ch' Hch'. apply Hp. by right.
Qed.

(** The lowpasses of flat planes. *)
Lemma emit_lowpasses_flat tw th chs st c :
  (∀ ch row col, ch ∈ chs → (row < th)%nat → (col < tw)%nat →
     load (st_mem st) (padd (lp ch) (Z.of_nat (row * (tw * 2) + col))) = c0) →
  let len := (length chs * (tw * th))%nat in
  load (st_mem (emit_lowpasses tile_w tile_h planes_space tw th chs st
                  (Ptr ROut c)).1)
    <$> ptr_range (Ptr ROut (c - Z.of_nat len)) len
  = replicate len c0.
Proof.
  intros Hflat len.
  destruct (emit_lowpasses_spec tile_w tile_h planes_space tw th chs st c)
    as [_ Hcont].
  rewrite (const_fmap _ (ptr_range (Ptr ROut (c - Z.of_nat len)) len) c0);
    [by rewrite ptr_range_length|].
  intros j p Hp.
  unfold ptr_range in Hp. rewrite list_lookup_fmap in Hp.
  destruct (seq 0 len !! j) as [j'|] eqn:Hj; [|done].
  apply lookup_seq in Hj as [-> Hj]. injection Hp as <-.
  cbn [Nat.add]. unfold len in Hj.
  assert (0 < tw * th)%nat as Hn by (destruct (tw * th)%nat; lia).
  assert (0 < tw)%nat as Htw by (destruct tw; lia).
  set (n := (tw * th)%nat) in *.
  pose proof (Nat.div_mod j n ltac:(lia)) as Hdiv.
  pose proof (Nat.mod_upper_bound j n ltac:(lia)) as Hmod.
  set (b := (j / n)%nat) in *. set (x := (j `mod` n)%nat) in *.
  assert (b < length chs)%nat as Hb.
  { destruct (Nat.lt_ge_cases b (length chs)) as [|Hge]; [done|].
    assert (n * length chs ≤ n * b)%nat by (by apply Nat.mul_le_mono_l).
    lia. }
  pose proof (Nat.div_mod x tw ltac:(lia)) as Hdiv'.
  pose proof (Nat.mod_upper_bound x tw ltac:(lia)) as Hmod'.
  set (row := (x / tw)%nat) in *. set (col := (x `mod` tw)%nat) in *.
  assert (row < th)%nat as Hrow.
  { destruct (Nat.lt_ge_cases row th) as [|Hge]; [done|].
    assert (tw * th ≤ tw * row)%nat by (by apply Nat.mul_le_mono_l).
    unfold n in Hmod. lia. }
  destruct (lookup_lt_is_Some_2 chs (length chs - 1 - b)%nat) as [ch Hch];
    [lia|].
  pose proof (Hcont (length chs - 1 - b)%nat ch row col Hch Hrow Hmod')
    as Hcell.
  cbn zeta in Hcell. fold n in Hcell.
  rewrite <- (Hflat ch row col); [|by eapply list_elem_of_lookup_2|done..].
  rewrite <- Hcell. f_equal. unfold padd. cbn [p_reg p_off]. f_equal.
  assert (∃ K, length chs = K + 1 + b)%nat as [K HK]
    by (exists (length chs - 1 - b)%nat; lia).
  replace (length chs - 1 - b + 1)%nat with (K + 1)%nat by lia.
  unfold len. rewrite HK. clearbody b x row col. lia.
Qed.

Variable channels : nat.

(** The levels from [lift] on, and the lowpasses behind them. *)
Lemma lift_levels_flat fuel k lift w h st c :
  (w ≤ fuel)%nat →
  (lift = 0%nat → w = tile_w ∧ h = tile_h ∧ (2 < w)%nat ∧ (2 < h)%nat) →
  (half_up w * 2 * (half_up h * 2) ≤ stride)%nat →
  (lift ≠ 0%nat → w * 2 * (h * 2) ≤ stride)%nat →
  (lift = 0%nat →
     Z.of_nat (tile_w * tile_h * (channels - 1)
               + half_up w * 2 * (half_up h * 2)) ≤ c
     ∧ Z.of_nat (half_up w * 2 * (half_up h * 2)
                 + (channels - 1) * (half_up w * half_up h * 3 + 1)) ≤ c) →
  (∀ ch, (ch < channels)%nat → flat_in (st_mem st) lift w h ch) →
  ∃ r,
    lift_levels TileTotalLifts s tile_w tile_h channels planes_space
      fuel k lift w h st (Ptr ROut c) = Some r
    ∧ let len := (channels * stream_length fuel w h)%nat in
      let low := emit_lowpasses tile_w tile_h planes_space (r_target_w r)
                   (r_target_h r) (channels_down channels) (r_state r)
                   (r_cursor r) in
      low.2 = Ptr ROut (c - Z.of_nat len)
      ∧ load (st_mem low.1) <$> ptr_range (Ptr ROut (c - Z.of_nat len)) len
        = flat_stream heads c0 fuel channels lift w h
      ∧ (∀ p, p_reg p = ROut → c ≤ p_off p →
              load (st_mem low.1) p = load (st_mem st) p).
Proof.
  assert (Hbase : ∀ lift w h st c,
            lift ≠ 0%nat →
            (∀ ch, (ch < channels)%nat → flat_in (st_mem st) lift w h ch) →
            let len := (channels * (w * h))%nat in
            let low := emit_lowpasses tile_w tile_h planes_space w h
                         (channels_down channels) st (Ptr ROut c) in
            low.2 = Ptr ROut (c - Z.of_nat len)
            ∧ load (st_mem low.1)
                <$> ptr_range (Ptr ROut (c - Z.of_nat len)) len
              = replicate len c0
            ∧ (∀ p, p_reg p = ROut → c ≤ p_off p →
                    load (st_mem low.1) p = load (st_mem st) p)).
  { intros lift' w' h' st' c' Hl Hflat len low.
    pose proof (emit_lowpasses_cursor tile_w tile_h planes_space w' h'
                  (channels_down channels) st' (Ptr ROut c')) as Hcur.
    pose proof (emit_lowpasses_flat w' h' (channels_down channels) st' c')
      as Hcont.
    destruct (emit_lowpasses_spec tile_w tile_h planes_space w' h'
                (channels_down channels) st' c') as [Hframe _].
    rewrite channels_down_length in Hcur, Hcont, Hframe.
    cbn zeta in Hcont, Hframe. fold len in Hcur, Hcont, Hframe.
    fold low in Hcur, Hcont, Hframe.
    split_and!.
    - rewrite Hcur. unfold padd. cbn [p_reg p_off]. f_equal; lia.
    - apply Hcont. intros ch row col Hch Hrow Hcol.
      unfold channels_down in Hch.
      apply elem_of_reverse, elem_of_seq in Hch.
      specialize (Hflat ch ltac:(lia) row col Hrow Hcol).
      destruct (Nat.eqb_spec lift' 0) as [|_]; [done|].
      rewrite <- Hflat. do 3 f_equal. lia.
    - intros p Hreg Hoff. apply Hframe. rewrite elem_of_ptr_range.
      cbn [p_reg p_off]. lia. }
  revert lift w h st c.
  induction fuel as [|fuel IH];
    intros lift w h st c Hf Hfirst Hplane Hprev Hcur Hflat;
    cbn [lift_levels stream_length flat_stream];
    destruct ((2 <? w)%nat && (2 <? h)%nat) eqn:Hc.
  - apply andb_true_iff in Hc as [Hw%Nat.ltb_lt _]. lia.
  - eexists. split; [done|].
    cbn [r_target_w r_target_h r_state r_cursor].
    apply (Hbase lift); [|done].
    intros Hl. destruct (Hfirst Hl) as (_ & _ & Hw & Hh).
    apply andb_false_iff in Hc as [Hc|Hc]; apply Nat.ltb_ge in Hc; lia.
  - apply andb_true_iff in Hc as [Hw%Nat.ltb_lt Hh%Nat.ltb_lt].
    destruct (half_up_lt w Hw) as [Hwlt Hw2].
    destruct (half_up_lt h Hh) as [Hhlt Hh2].
    pose proof (half_block_fits w h Hw Hh) as Hfits.
    pose proof (half_block_shrinks w h) as Hshrinks.
    destruct (lift_channels_flat k lift w h (channels_down channels) st c
                Hw Hh) as (st1 & Hlevel & Hrecs & Hflats & HfA & _).
    { intros Hl. by destruct (Hfirst Hl) as (-> & -> & _). }
    { destruct (Nat.eqb_spec lift 0) as [Hl|Hl]; [lia|].
      specialize (Hprev Hl). lia. }
    { unfold channels_down. rewrite reverse_Permutation. apply NoDup_seq. }
    { intros Hl i ch Hi. destruct (Hcur Hl) as [Htop Hbottom].
      unfold channels_down in Hi.
      pose proof (lookup_lt_Some _ _ _ Hi) as Hlt.
      rewrite length_reverse, length_seq in Hlt.
      rewrite reverse_lookup, length_seq in Hi by (by rewrite length_seq).
      apply lookup_seq in Hi as [-> _]. cbn [Nat.add].
      pose proof (buffers_below_records (tile_w * tile_h)
                    (half_up w * 2 * (half_up h * 2))
                    (half_up w * half_up h * 3 + 1) channels i c Hlt Htop
                    Hbottom).
      replace (channels - S i)%nat with (channels - 1 - i)%nat by lia.
      lia. }
    { intros ch Hch. apply Hflat. unfold channels_down in Hch.
      apply elem_of_reverse, elem_of_seq in Hch. lia. }
    cbn zeta in Hlevel, Hrecs, Hflats. rewrite channels_down_length in *.
    rewrite Hlevel. cbn [mbind option_bind].
    set (rec := (half_up w * half_up h * 3 + 1)%nat) in *.
    set (c1 := c - Z.of_nat (channels * rec)) in *.
    destruct (IH (lift + 1)%nat (half_up w) (half_up h) st1 c1)
      as (r & Hrun & Hlow & Hcont & Hframe).
    { lia. }
    { intros Hl. lia. }
    { lia. }
    { intros _. lia. }
    { intros Hl. lia. }
    { intros ch Hch. apply Hflats. unfold channels_down.
      apply elem_of_reverse, elem_of_seq. lia. }
    exists r. split; [done|]. cbn zeta in Hlow, Hcont, Hframe |- *.
    set (rest := stream_length fuel (half_up w) (half_up h)) in *.
    assert (Hsum : (channels * (rec + rest)
                    = channels * rest + channels * rec)%nat) by lia.
    rewrite Hsum.
    assert (Hpos : c - Z.of_nat (channels * rest + channels * rec)
                   = c1 - Z.of_nat (channels * rest)) by (unfold c1; lia).
    rewrite Hpos. split_and!.
    + exact Hlow.
    + rewrite ptr_range_app, fmap_app. f_equal; [exact Hcont|].
      unfold channels_down in Hrecs. rewrite reverse_involutive in Hrecs.
      rewrite <- Hrecs.
      replace (padd _ _) with (Ptr ROut c1).
      2: { unfold padd. cbn [p_reg p_off]. f_equal. lia. }
      apply fmap_load_frame. intros p Hp.
      apply elem_of_ptr_range in Hp as [Hr Ho]. cbn [p_reg p_off] in Hr, Ho.
      apply Hframe; [done|lia].
    + intros p Hreg Hoff. rewrite Hframe; [by apply HfA|done|].
      unfold c1. lia.
  - eexists. split; [done|].
    cbn [r_target_w r_target_h r_state r_cursor].
    apply (Hbase lift); [|done].
    intros Hl. destruct (Hfirst Hl) as (_ & _ & Hw & Hh).
    apply andb_false_iff in Hc as [Hc|Hc]; apply Nat.ltb_ge in Hc; lia.
Qed.

End FlatTile.

Section FlatTransform.
Context {F : Type} `{FloatLaws F}.
Variables TileTotalLength TileTotalLifts : nat → nat → nat.
Variable s : AkoSettings F.
Variables tile_w tile_h channels planes_space : nat.

(** X24: a flat tile through the whole transform.  Where every sample of
    every plane is [c0] and both sides of the tile are above 2, the stream
    that [DwtTransform] leaves at its cursor is the lowpasses of the
    channels with [c0] in every cell, then, for each level from the last
    to the first and each channel from 0 on, the step of the channel at
    the level and zeros in the three quadrants of the record: no level
    finds detail, for every kernel, step and gate.  The planes must be
    [2 tw * 2 th] cells apart or more, with [tw] and [th] the halves of
    the sides rounded up, and the buffers B that the first lift has in
    [out] must end at or before the cursor, and at or before the records
    of the first level that are stored before they are used. *)
Theorem dwt_flat_tile (k : kernel) (m : mem) (c0 : Z) :
  (∀ ch, f_lt (quantization s ch) (f_of_int 32768) = true) →
  (2 < tile_w)%nat → (2 < tile_h)%nat →
  let tw := half_up tile_w in
  let th := half_up tile_h in
  (tw * 2 * (th * 2) ≤ tile_w * tile_h + planes_space)%nat →
  (tile_w * tile_h * (channels - 1) + tw * 2 * (th * 2)
   ≤ TileTotalLength tile_w tile_h * channels)%nat →
  (tw * 2 * (th * 2) + (channels - 1) * (tw * th * 3 + 1)
   ≤ TileTotalLength tile_w tile_h * channels)%nat →
  int16 c0 →
  (∀ ch i, (ch < channels)%nat → (i < tile_w * tile_h)%nat →
     load m (padd (plane tile_w tile_h planes_space ch) (Z.of_nat i)) = c0) →
  ∃ (heads : nat → nat → Z) r,
    (∀ ch lift, f_to_int16 (quantization_q s ch lift) = Some (heads ch lift))
    ∧ DwtTransform TileTotalLength TileTotalLifts s tile_w tile_h channels
        planes_space (Some k) m = Some r
    ∧ load (st_mem (r_state r))
        <$> ptr_range (r_cursor r)
              (channels * stream_length tile_w tile_w tile_h)
      = flat_stream heads c0 tile_w channels 0 tile_w tile_h.
Proof.
  intros Hsteps Hw Hh tw th Hroom Htop Hbottom Hc0 Hflat.
  set (heads := λ ch lift,
         default 0 (f_to_int16 (quantization_q s ch lift))).
  assert (Hheads : ∀ ch lift,
            f_to_int16 (quantization_q s ch lift) = Some (heads ch lift)).
  { intros ch lift.
    destruct (quantization_q_converts s ch lift (Hsteps ch))
      as (q16 & Hq & _).
    unfold heads. by rewrite Hq. }
  destruct (DwtTransform_halves TileTotalLength TileTotalLifts s tile_w
              tile_h channels planes_space Hsteps k m)
    as (r0 & c & Hrun & Hcur & ->).
  destruct (lift_levels_flat TileTotalLifts s tile_w tile_h planes_space
              Hsteps c0 Hc0 heads Hheads channels tile_w k 0 tile_w tile_h
              (State m [])
              (Z.of_nat (TileTotalLength tile_w tile_h * channels)))
    as (r' & Hrun' & Hlow & Hcont & _).
  - done.
  - done.
  - done.
  - done.
  - intros _. fold tw th. split; lia.
  - intros ch Hch r i Hr Hi. cbn [Nat.eqb st_mem].
    rewrite Nat.add_0_r. apply Hflat; [done|].
    assert ((r + 1) * tile_w ≤ tile_h * tile_w)%nat
      by (apply Nat.mul_le_mono_r; lia).
    lia.
  - rewrite Hrun in Hrun'. injection Hrun' as <-.
    exists heads. eexists. split_and!; [done|done|].
    cbn [r_state r_cursor]. cbn zeta in Hlow, Hcont.
    rewrite Hlow. exact Hcont.
Qed.

End FlatTransform.

Lemma dwt_flat_tile_witness :
  ∃ (heads : nat → nat → Z) r,
    (∀ ch lift,
       f_to_int16 (quantization_q lossless_settings ch lift)
       = Some (heads ch lift))
    ∧ DwtTransform TileTotalLength_spec TileTotalLifts_spec lossless_settings
        8 8 2 0 (Some DD97) flat_planes = Some r
    ∧ load (st_mem (r_state r))
        <$> ptr_range (r_cursor r) (2 * stream_length 8 8 8)
      = flat_stream heads 7 8 2 0 8 8.
Proof.
  apply (dwt_flat_tile TileTotalLength_spec TileTotalLifts_spec
           lossless_settings 8 8 2 0 DD97 flat_planes 7).
  - intros ch. reflexivity.
  - lia.
  - lia.
  - vm_compute. lia.
  - vm_compute. lia.
  - vm_compute. lia.
  - unfold int16. lia.
  - intros ch i _ _. reflexivity.
Defined.

(** ** The step, from the driver to the kernel *)

(** C10, as the code has it: the step that the driver passes on is the
    conversion to [int16_t] of a [float] that the two clamps keep from
    being below 1.  Where the conversion is defined the step is between 1
    and 32767 and the kernel divides by no zero; it is defined for every
    user step below 32768; a channel step that has a result has passed
    such a step on.  What is passed on, and to which calls: for a user
    step below 32768, in a turn of the loop over the levels (both sides
    above 2, the targets their halves rounded up, the tile at the first
    lift), the step of the channel is the call of [sLift2d] with the
    converted step [q16] and the record with the head [q16]; the call has
    a result, and so has every call of [sLift1d] in it, one for each row
    and one for each column, each with this same [q16].  With such user
    steps on every channel the whole of [DwtTransform] has a result. *)
Theorem quantization_step_at_least_1 {F : Type} `{FloatLaws F}
    (s : AkoSettings F) (ch lift : nat) :
  (∀ q16,
     f_to_int16 (quantization_q s ch lift) = Some q16 →
     1 ≤ q16 ≤ 32767 ∧ ∀ (g : F) (v : Z), is_Some (degrade_at q16 g v))
  ∧ (f_lt (quantization s ch) (f_of_int 32768) = true →
     is_Some (f_to_int16 (quantization_q s ch lift)))
  ∧ (∀ TileTotalLifts tile_w tile_h planes_space k cw chh tw th st cur,
       is_Some (lift_channel TileTotalLifts s tile_w tile_h planes_space
                  k lift cw chh tw th ch st cur) →
       ∃ q16, f_to_int16 (quantization_q s ch lift) = Some q16 ∧ 1 ≤ q16)
  ∧ (∀ TileTotalLifts tile_w tile_h planes_space k cw chh st cur,
       f_lt (quantization s ch) (f_of_int 32768) = true →
       (2 < cw)%nat → (2 < chh)%nat →
       (lift = 0%nat → cw = tile_w ∧ chh = tile_h) →
       let g := quantization_g TileTotalLifts s tile_w tile_h ch lift in
       let tw := half_up cw in
       let th := half_up chh in
       let lp := plane tile_w tile_h planes_space ch in
       let pitch := if (lift =? 0)%nat then 0%nat else cw in
       let b := buffer_b tile_w tile_h planes_space lift cw chh ch in
       ∃ q16 m' (rows : nat → list Z),
         f_to_int16 (quantization_q s ch lift) = Some q16
         ∧ 1 ≤ q16 ≤ 32767
         ∧ (∀ r, (r < chh)%nat →
              sLift1d k q16 g tw
                (list_reader
                   (padded_row (st_mem st)
                      (padd lp (Z.of_nat (r * (cw + pitch)))) cw tw))
              = Some (rows r))
         ∧ (∀ col, (col < tw * 2)%nat →
              sLift1d k q16 g th
                (list_reader
                   ((λ i, default 0 (rows (Nat.min i (chh - 1)) !! col))
                      <$> seq 0 (th * 2)))
              = Some (column_of m' lp col tw th))
         ∧ sLift2d k q16 g cw chh tw th pitch aux_memory lp b (st_mem st)
           = Some m'
         ∧ lift_channel TileTotalLifts s tile_w tile_h planes_space
             k lift cw chh tw th ch st cur
           = Some (emit_record q16 tw th lp cur (State m' (st_log st))))
  ∧ (∀ TileTotalLength TileTotalLifts tile_w tile_h channels planes_space
       k m,
       (∀ ch', f_lt (quantization s ch') (f_of_int 32768) = true) →
       is_Some (DwtTransform TileTotalLength TileTotalLifts s tile_w tile_h
                  channels planes_space (Some k) m)).
Proof.
  assert (Hge : ∀ q16, f_to_int16 (quantization_q s ch lift) = Some q16 →
                       1 ≤ q16 ≤ 32767).
  { intros q16 Hq.
    pose proof (f_to_int16_lower _ _ Hq (quantization_q_not_below_1 s ch lift)).
    pose proof (f_to_int16_int16 _ _ Hq) as Hr. unfold int16 in Hr. lia. }
  split_and!.
  - intros q16 Hq. split; [by apply Hge|].
    intros g v. rewrite degrade_at_Some; [by eexists|].
    specialize (Hge q16 Hq). lia.
  - intros Hlim. destruct (quantization_q_converts s ch lift Hlim)
      as (q16 & -> & _). by eexists.
  - intros TileTotalLifts tile_w tile_h planes_space k cw chh tw th st cur
      [r Hr].
    unfold lift_channel in Hr.
    destruct (f_to_int16 (quantization_q s ch lift)) as [q16|] eqn:Hq;
      [|done].
    exists q16. split; [done|]. specialize (Hge q16 eq_refl). lia.
  - intros TileTotalLifts tile_w tile_h planes_space k cw chh st cur
      Hlim Hcw Hchh Hfirst g tw th lp pitch b.
    destruct (quantization_q_converts s ch lift Hlim) as (q16 & Hq & Hq16).
    destruct (half_up_lt cw Hcw) as [_ Htw].
    destruct (half_up_lt chh Hchh) as [_ Hth].
    pose proof (half_up_rounds cw) as Hrw.
    pose proof (half_up_rounds chh) as Hrh.
    fold tw in Htw, Hrw. fold th in Hth, Hrh.
    assert (Hapart : apart lp (Nat.max (chh * (cw + pitch)) (tw * 2 * (th * 2)))
                       b (tw * 2 * (th * 2))).
    { unfold b, buffer_b, pitch. destruct (Nat.eqb_spec lift 0) as [Hl|Hl].
      - by left.
      - right. left. unfold padd. cbn [p_reg p_off].
        pose proof (half_block_fits cw chh Hcw Hchh) as Hfit.
        fold tw th in Hfit.
        assert (chh * (cw + cw) = cw * chh * 2)%nat as Hpitch by lia.
        rewrite Hpitch. unfold lp. lia. }
    destruct (sLift2d_spec k q16 g cw chh tw th pitch aux_memory lp b)
      with (m := st_mem st) as (m' & rows & Hrun & Hrows & Hcols & _);
      [lia|lia|lia|done|done|done| |done|].
    { unfold b, buffer_b. by destruct (lift =? 0)%nat. }
    exists q16, m', rows.
    refine (conj Hq (conj Hq16 (conj Hrows (conj Hcols (conj Hrun _))))).
    unfold lift_channel. rewrite Hq. cbn [mbind option_bind].
    fold g lp. unfold b, buffer_b, pitch in Hrun. fold lp in Hrun.
    destruct (Nat.eqb_spec lift 0) as [Hl|Hl].
    + destruct (Hfirst Hl) as [Ew Eh]. rewrite <- Ew, <- Eh.
      rewrite <- Ew, <- Eh in Hrun. by rewrite Hrun.
    + by rewrite Hrun.
  - intros TileTotalLength TileTotalLifts tile_w tile_h channels
      planes_space k m Hlim.
    destruct (DwtTransform_log TileTotalLength TileTotalLifts s tile_w
                tile_h channels planes_space Hlim k m) as (r & -> & _).
    by eexists.
Qed.

Lemma quantization_step_at_least_1_witness :
  (∃ q16,
     f_to_int16 (quantization_q (uniform_settings (f_of_int 40 : xfloat)
                                   (f_of_int 0)) 0 3) = Some q16
     ∧ 1 ≤ q16 ≤ 32767)
  ∧ (let g := quantization_g TileTotalLifts_spec lossless_settings 4 4 0 0 in
     let lp := plane 4 4 0 0 in
     let b := buffer_b 4 4 0 0 4 4 0 in
     ∃ q16 m' (rows : nat → list Z),
       f_to_int16 (quantization_q lossless_settings 0 0) = Some q16
       ∧ 1 ≤ q16 ≤ 32767
       ∧ (∀ r, (r < 4)%nat →
            sLift1d CDF53 q16 g 2
              (list_reader
                 (padded_row sample_planes
                    (padd lp (Z.of_nat (r * (4 + 0)))) 4 2))
            = Some (rows r))
       ∧ (∀ col, (col < 2 * 2)%nat →
            sLift1d CDF53 q16 g 2
              (list_reader
                 ((λ i, default 0 (rows (Nat.min i (4 - 1)) !! col))
                    <$> seq 0 (2 * 2)))
            = Some (column_of m' lp col 2 2))
       ∧ sLift2d CDF53 q16 g 4 4 2 2 0 aux_memory lp b sample_planes
         = Some m'
       ∧ lift_channel TileTotalLifts_spec lossless_settings 4 4 0
           CDF53 0 4 4 2 2 0 (State sample_planes []) (Ptr ROut 32)
         = Some (emit_record q16 2 2 lp (Ptr ROut 32) (State m' [])))
  ∧ is_Some (DwtTransform TileTotalLength_spec TileTotalLifts_spec
               lossless_settings 4 4 2 0 (Some CDF53) sample_planes).
Proof.
  split; [|split].
  - destruct (quantization_step_at_least_1
                (uniform_settings (f_of_int 40 : xfloat) (f_of_int 0)) 0 3)
      as (Ha & Hb & _).
    destruct Hb as [q16 Hq]; [reflexivity|].
    exists q16. split; [exact Hq|]. exact (proj1 (Ha q16 Hq)).
  - destruct (quantization_step_at_least_1 lossless_settings 0 0)
      as (_ & _ & _ & Hcall & _).
    apply (Hcall TileTotalLifts_spec 4%nat 4%nat 0%nat CDF53 4%nat 4%nat
             (State sample_planes []) (Ptr ROut 32)).
    + reflexivity.
    + lia.
    + lia.
    + intros _. split; reflexivity.
  - destruct (quantization_step_at_least_1 lossless_settings 0 0)
      as (_ & _ & _ & _ & Hrun).
    apply Hrun. intros ch. reflexivity.
Defined.
